(** * Line/employee assignment and greedy order scheduling (src/plan/__init__.py)

    A shallow embedding of the planning core: the qualification graph and
    Kuhn's augmenting-path matcher, the backtracking enumerator of all
    maximum-cardinality assignments, the quantity scorer, the non-splitting
    greedy scheduler and the selection glue of [main].

    Conventions of the embedding:
    - Python [str] is [string]; [<] on [str] is [String.ltb] (byte-wise
      lexicographic, which on UTF-8 agrees with code-point order).
    - Python [dict] and [set] are stdpp's [gmap] and [gset].
    - Python [int] is [Z]; Python [float] is the binary64 instance of the
      IEEE-754 specification [spec_float] (prec 53, emax 1024).
    - An exception is [None] in the [option] monad.
    - A [datetime] is the number of seconds it lies after a fixed origin, so
      [shift_start + timedelta(seconds=n)] is an addition on [Z]; the
      rendering by [isoformat] and the range limits of [datetime] and
      [timedelta] are not modelled.
    - The records of the request have the types the docstring of [main]
      gives them: identifiers and line names are strings, a quantity is an
      [int], a time per unit is a JSON number. *)

From stdpp Require Import gmap strings list fin_maps sorting.
From Stdlib Require Import ZArith Floats.SpecFloat.

Open Scope string_scope.
Open Scope list_scope.
Open Scope nat_scope.

(** ** Python built-ins used by the source *)

Section py_sorted.
Context {A : Type} (lt : A → A → bool).

(** [x] comes from the left of the elements of [l] in the input, so it is
    put before the first element that is not smaller than it: the sort is
    stable, as [sorted] and [list.sort] are. *)
Fixpoint py_insert (x : A) (l : list A) : list A :=
  match l with
  | [] => [x]
  | y :: l' => if lt y x then y :: py_insert x l' else x :: l
  end.

Definition py_sorted (l : list A) : list A := foldr py_insert [] l.
End py_sorted.

(** Comparison of sequences: the first position where the two differ
    decides; a proper prefix is smaller. *)
Fixpoint seq_lt {A : Type} `{EqDecision A} (lt : A → A → bool) (a b : list A) : bool :=
  match a, b with
  | [], [] => false
  | [], _ :: _ => true
  | _ :: _, [] => false
  | x :: a', y :: b' => if decide (x = y) then seq_lt lt a' b' else lt x y
  end.

(** [(l1, e1) < (l2, e2)] on tuples of two strings. *)
Definition pair_lt (a b : string * string) : bool :=
  if decide (a.1 = b.1) then String.ltb a.2 b.2 else String.ltb a.1 b.1.

(** A dict comprehension [{k: v for ...}]: a later binding of a key
    overrides an earlier one. *)
Definition py_dict {V : Type} (kvs : list (string * V)) : gmap string V :=
  foldl (λ m kv, <[kv.1 := kv.2]> m) ∅ kvs.

(** [d.get(k, [])] *)
Definition get_list {V : Type} (d : gmap string (list V)) (k : string) : list V :=
  default [] (d !! k).

(** ** Data model *)

(** An employee record of the request: the ["id"] entry, which the source
    requires ([emp["id"]]), and the entries that hold a list of line names,
    by key. *)
Record employee := Employee {
  emp_id : string;
  emp_lists : gmap string (list string) }.

(** [emp.get("qualifiedLines", [])] *)
Definition qualifiedLines (emp : employee) : list string :=
  get_list (emp_lists emp) "qualifiedLines".

(** ** Matcher and Enumerator: [employee_assignment] *)

(** [line_to_emps]: line -> ids of the employees qualified for it, in the
    order of [employees_available]. *)
Definition line_to_emps (lines_available : list string)
    (employees_available : list employee) : gmap string (list string) :=
  py_dict ((λ line,
      (line, emp_id <$> filter (λ emp, line ∈ qualifiedLines emp) employees_available))
    <$> lines_available).

(** The loop [for emp in line_to_emps.get(line, [])] of [try_augment], over
    the employees [emps] still to try. [rec] is [try_augment] itself, for
    the recursive call on the line the employee is matched to. The shared
    [seen] set and the [match_emp_to_line] dict are passed through; the
    result is the returned flag and their final values. *)
Fixpoint augment_loop
    (rec : string → gset string → gmap string string
           → option (bool * gset string * gmap string string))
    (line : string) (emps : list string) (seen : gset string) (m : gmap string string)
    : option (bool * gset string * gmap string string) :=
  match emps with
  | [] => Some (false, seen, m)
  | emp :: emps' =>
    if decide (emp ∈ seen) then augment_loop rec line emps' seen m
    else
      let seen := {[emp]} ∪ seen in
      match m !! emp with
      | None => Some (true, seen, <[emp := line]> m)
      | Some line' =>
        match rec line' seen m with
        | None => None
        | Some (true, seen', m') => Some (true, seen', <[emp := line]> m')
        | Some (false, seen', m') => augment_loop rec line emps' seen' m'
        end
      end
  end.

(** [try_augment(line, seen)]. [fuel] bounds the depth of the recursion;
    [None] is fuel exhausted. *)
Fixpoint try_augment (g : gmap string (list string)) (fuel : nat) (line : string)
    (seen : gset string) (m : gmap string string)
    : option (bool * gset string * gmap string string) :=
  match fuel with
  | O => None
  | S fuel' => augment_loop (try_augment g fuel') line (get_list g line) seen m
  end.

(** One iteration of [for line in lines_available: try_augment(line, set())]. *)
Definition augment_from (g : gmap string (list string)) (fuel : nat)
    (m : gmap string string) (line : string) : gmap string string :=
  match try_augment g fuel line ∅ m with
  | Some (_, _, m') => m'
  | None => m
  end.

(** The depth of [try_augment] never exceeds the number of employees by
    more than one (see [try_augment_total]). *)
Definition matcher_fuel (employees_available : list employee) : nat :=
  S (length employees_available).

(** [match_emp_to_line] after the loop over [lines_available]. *)
Definition match_emp_to_line (lines_available : list string)
    (employees_available : list employee) : gmap string string :=
  foldl (augment_from (line_to_emps lines_available employees_available)
                      (matcher_fuel employees_available))
        ∅ lines_available.

(** The mutable state of the enumeration. *)
Record bt_state := BtState {
  results_set : gset (list (string * string));
  used_emps : gset string;
  cur_pairs : list (string * string) }.

Section backtrack.
Variable g : gmap string (list string).
Variables total_emps max_size : Z.

(** The test at the head of [backtrack(i)];
    [remaining_lines = len(ordered_lines) - i]. *)
Definition prune (remaining_lines : Z) (st : bt_state) : bool :=
  bool_decide (Z.of_nat (length (cur_pairs st))
               + Z.min remaining_lines (total_emps - Z.of_nat (size (used_emps st)))
               < max_size)%Z.

(** The state in which [backtrack(i + 1)] is entered after
    [used_emps.add(emp); cur_pairs.append((line, emp))]. *)
Definition bt_push (line emp : string) (st : bt_state) : bt_state :=
  {| results_set := results_set st;
     used_emps := {[emp]} ∪ used_emps st;
     cur_pairs := cur_pairs st ++ [(line, emp)] |}.

(** [cur_pairs.pop(); used_emps.remove(emp)] *)
Definition bt_pop (emp : string) (st : bt_state) : bt_state :=
  {| results_set := results_set st;
     used_emps := used_emps st ∖ {[emp]};
     cur_pairs := removelast (cur_pairs st) |}.

(** [results_set.add(tuple(sorted(cur_pairs)))] *)
Definition bt_record (st : bt_state) : bt_state :=
  {| results_set := {[py_sorted pair_lt (cur_pairs st)]} ∪ results_set st;
     used_emps := used_emps st;
     cur_pairs := cur_pairs st |}.

(** [backtrack(i)], the recursion on the index [i] written as a recursion
    on the lines still to visit, [rest = ordered_lines[i:]]. *)
Fixpoint backtrack (rest : list string) (st : bt_state) : bt_state :=
  if prune (Z.of_nat (length rest)) st then st
  else
    match rest with
    | [] =>
      if bool_decide (Z.of_nat (length (cur_pairs st)) = max_size)
      then bt_record st else st
    | line :: rest' =>
      let candidates := get_list g line in
      let st := backtrack rest' st in
      foldl (λ st emp,
               if decide (emp ∈ used_emps st) then st
               else bt_pop emp (backtrack rest' (bt_push line emp st)))
            st candidates
    end.
End backtrack.

(** [ordered_lines]: by ascending number of candidates, stably. *)
Definition ordered_lines (g : gmap string (list string)) (lines_available : list string)
    : list string :=
  py_sorted (λ a b, bool_decide (length (get_list g a) < length (get_list g b)))
            lines_available.

(** [total_emps = len({emp["id"] for emp in employees_available})] *)
Definition total_emps (employees_available : list employee) : Z :=
  Z.of_nat (size (list_to_set (emp_id <$> employees_available) : gset string)).

(** How far a run of [employee_assignment] gets: it returns after the
    matcher when [max_size == 0], and otherwise runs [backtrack(0)]. *)
Inductive assignment_run :=
  | NoAssignment
  | Enumerated (st : bt_state).

Definition employee_assignment_run (lines_available : list string)
    (employees_available : list employee) : assignment_run :=
  let g := line_to_emps lines_available employees_available in
  let max_size := size (match_emp_to_line lines_available employees_available) in
  if decide (max_size = 0) then NoAssignment
  else
    Enumerated
      (backtrack g (total_emps employees_available) (Z.of_nat max_size)
                 (ordered_lines g lines_available) (BtState ∅ ∅ [])).

(** The returned list; a combination [[{line: emp}, ...]] is the list of its
    [(line, emp)] pairs. *)
Definition employee_assignment (lines_available : list string)
    (employees_available : list employee) : list (list (string * string)) :=
  match employee_assignment_run lines_available employees_available with
  | NoAssignment => []
  | Enumerated st => py_sorted (seq_lt pair_lt) (elements (results_set st))
  end.

(** ** Numbers of the request *)

(** A JSON number, as the request parser delivers it. *)
Inductive number :=
  | NInt (z : Z)
  | NFloat (f : spec_float).

Definition float_one : spec_float := S754_finite false 4503599627370496 (-52).
Definition float_inf : spec_float := S754_infinity false.

(** Conversion of an [int] to a [float]: to nearest, ties to even;
    [OverflowError] when the result is not finite. *)
Definition float_of_int (z : Z) : option spec_float :=
  match binary_normalize 53 1024 z 0 false with
  | S754_infinity _ => None
  | f => Some f
  end.

(** [float(x)] *)
Definition py_float (x : number) : option spec_float :=
  match x with
  | NInt z => float_of_int z
  | NFloat f => Some f
  end.

(** [int(f)]: truncation towards zero; [OverflowError] on an infinity,
    [ValueError] on a NaN. *)
Definition int_of_float (f : spec_float) : option Z :=
  match f with
  | S754_zero _ => Some 0%Z
  | S754_finite s m e => Some (cond_Zopp s (Z.shiftl (Z.pos m) e))
  | S754_infinity _ | S754_nan => None
  end.

(** [q * tpu] for an [int] [q] and a [float] [tpu]. *)
Definition int_mul_float (q : Z) (tpu : spec_float) : option spec_float :=
  fq ← float_of_int q; Some (SFmul 53 1024 fq tpu).

(** ** Materials and production orders *)

(** A material record: ["material_number"] and the optional ["line"] list. *)
Record material := Material {
  material_number : string;
  line : option (list string) }.

Record production_order := ProductionOrder {
  order_number : string;
  po_material_number : string;
  quantity : Z;
  time_to_complete : number }.

(** [{m["material_number"]: set(m.get("line", [])) for m in materials}] *)
Definition mat_to_lines (materials : list material) : gmap string (gset string) :=
  py_dict ((λ m, (material_number m, list_to_set (default [] (line m)))) <$> materials).

(** [mat_to_lines.get(po["material_number"], set())] *)
Definition allowed_lines (materials : list material) (po : production_order) : gset string :=
  default ∅ (mat_to_lines materials !! po_material_number po).

(** ** Scorer: [score_assignment_quantity] *)

Definition score_assignment_quantity (lines_for_combo : list string)
    (production_orders : list production_order) (materials : list material) : Z :=
  let lines_set : gset string := list_to_set lines_for_combo in
  foldl (λ total_qty po,
           if decide (lines_set ∩ allowed_lines materials po ≠ ∅)
           then (total_qty + quantity po)%Z else total_qty)
        0%Z production_orders.

(** ** Scheduler: [schedule_orders_greedy_nosplit] *)

(** An entry of [enriched]. *)
Record job := Job {
  job_po : production_order;
  duration_s : Z;
  eligible_lines : list string;
  density : spec_float }.

(** An entry [{"order_number": ..., "start": ...}] of a line's sequence. *)
Record slot := Slot {
  slot_order_number : string;
  slot_start : Z }.

(** [q = int(po["quantity"]); tpu = float(po["time_to_complete"]);
    dur = int(q * tpu)]: the time per unit as a float and the duration in
    whole seconds; [None] when a conversion raises, which is when the
    product is not a finite number. *)
Definition order_duration (po : production_order) : option (spec_float * Z) :=
  let q := quantity po in
  tpu ← py_float (time_to_complete po);
  prod ← int_mul_float q tpu;
  dur ← int_of_float prod;
  Some (tpu, dur).

Section scheduler.
Variable available_lines : list string.
Variable materials : list material.
Variables shift_start shift_len : Z.

Definition eligible_lines_for_order (po : production_order) : list string :=
  py_sorted String.ltb
    (elements (list_to_set available_lines ∩ allowed_lines materials po)).

(** The body of the enrichment loop for one order: [None] is an exception,
    [Some None] is [continue]. *)
Definition enrich_order (po : production_order) : option (option job) :=
  '(tpu, dur) ← order_duration po;
  let elig := eligible_lines_for_order po in
  match elig with
  | [] => Some None
  | _ :: _ =>
    Some (Some {| job_po := po;
                  duration_s := dur;
                  eligible_lines := elig;
                  density := if SFltb (S754_zero false) tpu
                             then SFdiv 53 1024 float_one tpu else float_inf |})
  end.

Fixpoint enrich (production_orders : list production_order) : option (list job) :=
  match production_orders with
  | [] => Some []
  | po :: rest =>
    j ← enrich_order po;
    js ← enrich rest;
    Some (option_list j ++ js)
  end.

(** The sort key [(-density, duration_s, order_number)] and [<] on it. *)
Definition job_key (j : job) : spec_float * Z * string :=
  (SFopp (density j), duration_s j, order_number (job_po j)).

Definition job_key_lt (a b : spec_float * Z * string) : bool :=
  let '(d1, t1, o1) := a in
  let '(d2, t2, o2) := b in
  if negb (SFeqb d1 d2) then SFltb d1 d2
  else if negb (t1 =? t2)%Z then (t1 <? t2)%Z
  else String.ltb o1 o2.

Definition job_lt (a b : job) : bool := job_key_lt (job_key a) (job_key b).

(** The key of [max(candidates, key=...)] and [>] on it. *)
Definition line_key (line_time_used : gmap string Z) (ln : string) : Z * Z * string :=
  ((shift_len - line_time_used !!! ln)%Z, (- line_time_used !!! ln)%Z, ln).

Definition line_key_gt (a b : Z * Z * string) : bool :=
  let '(r1, u1, l1) := a in
  let '(r2, u2, l2) := b in
  if negb (r1 =? r2)%Z then (r2 <? r1)%Z
  else if negb (u1 =? u2)%Z then (u2 <? u1)%Z
  else String.ltb l2 l1.

(** [max(first :: rest, key=...)]: the running maximum is replaced only by
    an item whose key is strictly greater. *)
Definition max_line (line_time_used : gmap string Z) (first : string)
    (rest : list string) : string :=
  foldl (λ best ln,
           if line_key_gt (line_key line_time_used ln) (line_key line_time_used best)
           then ln else best)
        first rest.

(** [candidates] of a job *)
Definition candidates (line_time_used : gmap string Z) (j : job) : list string :=
  filter (λ ln, (line_time_used !!! ln + duration_s j ≤ shift_len)%Z) (eligible_lines j).

(** The line state: [line_time_used] and [per_line_sequence]. *)
Definition line_state : Type := gmap string Z * gmap string (list slot).

(** One iteration of [for job in enriched]. The start time is a sum of
    seconds: that [shift_start + timedelta(...)] raises [OverflowError]
    when the sum leaves the range of [datetime] is not modelled, so the
    properties of the placing loop are properties of the runs that stay
    within that range. *)
Definition place_job (st : line_state) (j : job) : line_state :=
  let '(line_time_used, per_line_sequence) := st in
  match candidates line_time_used j with
  | [] => st
  | first :: rest =>
    let best_line := max_line line_time_used first rest in
    let start_dt := (shift_start + line_time_used !!! best_line)%Z in
    (<[best_line := (line_time_used !!! best_line + duration_s j)%Z]> line_time_used,
     <[best_line := per_line_sequence !!! best_line
                    ++ [Slot (order_number (job_po j)) start_dt]]> per_line_sequence)
  end.

Definition initial_line_state : line_state :=
  (py_dict ((λ ln, (ln, 0%Z)) <$> available_lines),
   py_dict ((λ ln, (ln, [])) <$> available_lines)).

Definition schedule_orders_greedy_nosplit (production_orders : list production_order)
    : option (gmap string (list slot)) :=
  if decide (shift_len ≤ 0 ∨ available_lines = [])%Z
  then Some (py_dict ((λ ln, (ln, [])) <$> available_lines))
  else
    enriched ← enrich production_orders;
    Some (foldl place_job initial_line_state (py_sorted job_lt enriched)).2.
End scheduler.

(** ** Selection and response: [main] after the request is parsed *)

Record request := Request {
  lines_available : list string;
  employees_available : list employee;
  production_orders : list production_order;
  materials : list material;
  shift_start : Z;
  shift_length_seconds : Z }.

Record response := Response {
  resp_shift_start : Z;
  resp_lines : list string;
  resp_assignment : gmap string string;
  resp_sequence : gmap string (list slot) }.

Definition lines_from_combo (combo : list (string * string)) : list string := combo.*1.

(** The loop that keeps [(best_idx, best_qty)]. *)
Definition best_index (req : request) (assignments : list (list (string * string))) : nat :=
  (foldl (λ '(best_idx, best_qty) '(i, combo),
            let qty := score_assignment_quantity (lines_from_combo combo)
                         (production_orders req) (materials req) in
            if bool_decide (best_qty < qty)%Z then (i, qty) else (best_idx, best_qty))
         (0, (-1)%Z)
         (imap (λ i combo, (i, combo)) assignments)).1.

Definition main (req : request) : option response :=
  let assignments := employee_assignment (lines_available req) (employees_available req) in
  match assignments with
  | [] =>
    Some {| resp_shift_start := shift_start req; resp_lines := [];
            resp_assignment := ∅; resp_sequence := ∅ |}
  | _ :: _ =>
    chosen ← assignments !! best_index req assignments;
    let chosen_lines := lines_from_combo chosen in
    sequence ← schedule_orders_greedy_nosplit chosen_lines (materials req)
                 (shift_start req) (shift_length_seconds req) (production_orders req);
    Some {| resp_shift_start := shift_start req;
            resp_lines := py_sorted String.ltb chosen_lines;
            resp_assignment := py_dict chosen;
            resp_sequence := sequence |}
  end.

(** ** Notions the properties are stated with *)

(** An edge of the qualification graph: [ln] is one of the lines and some
    employee record with id [e] lists it under ["qualifiedLines"]. *)
Definition qualified (lines_available : list string) (employees_available : list employee)
    (ln e : string) : Prop :=
  ln ∈ lines_available ∧
  ∃ emp, emp ∈ employees_available ∧ emp_id emp = e ∧ ln ∈ qualifiedLines emp.

(** A matching: pairs [(line, employee)] along edges, no line and no
    employee twice. *)
Definition is_matching (lines_available : list string) (employees_available : list employee)
    (pairs : list (string * string)) : Prop :=
  NoDup pairs.*1 ∧ NoDup pairs.*2 ∧
  ∀ ln e, (ln, e) ∈ pairs → qualified lines_available employees_available ln e.

Definition is_max_matching_size (lines_available : list string)
    (employees_available : list employee) (M : nat) : Prop :=
  (∃ pairs, is_matching lines_available employees_available pairs ∧ length pairs = M) ∧
  ∀ pairs, is_matching lines_available employees_available pairs → (length pairs ≤ M)%nat.

(** An employee record with only the two documented keys. *)
Definition emp_of (id : string) (qualified : list string) : employee :=
  Employee id {["qualifiedLines" := qualified]}.

(** ** Notions the proofs are stated with *)

(** [a] may stand before [b] in a sorted list: [b] is not smaller. *)
Definition not_after {A : Type} (lt : A → A → bool) (a b : A) : Prop := lt b a = false.

(** The lines that are matched, with multiplicity. *)
Definition matched_lines (m : gmap string string) : list string := (map_to_list m).*2.

(** The dict itself, read as a list of [(line, employee)] pairs. *)
Definition matching_pairs (m : gmap string string) : list (string * string) :=
  (λ kv, (kv.2, kv.1)) <$> map_to_list m.

Section matcher_notions.
Variable g : gmap string (list string).

Implicit Types (seen : gset string) (m : gmap string string).

(** Every entry of the dict is an edge of the graph. *)
Definition along_edges m : Prop := ∀ e ln, m !! e = Some ln → e ∈ get_list g ln.

(** What every call of [try_augment] does: [seen] grows, the entries of
    seen employees are kept, a failed call leaves the dict as it was, a
    successful call matches one more line, namely [line], and entries stay
    edges. *)
Definition augment_post (line : string) seen m (b : bool) (s' : gset string) m' : Prop :=
  seen ⊆ s' ∧
  (∀ e, e ∈ seen → m' !! e = m !! e) ∧
  (b = false → m' = m) ∧
  (b = true → matched_lines m' ≡ₚ line :: matched_lines m) ∧
  (along_edges m → along_edges m').

(** A failed call has visited a set of employees that is closed: all
    candidates of [line] are in it, and every employee it added is
    matched to a line whose candidates are all in it. *)
Definition augment_closed (line : string) seen m (b : bool) (s' : gset string) m' : Prop :=
  b = false →
  (∀ e, e ∈ get_list g line → e ∈ s') ∧
  (∀ e, e ∈ s' → e ∉ seen →
        ∃ ln, m !! e = Some ln ∧ ∀ e', e' ∈ get_list g ln → e' ∈ s').

(** A Hall witness: a set [T] of lines all of whose candidates lie in the
    set [S] of employees, which are all matched to lines of [T]. *)
Definition tight (T S : gset string) m : Prop :=
  (∀ ln e, ln ∈ T → e ∈ get_list g ln → e ∈ S) ∧
  (∀ e, e ∈ S → ∃ ln, ln ∈ T ∧ m !! e = Some ln).

(** A search that starts in [T] fails, and no search changes the entry of
    an employee of [S]. *)
Definition augment_barrier (T S : gset string) (line : string) seen m (b : bool)
    (s' : gset string) m' : Prop :=
  tight T S m →
  (line ∈ T → b = false) ∧ (∀ e, e ∈ S → m' !! e = m !! e) ∧ (b = false → m' = m).

(** The invariant of the loop over the lines: the dict is a matching of
    the lines processed so far, and a Hall witness covers every processed
    line that is not matched. *)
Definition matcher_inv (processed : list string) m : Prop :=
  along_edges m ∧
  NoDup (matched_lines m) ∧
  (∀ ln, ln ∈ matched_lines m → ln ∈ processed) ∧
  ∃ T S, tight T S m ∧ ∀ ln, ln ∈ processed → ln ∉ T → ln ∈ matched_lines m.
End matcher_notions.

Section backtrack_notions.
Variable g : gmap string (list string).
Variables tot M : Z.

(** The step of the loop over the candidates of [line]. *)
Definition try_candidate (line : string) (rest : list string)
    (st : bt_state) (emp : string) : bt_state :=
  if decide (emp ∈ used_emps st) then st
  else bt_pop emp (backtrack g tot M rest (bt_push line emp st)).

(** On return, [used_emps] and [cur_pairs] are as on entry, and no
    result has been dropped. *)
Definition same_frame (st st' : bt_state) : Prop :=
  used_emps st' = used_emps st ∧ cur_pairs st' = cur_pairs st ∧
  results_set st ⊆ results_set st'.

(** What a recorded result is, seen from a state of the search: the
    sorted tuple of the current pairs and of pairs [ext] for some of the
    lines still to visit, with unused, distinct employees, along edges,
    [M] pairs in all. *)
Definition completes (rest : list string) (st : bt_state)
    (ext : list (string * string)) : Prop :=
  ext.*1 `sublist_of` rest ∧
  NoDup ext.*2 ∧
  (∀ e, e ∈ ext.*2 → e ∉ used_emps st) ∧
  (∀ ln e, (ln, e) ∈ ext → e ∈ get_list g ln) ∧
  Z.of_nat (length (cur_pairs st ++ ext)) = M.
End backtrack_notions.

(** The state [backtrack(0)] returns, when it is run. *)
Definition enumeration (lines_available : list string)
    (employees_available : list employee) : bt_state :=
  let g := line_to_emps lines_available employees_available in
  backtrack g (total_emps employees_available)
            (Z.of_nat (size (match_emp_to_line lines_available employees_available)))
            (ordered_lines g lines_available) (BtState ∅ ∅ []).

(** The response when no assignment exists. *)
Definition empty_response (req : request) : response :=
  {| resp_shift_start := shift_start req; resp_lines := [];
     resp_assignment := ∅; resp_sequence := ∅ |}.

(** The contribution of one order to the score. *)
Definition counted (lines_for_combo : list string) (materials : list material)
    (po : production_order) : Z :=
  if decide ((list_to_set lines_for_combo : gset string) ∩ allowed_lines materials po ≠ ∅)
  then quantity po else 0%Z.

Definition is_nan (f : spec_float) : bool :=
  match f with S754_nan => true | _ => false end.

(** The order the scheduler sorts by, in words: [a] goes before [b] when
    its density is greater, or the densities are equal and its duration is
    smaller, or both are equal and its order number is smaller. *)
Definition job_before (a b : job) : Prop :=
  SFltb (density b) (density a) = true ∨
  (SFeqb (density a) (density b) = true ∧
   ((duration_s a < duration_s b)%Z ∨
    (duration_s a = duration_s b ∧
     String.ltb (order_number (job_po a)) (order_number (job_po b)) = true))).

(** The line a job is put on, if any. *)
Definition choose_line (shift_len : Z) (line_time_used : gmap string Z) (j : job)
    : option string :=
  match candidates shift_len line_time_used j with
  | [] => None
  | first :: rest => Some (max_line shift_len line_time_used first rest)
  end.

(** The placements the placing loop makes: each placed job with its line. *)
Fixpoint placements (shift_len : Z) (line_time_used : gmap string Z) (jobs : list job)
    : list (job * string) :=
  match jobs with
  | [] => []
  | j :: jobs =>
    match choose_line shift_len line_time_used j with
    | None => placements shift_len line_time_used jobs
    | Some best_line =>
      (j, best_line)
      :: placements shift_len
           (<[best_line := (line_time_used !!! best_line + duration_s j)%Z]> line_time_used)
           jobs
    end
  end.

(** The jobs a list of placements puts on [ln], in the order of placement. *)
Definition jobs_on (ln : string) (pl : list (job * string)) : list job :=
  (filter (λ p, p.2 = ln) pl).*1.

(** The slots of jobs put one after the other from time [t] on. *)
Fixpoint contiguous (t : Z) (jobs : list job) : list slot :=
  match jobs with
  | [] => []
  | j :: jobs => Slot (order_number (job_po j)) t :: contiguous (t + duration_s j) jobs
  end.

Definition total_duration (jobs : list job) : Z :=
  foldr (λ j s, duration_s j + s)%Z 0%Z jobs.

(** What the enrichment loop appends for one order, if anything. *)
Definition kept_job (available_lines : list string) (materials : list material)
    (po : production_order) : option job :=
  enrich_order available_lines materials po ≫= id.

(** The score the selection loop computes for a combination. *)
Definition combo_score (req : request) (combo : list (string * string)) : Z :=
  score_assignment_quantity (lines_from_combo combo) (production_orders req) (materials req).

(** [x >= 0] for a number of the request. *)
Definition number_nonneg (x : number) : Prop :=
  match x with
  | NInt z => (0 ≤ z)%Z
  | NFloat f => SFleb (S754_zero false) f = true
  end.

(** A float that is not below zero: a zero of either sign, or a positive
    number or infinity; or a NaN. *)
Definition not_negative (f : spec_float) : Prop :=
  match f with
  | S754_finite true _ _ | S754_infinity true => False
  | _ => True
  end.

(** ** Inputs of the examples *)

Definition one_order_two_lines : list production_order :=
  [ProductionOrder "PO-1" "M1" 100 (NInt 1)].

Definition one_material_two_lines : list material :=
  [Material "M1" (Some ["L1"; "L2"])].

Definition job_for_two_lines : job :=
  {| job_po := ProductionOrder "PO-1" "M1" 100 (NInt 1);
     duration_s := 100;
     eligible_lines := ["L1"; "L2"];
     density := float_one |}.

(** A request with two lines, two employees qualified for both, and two
    orders. *)
Definition two_lines_request : request :=
  {| lines_available := ["L1"; "L2"];
     employees_available := [emp_of "e1" ["L1"; "L2"]; emp_of "e2" ["L1"; "L2"]];
     production_orders :=
       [ProductionOrder "PO-1" "M1" 100 (NInt 1); ProductionOrder "PO-2" "M2" 50 (NInt 2)];
     materials := [Material "M1" (Some ["L1"]); Material "M2" (Some ["L1"; "L2"])];
     shift_start := 0;
     shift_length_seconds := 28800 |}.

(** * Properties *)

Example scenario_A :
  employee_assignment ["L1"; "L2"] [emp_of "e1" ["L1"]; emp_of "e2" ["L1"; "L2"]]
  = [[("L1", "e1"); ("L2", "e2")]].
Proof. vm_compute. reflexivity. Qed.

Example two_maximum_assignments :
  employee_assignment ["L2"; "L1"] [emp_of "e2" ["L1"; "L2"]; emp_of "e1" ["L1"; "L2"]]
  = [[("L1", "e1"); ("L2", "e2")]; [("L1", "e2"); ("L2", "e1")]].
Proof. vm_compute. reflexivity. Qed.

(** ** Facts on the built-ins *)

Section py_dict_facts.
Context {V : Type}.
Implicit Types (kvs : list (string * V)) (m : gmap string V).

Lemma py_dict_snoc kvs k v : py_dict (kvs ++ [(k, v)]) = <[k := v]> (py_dict kvs).
Proof. unfold py_dict. by rewrite foldl_app. Qed.

Lemma py_dict_lookup_Some kvs k v : py_dict kvs !! k = Some v → (k, v) ∈ kvs.
Proof.
  induction kvs as [|[k' v'] kvs IH] using rev_ind; [by cbn; rewrite lookup_empty|].
  rewrite py_dict_snoc, lookup_insert. case_decide as Hk; simpl.
  - intros [= <-]. subst. set_solver.
  - intros ?%IH. set_solver.
Qed.

Lemma py_dict_lookup_None kvs k : py_dict kvs !! k = None ↔ k ∉ kvs.*1.
Proof.
  induction kvs as [|[k' v'] kvs IH] using rev_ind; [cbn; rewrite lookup_empty; set_solver|].
  rewrite py_dict_snoc, lookup_insert, fmap_app. case_decide as Hk; simpl.
  - subst. set_solver.
  - rewrite IH. set_solver.
Qed.

(** A comprehension whose value is a function of the key. *)
Lemma py_dict_tabulate (f : string → V) (ks : list string) k :
  py_dict ((λ k, (k, f k)) <$> ks) !! k = if decide (k ∈ ks) then Some (f k) else None.
Proof.
  case_decide as Hk.
  - destruct (py_dict ((λ k, (k, f k)) <$> ks) !! k) eqn:E.
    + apply py_dict_lookup_Some, list_elem_of_fmap in E as (? & [= -> ->] & _). done.
    + apply py_dict_lookup_None in E. rewrite <-list_fmap_compose in E.
      contradict E. simpl. apply list_elem_of_fmap. by exists k.
  - apply py_dict_lookup_None. rewrite <-list_fmap_compose.
    intros (? & -> & ?)%list_elem_of_fmap. done.
Qed.
End py_dict_facts.

Section py_sorted_facts.
Context {A : Type} (lt : A → A → bool).

Abbreviation not_after := (not_after lt).

Lemma py_insert_perm x l : py_insert lt x l ≡ₚ x :: l.
Proof.
  induction l as [|y l IH]; simpl; [done|].
  destruct (lt y x); [|done]. rewrite IH. apply perm_swap.
Qed.

Lemma py_sorted_perm l : py_sorted lt l ≡ₚ l.
Proof.
  induction l as [|x l IH]; simpl; [done|].
  by rewrite py_insert_perm, IH.
Qed.

Lemma py_sorted_length l : length (py_sorted lt l) = length l.
Proof. by rewrite py_sorted_perm. Qed.

Lemma py_sorted_elem_of x l : x ∈ py_sorted lt l ↔ x ∈ l.
Proof. by rewrite py_sorted_perm. Qed.

(** When [<] is asymmetric and negatively transitive on the elements that
    satisfy [P], sorting a list of such elements yields a sorted list. *)
Section sortedness.
Variable P : A → Prop.
Hypothesis lt_asym : ∀ a b, P a → P b → lt a b = true → lt b a = false.
Hypothesis lt_negtrans :
  ∀ a b c, P a → P b → P c → lt a b = false → lt b c = false → lt a c = false.

Lemma py_insert_sorted x l :
  P x → Forall P l →
  StronglySorted not_after l → StronglySorted not_after (py_insert lt x l).
Proof.
  intros Hx HP Hl. induction Hl as [|y l Hl IH Hy]; simpl.
  { repeat constructor. }
  apply Forall_cons in HP as [HPy HPl].
  destruct (lt y x) eqn:E.
  - constructor; [by apply IH|].
    rewrite py_insert_perm. constructor; [|done].
    unfold not_after. by apply lt_asym.
  - constructor; [by constructor|].
    constructor; [done|].
    rewrite Forall_forall in Hy, HPl |- *. intros z Hz.
    unfold not_after in *. apply (lt_negtrans z y x); auto.
Qed.

Lemma py_sorted_sorted l : Forall P l → StronglySorted not_after (py_sorted lt l).
Proof.
  induction 1 as [|x l Hx Hl IH]; simpl; [constructor|].
  apply py_insert_sorted; [done| |done].
  by rewrite py_sorted_perm.
Qed.
End sortedness.
End py_sorted_facts.

(** [<] on strings is a strict total order. *)
Lemma ltb_leb a b : String.ltb a b = negb (String.leb b a).
Proof.
  unfold String.ltb, String.leb. rewrite (String.compare_antisym b a).
  by destruct (String.compare a b).
Qed.

Lemma str_not_after a b : not_after String.ltb a b ↔ String.le a b.
Proof.
  unfold not_after, String.le. rewrite ltb_leb.
  destruct (String.leb a b); simpl; split; done.
Qed.

Lemma ltb_irrefl a : String.ltb a a = false.
Proof. apply str_not_after. done. Qed.

Lemma ltb_asym a b : String.ltb a b = true → String.ltb b a = false.
Proof.
  intros H. apply str_not_after. destruct (total String.le a b) as [|Hba]; [done|].
  apply str_not_after in Hba. congruence.
Qed.

Lemma ltb_negtrans a b c :
  String.ltb a b = false → String.ltb b c = false → String.ltb a c = false.
Proof.
  intros H1%str_not_after H2%str_not_after. apply str_not_after. by etrans.
Qed.

Lemma ltb_antisym a b : String.ltb a b = false → String.ltb b a = false → a = b.
Proof.
  intros H1%str_not_after H2%str_not_after. by apply (anti_symm String.le).
Qed.

Lemma ltb_trans a b c :
  String.ltb a b = true → String.ltb b c = true → String.ltb a c = true.
Proof.
  intros H1 H2. destruct (String.ltb a c) eqn:E; [done|].
  assert (String.ltb c b = false) as H3 by by apply ltb_asym.
  pose proof (ltb_negtrans _ _ _ H3 (ltb_asym _ _ H1)) as H4.
  rewrite (ltb_antisym a c) in H1; [|done|].
  - congruence.
  - destruct (String.ltb c a) eqn:E'; [|done].
    pose proof (ltb_negtrans _ _ _ E (ltb_asym _ _ H2)). congruence.
Qed.

(** ** The matcher *)

Lemma matched_lines_insert_None m e ln :
  m !! e = None → matched_lines (<[e := ln]> m) ≡ₚ ln :: matched_lines m.
Proof. intros H. unfold matched_lines. by rewrite map_to_list_insert. Qed.

Lemma matched_lines_insert_Some m e ln ln' :
  m !! e = Some ln' →
  ln' :: matched_lines (<[e := ln]> m) ≡ₚ ln :: matched_lines m.
Proof.
  intros H. unfold matched_lines.
  rewrite <-(insert_delete_eq m e ln), map_to_list_insert by apply lookup_delete_eq.
  rewrite <-(map_to_list_delete m e ln' H). simpl. apply perm_swap.
Qed.

Lemma elem_of_matched_lines m ln : ln ∈ matched_lines m ↔ ∃ e, m !! e = Some ln.
Proof.
  unfold matched_lines. rewrite list_elem_of_fmap. split.
  - intros ([e ?] & -> & H%elem_of_map_to_list). by exists e.
  - intros [e H]. exists (e, ln). by rewrite elem_of_map_to_list.
Qed.

Lemma matched_lines_length m : length (matched_lines m) = size m.
Proof. unfold matched_lines. by rewrite length_fmap, length_map_to_list. Qed.

Section matcher_facts.
Variable g : gmap string (list string).

Abbreviation along_edges := (along_edges g).
Abbreviation augment_post := (augment_post g).
Abbreviation augment_closed := (augment_closed g).
Abbreviation tight := (tight g).
Abbreviation augment_barrier := (augment_barrier g).
Abbreviation matcher_inv := (matcher_inv g).

Implicit Types (seen : gset string) (m : gmap string string).

(** An induction principle for [try_augment]: [Φ] is what a call
    establishes between its arguments and its result, [Ψ] the same for
    the loop over the employees still to try. *)
Lemma try_augment_rule
    (Φ : string → gset string → gmap string string
         → bool → gset string → gmap string string → Prop)
    (Ψ : string → list string → gset string → gmap string string
         → bool → gset string → gmap string string → Prop) :
  (∀ line seen m, Ψ line [] seen m false seen m) →
  (∀ line emp emps seen m b s' m',
      emp ∈ seen → Ψ line emps seen m b s' m' → Ψ line (emp :: emps) seen m b s' m') →
  (∀ line emp emps seen m,
      emp ∉ seen → m !! emp = None →
      Ψ line (emp :: emps) seen m true ({[emp]} ∪ seen) (<[emp := line]> m)) →
  (∀ line emp emps seen m line' s' m',
      emp ∉ seen → m !! emp = Some line' →
      Φ line' ({[emp]} ∪ seen) m true s' m' →
      Ψ line (emp :: emps) seen m true s' (<[emp := line]> m')) →
  (∀ line emp emps seen m line' s1 m1 b s' m',
      emp ∉ seen → m !! emp = Some line' →
      Φ line' ({[emp]} ∪ seen) m false s1 m1 →
      Ψ line emps s1 m1 b s' m' →
      Ψ line (emp :: emps) seen m b s' m') →
  (∀ line seen m b s' m', Ψ line (get_list g line) seen m b s' m' → Φ line seen m b s' m') →
  ∀ fuel line seen m b s' m',
    try_augment g fuel line seen m = Some (b, s', m') → Φ line seen m b s' m'.
Proof.
  intros Hnil Hskip Hfree Htrue Hfalse Hwrap.
  induction fuel as [|fuel IH]; intros line seen m b s' m' Hrun; [done|].
  simpl in Hrun. apply Hwrap. revert Hrun.
  generalize (get_list g line) as emps. intros emps. revert seen m.
  induction emps as [|emp emps IHemps]; intros seen m Hrun; simpl in Hrun.
  { injection Hrun as <- <- <-. apply Hnil. }
  destruct (decide (emp ∈ seen)) as [Hin|Hnotin].
  { apply Hskip; auto. }
  destruct (m !! emp) as [line'|] eqn:Hm.
  - destruct (try_augment g fuel line' ({[emp]} ∪ seen) m)
      as [[[[] s1] m1]|] eqn:Hrec; [| |done].
    + injection Hrun as <- <- <-. eapply Htrue; eauto.
    + eapply Hfalse; eauto.
  - injection Hrun as <- <- <-. by apply Hfree.
Qed.

(** Both hold of every call that returns. *)
Lemma try_augment_spec fuel line seen m b s' m' :
  try_augment g fuel line seen m = Some (b, s', m') →
  augment_post line seen m b s' m' ∧ augment_closed line seen m b s' m'.
Proof.
  revert fuel line seen m b s' m'.
  apply (try_augment_rule
           (λ line seen m b s' m',
              augment_post line seen m b s' m' ∧ augment_closed line seen m b s' m')
           (λ line emps seen m b s' m',
              (∀ e, e ∈ emps → e ∈ get_list g line) →
              augment_post line seen m b s' m' ∧
              (b = false →
               (∀ e, e ∈ emps → e ∈ s') ∧
               (∀ e, e ∈ s' → e ∉ seen →
                     ∃ ln, m !! e = Some ln ∧ ∀ e', e' ∈ get_list g ln → e' ∈ s'))));
    unfold augment_closed.
  - intros line seen m _. split; [unfold augment_post; repeat split; done|].
    intros _. split; [set_solver|done].
  - intros line emp emps seen m b s' m' Hin IH Hsub.
    destruct IH as [Hpost Hcl]; [set_solver|]. split; [done|].
    intros Hb. destruct (Hcl Hb) as [H1 H2]. split; [|done].
    intros e [->|?]%elem_of_cons; [|by auto]. destruct Hpost as [Hs _]. set_solver.
  - intros line emp emps seen m Hnotin Hm Hsub. split; [|done].
    unfold augment_post. repeat split; [set_solver| |done| |].
    + intros e He. rewrite lookup_insert_ne; [done|set_solver].
    + intros _. by apply matched_lines_insert_None.
    + intros Hedges e ln. rewrite lookup_insert. case_decide; [|by auto].
      intros [= <-]. subst. apply Hsub. set_solver.
  - intros line emp emps seen m line' s' m' Hnotin Hm
      [(Hseen & Hkeep & _ & Hperm & Hedges) _] Hsub. split; [|done].
    unfold augment_post. repeat split; [set_solver| |done| |].
    + intros e He. rewrite lookup_insert_ne by set_solver. apply Hkeep. set_solver.
    + intros _. apply (Permutation_cons_inv (a := line')).
      rewrite matched_lines_insert_Some; [|rewrite Hkeep; [done|set_solver]].
      rewrite Hperm by done. apply perm_swap.
    + intros He e ln. rewrite lookup_insert. case_decide; [|by apply (Hedges He)].
      intros [= <-]. subst. apply Hsub. set_solver.
  - intros line emp emps seen m line' s1 m1 b s' m' Hnotin Hm
      [(Hseen & Hkeep & Hsame & _ & _) Hcl] IH Hsub.
    rewrite (Hsame eq_refl) in IH.
    destruct IH as [(Hseen' & Hkeep' & Hsame' & Hperm' & Hedges') Hcl']; [set_solver|].
    split.
    { unfold augment_post. repeat split; [set_solver| |done..].
      intros e He. apply Hkeep'. set_solver. }
    intros Hb. destruct (Hcl eq_refl) as [Hc1 Hc2]. destruct (Hcl' Hb) as [Hc1' Hc2'].
    split.
    + intros e [->|?]%elem_of_cons; [set_solver|by auto].
    + intros e He Hne. destruct (decide (e ∈ s1)) as [He1|He1]; [|by auto].
      destruct (decide (e = emp)) as [->|Hneq].
      * exists line'. split; [done|]. intros e' He'. apply Hseen', Hc1, He'.
      * destruct (Hc2 e He1) as (ln & Hln & Hall); [set_solver|].
        exists ln. split; [done|]. intros e' He'. by apply Hseen', Hall.
  - intros line seen m b s' m' H. destruct H as [H1 H2]; [done|]. split; [done|].
    intros Hb. destruct (H2 Hb) as [H3 H4]. split; done.
Qed.

Lemma try_augment_post fuel line seen m b s' m' :
  try_augment g fuel line seen m = Some (b, s', m') → augment_post line seen m b s' m'.
Proof. by intros [? _]%try_augment_spec. Qed.

Lemma try_augment_closed fuel line seen m b s' m' :
  try_augment g fuel line seen m = Some (b, s', m') → augment_closed line seen m b s' m'.
Proof. by intros [_ ?]%try_augment_spec. Qed.
(** The recursion is as deep as there are employees not yet seen. *)
Lemma try_augment_total (U : gset string) fuel line seen m :
  (∀ ln e, e ∈ get_list g ln → e ∈ U) →
  size (U ∖ seen) < fuel →
  is_Some (try_augment g fuel line seen m).
Proof.
  intros HU. revert line seen m.
  induction fuel as [|fuel IH]; intros line seen m Hsize; [lia|].
  simpl. assert (∀ e, e ∈ get_list g line → e ∈ U) as Hemps by eauto.
  assert (size (U ∖ seen) ≤ fuel) as Hle by lia. clear Hsize.
  revert seen m Hemps Hle. generalize (get_list g line) as emps.
  induction emps as [|emp emps IHemps]; intros seen m Hemps Hle; simpl; [by eauto|].
  destruct (decide (emp ∈ seen)) as [Hin|Hnotin].
  { apply IHemps; [set_solver|done]. }
  destruct (m !! emp) as [line'|] eqn:Hm; [|by eauto].
  assert (size (U ∖ ({[emp]} ∪ seen)) < size (U ∖ seen)) as Hlt.
  { apply subset_size. assert (emp ∈ U) by set_solver. set_solver. }
  destruct (IH line' ({[emp]} ∪ seen) m) as [[[[] s1] m1] Hrec]; [lia|..];
    rewrite Hrec; [by eauto|].
  apply IHemps; [set_solver|].
  apply try_augment_post in Hrec as (Hsub & _).
  etrans; [apply subseteq_size|exact Hle]. set_solver.
Qed.

(** A Hall witness: a set [T] of lines all of whose candidates lie in the
    set [S] of employees, which are all matched to lines of [T]. A search
    that starts in [T] fails, and no search changes the entry of an
    employee of [S]. *)
Section barrier.
Variables T S : gset string.

Abbreviation tight := (tight T S).
Abbreviation augment_barrier := (augment_barrier T S).

Lemma try_augment_barrier fuel line seen m b s' m' :
  try_augment g fuel line seen m = Some (b, s', m') →
  augment_barrier line seen m b s' m'.
Proof.
  revert fuel line seen m b s' m'.
  apply (try_augment_rule augment_barrier
           (λ line emps seen m b s' m',
              (∀ e, e ∈ emps → e ∈ get_list g line) →
              augment_barrier line seen m b s' m'));
    unfold augment_barrier.
  - intros line seen m _ _. repeat split; done.
  - intros line emp emps seen m b s' m' _ IH Hsub Ht. apply IH; [set_solver|done].
  - intros line emp emps seen m Hnotin Hm Hsub [Ht1 Ht2].
    assert (emp ∉ S) as HempS.
    { intros (ln & _ & Hln)%Ht2. congruence. }
    repeat split; [|intros e He; rewrite lookup_insert_ne; [done|set_solver]|done].
    intros HT. exfalso. apply HempS, (Ht1 line); [done|]. apply Hsub. set_solver.
  - intros line emp emps seen m line' s' m' Hnotin Hm IH Hsub Ht.
    destruct (IH Ht) as (Hfail & Hkeep & _). destruct Ht as [Ht1 Ht2].
    assert (emp ∉ S) as HempS.
    { intros (ln & HlnT & Hln)%Ht2. rewrite Hm in Hln. injection Hln as ->.
      by specialize (Hfail HlnT). }
    repeat split; [|intros e He; rewrite lookup_insert_ne; [by apply Hkeep|set_solver]
                   |done].
    intros HT. exfalso. apply HempS, (Ht1 line); [done|]. apply Hsub. set_solver.
  - intros line emp emps seen m line' s1 m1 b s' m' Hnotin Hm IH1 IH2 Hsub Ht.
    destruct (IH1 Ht) as (_ & _ & Hsame). rewrite (Hsame eq_refl) in IH2.
    apply IH2; [set_solver|done].
  - intros line seen m b s' m' H. by apply H.
Qed.
End barrier.

Lemma matcher_inv_empty : matcher_inv [] ∅.
Proof.
  unfold matcher_inv, along_edges, matched_lines. rewrite map_to_list_empty. simpl.
  repeat split; [by intros ?? ?%lookup_empty_Some|constructor|set_solver|].
  exists ∅, ∅. unfold tight. set_solver.
Qed.

Lemma matcher_inv_step (U : gset string) fuel processed m v :
  (∀ ln e, e ∈ get_list g ln → e ∈ U) → size U < fuel →
  v ∉ processed →
  matcher_inv processed m →
  matcher_inv (processed ++ [v]) (augment_from g fuel m v).
Proof.
  intros HU Hfuel Hv (Hedges & Hnodup & Hproc & T & S & Htight & Hcover).
  unfold augment_from.
  destruct (try_augment_total U fuel v ∅ m) as [[[b s'] m'] Hrun]; [done|..].
  { assert (size (U ∖ ∅) ≤ size U) by (apply subseteq_size; set_solver). lia. }
  rewrite Hrun.
  pose proof (try_augment_post _ _ _ _ _ _ _ Hrun) as (_ & _ & Hsame & Hperm & Hedges').
  pose proof (try_augment_closed _ _ _ _ _ _ _ Hrun) as Hclosed.
  pose proof (try_augment_barrier T S _ _ _ _ _ _ _ Hrun Htight) as (_ & Hkeep & _).
  destruct b.
  - specialize (Hperm eq_refl).
    split; [by auto|]. split.
    { rewrite Hperm. constructor; [|done]. intros ?%Hproc. done. }
    split.
    { intros ln. rewrite Hperm. set_solver. }
    exists T, S. split.
    + destruct Htight as [Ht1 Ht2]. split; [done|].
      intros e He. destruct (Ht2 e He) as (ln & ? & ?). exists ln.
      by rewrite Hkeep.
    + intros ln Hln HT. rewrite Hperm. set_solver.
  - rewrite (Hsame eq_refl) in *. destruct (Hclosed eq_refl) as [Hc1 Hc2].
    split; [done|]. split; [done|]. split; [set_solver|].
    exists (T ∪ {[v]} ∪ set_omap (λ e, m !! e) s'), (S ∪ s').
    destruct Htight as [Ht1 Ht2]. split; [split|].
    + intros ln e [[HT| ->%elem_of_singleton]%elem_of_union
                  |(e0 & He0 & Hm0)%elem_of_set_omap]%elem_of_union He.
      * apply elem_of_union_l. by eapply Ht1.
      * apply elem_of_union_r. by apply Hc1.
      * apply elem_of_union_r. destruct (Hc2 e0 He0) as (ln' & Hln' & Hall); [set_solver|].
        rewrite Hm0 in Hln'. injection Hln' as <-. by apply Hall.
    + intros e [He|He]%elem_of_union.
      * destruct (Ht2 e He) as (ln & ? & ?). exists ln. split; [set_solver|done].
      * destruct (Hc2 e He) as (ln & Hln & _); [set_solver|].
        exists ln. split; [|done].
        apply elem_of_union_r, elem_of_set_omap. by exists e.
    + intros ln Hln HT. apply Hcover; set_solver.
Qed.

Lemma matcher_inv_foldl (U : gset string) fuel lines processed m :
  (∀ ln e, e ∈ get_list g ln → e ∈ U) → size U < fuel →
  NoDup (processed ++ lines) →
  matcher_inv processed m →
  matcher_inv (processed ++ lines) (foldl (augment_from g fuel) m lines).
Proof.
  intros HU Hfuel. revert processed m.
  induction lines as [|v lines IH]; intros processed m Hnd Hinv; simpl.
  { by rewrite app_nil_r. }
  rewrite cons_middle, app_assoc in Hnd |- *. apply IH; [done|].
  eapply matcher_inv_step; [done..| |done].
  apply NoDup_app in Hnd as (Hnd & _ & _). apply NoDup_app in Hnd as (_ & Hnd & _).
  intros ?. eapply Hnd; [done|set_solver].
Qed.

(** No matching of the processed lines is larger than the dict. *)
Lemma matcher_inv_upper processed m (pairs : list (string * string)) :
  matcher_inv processed m →
  NoDup pairs.*1 → NoDup pairs.*2 →
  (∀ ln e, (ln, e) ∈ pairs → ln ∈ processed ∧ e ∈ get_list g ln) →
  length pairs ≤ size m.
Proof.
  intros (_ & _ & _ & T & S & [Ht1 Ht2] & Hcover) Hnd1 Hnd2 Hpairs.
  rewrite <-(filter_app_complement (λ p, p.1 ∈ T) pairs), length_app.
  rewrite <-length_map_to_list,
    <-(filter_app_complement (λ kv, kv.1 ∈ S) (map_to_list m)), length_app.
  apply Nat.add_le_mono.
  - rewrite <-(length_fmap snd), <-(length_fmap fst (filter _ (map_to_list m))).
    apply submseteq_length, NoDup_submseteq.
    { eapply sublist_NoDup; [exact Hnd2|]. apply fmap_sublist, sublist_filter. }
    intros e ([ln e'] & -> & [HT Hin]%list_elem_of_filter)%list_elem_of_fmap. simpl in *.
    destruct (Hpairs _ _ Hin) as [_ He].
    assert (e' ∈ S) as HS by by eapply Ht1.
    destruct (Ht2 e' HS) as (ln' & _ & Hm).
    apply list_elem_of_fmap. exists (e', ln'). split; [done|].
    apply list_elem_of_filter. split; [done|]. by apply elem_of_map_to_list.
  - rewrite <-(length_fmap fst), <-(length_fmap snd (filter _ (map_to_list m))).
    apply submseteq_length, NoDup_submseteq.
    { eapply sublist_NoDup; [exact Hnd1|]. apply fmap_sublist, sublist_filter. }
    intros ln' ([ln e] & -> & [HT Hin]%list_elem_of_filter)%list_elem_of_fmap. simpl in *.
    destruct (Hpairs _ _ Hin) as [Hproc _].
    apply Hcover, elem_of_matched_lines in Hproc as [e' He']; [|done].
    apply list_elem_of_fmap. exists (e', ln). split; [done|].
    apply list_elem_of_filter. split; [|by apply elem_of_map_to_list].
    simpl. intros (ln'' & HT'' & Hm'')%Ht2. congruence.
Qed.

Lemma matcher_inv_lower processed m :
  matcher_inv processed m →
  NoDup (matching_pairs m).*1 ∧ NoDup (matching_pairs m).*2 ∧
  length (matching_pairs m) = size m ∧
  ∀ ln e, (ln, e) ∈ matching_pairs m → ln ∈ processed ∧ e ∈ get_list g ln.
Proof.
  intros (Hedges & Hnd & Hproc & _). unfold matching_pairs.
  rewrite <-!list_fmap_compose, length_fmap, length_map_to_list.
  split; [done|]. split; [apply NoDup_fst_map_to_list|]. split; [done|].
  intros ln e ([e' ln'] & [= -> ->] & Hin%elem_of_map_to_list)%list_elem_of_fmap.
  split; [|by apply Hedges]. apply Hproc, elem_of_matched_lines. by exists e'.
Qed.
End matcher_facts.

(** ** The qualification graph *)

Lemma line_to_emps_get lines_available employees_available ln :
  get_list (line_to_emps lines_available employees_available) ln =
  if decide (ln ∈ lines_available)
  then emp_id <$> filter (λ emp, ln ∈ qualifiedLines emp) employees_available
  else [].
Proof.
  unfold get_list, line_to_emps.
  rewrite (py_dict_tabulate
             (λ ln, emp_id <$> filter (λ emp, ln ∈ qualifiedLines emp) employees_available)).
  by case_decide.
Qed.

Lemma elem_of_line_to_emps lines_available employees_available ln e :
  e ∈ get_list (line_to_emps lines_available employees_available) ln ↔
  qualified lines_available employees_available ln e.
Proof.
  rewrite line_to_emps_get. unfold qualified. case_decide as Hln.
  - rewrite list_elem_of_fmap. split.
    + intros (emp & -> & [? ?]%list_elem_of_filter). eauto.
    + intros (_ & emp & ? & <- & ?). exists emp. split; [done|].
      by apply list_elem_of_filter.
  - split; [by intros ?%elem_of_nil|by intros [? _]].
Qed.

Lemma line_to_emps_ids lines_available employees_available ln e :
  e ∈ get_list (line_to_emps lines_available employees_available) ln →
  e ∈ (list_to_set (emp_id <$> employees_available) : gset string).
Proof.
  intros (_ & emp & ? & <- & _)%elem_of_line_to_emps.
  apply elem_of_list_to_set, list_elem_of_fmap. eauto.
Qed.

Lemma size_ids_lt_fuel employees_available :
  size (list_to_set (emp_id <$> employees_available) : gset string)
  < matcher_fuel employees_available.
Proof.
  unfold matcher_fuel. apply Nat.lt_succ_r.
  induction employees_available as [|emp emps IH].
  { by rewrite fmap_nil, list_to_set_nil, size_empty. }
  rewrite fmap_cons, list_to_set_cons, length_cons.
  etrans; [apply Nat.eq_le_incl, size_union_alt|]. rewrite size_singleton.
  assert (size (list_to_set (emp_id <$> emps) ∖ {[emp_id emp]} : gset string)
          ≤ size (list_to_set (emp_id <$> emps) : gset string)).
  { apply subseteq_size. set_solver. }
  lia.
Qed.

(** The loop of the matcher never runs out of fuel. *)
Lemma matcher_returns lines_available employees_available ln m :
  is_Some (try_augment (line_to_emps lines_available employees_available)
                       (matcher_fuel employees_available) ln ∅ m).
Proof.
  apply (try_augment_total _ (list_to_set (emp_id <$> employees_available))).
  - intros ??. apply line_to_emps_ids.
  - pose proof (size_ids_lt_fuel employees_available).
    assert (size (list_to_set (emp_id <$> employees_available) ∖ ∅ : gset string)
            ≤ size (list_to_set (emp_id <$> employees_available) : gset string)).
    { apply subseteq_size. set_solver. }
    lia.
Qed.

Lemma matcher_inv_final lines_available employees_available :
  NoDup lines_available →
  matcher_inv (line_to_emps lines_available employees_available) lines_available
              (match_emp_to_line lines_available employees_available).
Proof.
  intros Hnd. unfold match_emp_to_line.
  apply (matcher_inv_foldl _ (list_to_set (emp_id <$> employees_available))
           _ lines_available [] ∅).
  - intros ??. apply line_to_emps_ids.
  - apply size_ids_lt_fuel.
  - done.
  - apply matcher_inv_empty.
Qed.

(** The size of the dict the matcher ends with is the maximum matching
    size of the graph (shared by the theorems on the matcher and on the
    enumerator). *)
Lemma matcher_size_is_maximum lines_available employees_available :
  NoDup lines_available →
  is_max_matching_size lines_available employees_available
    (size (match_emp_to_line lines_available employees_available)).
Proof.
  intros Hnd. pose proof (matcher_inv_final _ employees_available Hnd) as Hinv.
  split.
  - destruct (matcher_inv_lower _ _ _ Hinv) as (H1 & H2 & H3 & H4).
    eexists. split; [|exact H3]. split; [done|]. split; [done|].
    intros ln e [? ?]%H4. by apply elem_of_line_to_emps.
  - intros pairs (H1 & H2 & H3). eapply matcher_inv_upper; [exact Hinv|done..|].
    intros ln e Hin. pose proof (H3 _ _ Hin) as Hq. split; [by destruct Hq|].
    by apply elem_of_line_to_emps.
Qed.

Lemma max_matching_size_unique lines_available employees_available M1 M2 :
  is_max_matching_size lines_available employees_available M1 →
  is_max_matching_size lines_available employees_available M2 →
  M1 = M2.
Proof.
  intros [(p1 & Hp1 & <-) Hmax1] [(p2 & Hp2 & <-) Hmax2].
  apply Nat.le_antisymm; auto.
Qed.

(** ** Order on [(line, employee)] tuples *)

Lemma pair_lt_asym a b : pair_lt a b = true → pair_lt b a = false.
Proof.
  destruct a as [a1 a2], b as [b1 b2]. unfold pair_lt. simpl.
  repeat case_decide; subst; try done; apply ltb_asym.
Qed.

Lemma pair_lt_antisym a b : pair_lt a b = false → pair_lt b a = false → a = b.
Proof.
  destruct a as [a1 a2], b as [b1 b2]. unfold pair_lt. simpl.
  repeat case_decide; subst; try done; intros Hab Hba.
  - f_equal. by apply ltb_antisym.
  - exfalso. eauto using ltb_antisym.
Qed.

Lemma pair_lt_negtrans a b c :
  pair_lt a b = false → pair_lt b c = false → pair_lt a c = false.
Proof.
  destruct a as [a1 a2], b as [b1 b2], c as [c1 c2]. unfold pair_lt. simpl.
  repeat case_decide; subst; try done; intros Hab Hbc; eauto using ltb_negtrans.
  exfalso. eauto using ltb_antisym.
Qed.

Lemma py_sorted_pairs_sorted l : StronglySorted (not_after pair_lt) (py_sorted pair_lt l).
Proof.
  apply (py_sorted_sorted pair_lt (λ _, True)).
  - intros a b _ _. apply pair_lt_asym.
  - intros a b c _ _ _. apply pair_lt_negtrans.
  - by apply Forall_forall.
Qed.

Lemma sorted_pairs_unique l1 l2 :
  StronglySorted (not_after pair_lt) l1 → StronglySorted (not_after pair_lt) l2 →
  l1 ≡ₚ l2 → l1 = l2.
Proof.
  apply StronglySorted_unique. intros a b Hab Hba. by apply pair_lt_antisym.
Qed.

(** [tuple(sorted(...))] is a normal form of a set of pairs. *)
Lemma py_sorted_pairs_perm l1 l2 :
  l1 ≡ₚ l2 → py_sorted pair_lt l1 = py_sorted pair_lt l2.
Proof.
  intros H. apply sorted_pairs_unique; [apply py_sorted_pairs_sorted..|].
  by rewrite !py_sorted_perm.
Qed.

(** ** The enumerator *)

Section backtrack_facts.
Variable g : gmap string (list string).
Variables tot M : Z.

Abbreviation backtrack := (backtrack g tot M).
Abbreviation prune := (prune tot M).
Abbreviation try_candidate := (try_candidate g tot M).
Abbreviation completes := (completes g M).

Lemma backtrack_cons line rest st :
  backtrack (line :: rest) st =
  if prune (Z.of_nat (length (line :: rest))) st then st
  else foldl (try_candidate line rest) (backtrack rest st) (get_list g line).
Proof. done. Qed.

Lemma backtrack_nil st :
  backtrack [] st =
  if prune (Z.of_nat (length (@nil string))) st then st
  else if bool_decide (Z.of_nat (length (cur_pairs st)) = M) then bt_record st else st.
Proof. done. Qed.

Lemma same_frame_refl st : same_frame st st.
Proof. by repeat split. Qed.

Lemma same_frame_trans st1 st2 st3 :
  same_frame st1 st2 → same_frame st2 st3 → same_frame st1 st3.
Proof.
  intros (H1 & H2 & H3) (H4 & H5 & H6). repeat split; [congruence..|set_solver].
Qed.

Lemma foldl_same_frame (f : bt_state → string → bt_state) emps st :
  (∀ st emp, same_frame st (f st emp)) → same_frame st (foldl f st emps).
Proof.
  intros Hf. revert st. induction emps as [|emp emps IH]; intros st; simpl.
  - apply same_frame_refl.
  - eapply same_frame_trans; [apply Hf|apply IH].
Qed.

Lemma backtrack_same_frame rest st : same_frame st (backtrack rest st).
Proof.
  revert st. induction rest as [|line rest IH]; intros st.
  - rewrite backtrack_nil. repeat case_match; try apply same_frame_refl.
    repeat split; simpl. set_solver.
  - rewrite backtrack_cons. case_match; [apply same_frame_refl|].
    eapply same_frame_trans; [apply IH|]. apply foldl_same_frame.
    intros st' emp. unfold try_candidate. case_decide as Hin; [apply same_frame_refl|].
    destruct (IH (bt_push line emp st')) as (H1 & H2 & H3).
    repeat split; simpl.
    + rewrite H1. simpl. apply set_eq. set_solver.
    + rewrite H2. simpl. apply removelast_last.
    + done.
Qed.

Lemma try_candidate_same_frame line rest st emp :
  same_frame st (try_candidate line rest st emp).
Proof.
  unfold try_candidate. case_decide as Hin; [apply same_frame_refl|].
  destruct (backtrack_same_frame rest (bt_push line emp st)) as (H1 & H2 & H3).
  repeat split; simpl.
  - rewrite H1. simpl. apply set_eq. set_solver.
  - rewrite H2. simpl. apply removelast_last.
  - done.
Qed.

Lemma foldl_candidates_keeps line rest emps st r :
  r ∈ results_set st → r ∈ results_set (foldl (try_candidate line rest) st emps).
Proof.
  destruct (foldl_same_frame (try_candidate line rest) emps st) as (_ & _ & Hres);
    [apply try_candidate_same_frame|]. apply Hres.
Qed.

Lemma backtrack_sound rest st r :
  r ∈ results_set (backtrack rest st) →
  r ∈ results_set st ∨
  ∃ ext, completes rest st ext ∧ r = py_sorted pair_lt (cur_pairs st ++ ext).
Proof.
  revert st. induction rest as [|line rest IH]; intros st.
  - rewrite backtrack_nil. repeat case_match; auto.
    simpl. intros [->%elem_of_singleton|?]%elem_of_union; [|by auto].
    right. exists []. unfold completes. rewrite app_nil_r. split; [|done].
    repeat split; simpl; [constructor|constructor|set_solver|set_solver|].
    by eapply bool_decide_eq_true_1.
  - rewrite backtrack_cons. case_match; [by auto|].
    assert (∀ emps st',
      same_frame st st' → (∀ e, e ∈ emps → e ∈ get_list g line) →
      r ∈ results_set (foldl (try_candidate line rest) st' emps) →
      r ∈ results_set st' ∨
      ∃ ext, completes (line :: rest) st ext ∧ r = py_sorted pair_lt (cur_pairs st ++ ext))
      as Hloop.
    { induction emps as [|emp emps IHemps]; intros st' Hfr Hsub; simpl; [by auto|].
      intros Hr. apply IHemps in Hr as [Hr|Hr]; [|by auto| |set_solver].
      2:{ eapply same_frame_trans; [exact Hfr|apply try_candidate_same_frame]. }
      unfold try_candidate in Hr. case_decide as Hin; [by auto|]. simpl in Hr.
      apply IH in Hr as [Hr|(ext & (H1 & H2 & H3 & H4 & H5) & ->)]; [by auto|].
      right. destruct Hfr as (Hu & Hc & _). simpl in *. rewrite Hu, Hc in *.
      exists ((line, emp) :: ext). rewrite <-app_assoc in *. simpl in *.
      split; [|done]. repeat split; simpl.
      - by apply sublist_skip.
      - constructor; [|done]. intros ?%H3. set_solver.
      - intros e [->|?%H3]%elem_of_cons; set_solver.
      - intros ln e [[= -> ->]|?]%elem_of_cons; [set_solver|by auto].
      - done. }
    intros Hr. apply Hloop in Hr as [Hr|Hr]; [|by auto|apply backtrack_same_frame|done].
    apply IH in Hr as [Hr|(ext & (H1 & H2 & H3 & H4 & H5) & ->)]; [by auto|].
    right. exists ext. split; [|done]. repeat split; try done. by apply sublist_cons.
Qed.

(** The bound of [prune] is necessary: a state from which [M] pairs can
    still be reached, with one more pair for each of some distinct
    remaining lines and distinct unused employees, is not pruned. *)
Lemma prune_spares (ids : gset string) (remaining : list string) st
    (ext : list (string * string)) :
  tot = Z.of_nat (size ids) →
  used_emps st ⊆ ids →
  (ext.*1) ⊆+ remaining →
  NoDup ext.*2 →
  (∀ e, e ∈ ext.*2 → (e ∉ used_emps st) ∧ e ∈ ids) →
  Z.of_nat (length (cur_pairs st ++ ext)) = M →
  prune (Z.of_nat (length remaining)) st = false.
Proof.
  intros -> Hused Hlines Hnd Hemps Hlen.
  apply bool_decide_eq_false. rewrite length_app in Hlen.
  apply submseteq_length in Hlines. rewrite length_fmap in Hlines.
  assert (length ext + size (used_emps st) ≤ size ids); [|lia].
  rewrite <-(length_fmap snd), <-(size_list_to_set (C := gset string)) by done.
  rewrite <-size_union.
  - apply subseteq_size. intros e [He%elem_of_list_to_set|He]%elem_of_union.
    + by apply Hemps.
    + by apply Hused.
  - intros e He%elem_of_list_to_set Hin. by apply Hemps in He as [].
Qed.

Lemma backtrack_complete (ids : gset string) rest st ext :
  tot = Z.of_nat (size ids) →
  used_emps st ⊆ ids →
  (∀ e, e ∈ ext.*2 → e ∈ ids) →
  completes rest st ext →
  py_sorted pair_lt (cur_pairs st ++ ext) ∈ results_set (backtrack rest st).
Proof.
  intros Htot. revert st ext.
  induction rest as [|line rest IH]; intros st ext Hused Hids Hext.
  - pose proof Hext as (Hsub & Hnd & Hfree & Hedge & Hlen).
    rewrite backtrack_nil.
    rewrite (prune_spares ids [] st ext); [|done|done| |done| |done]; cycle 1.
    { by apply sublist_submseteq. }
    { intros e He. split; auto. }
    apply sublist_nil_r, fmap_nil_inv in Hsub as ->. rewrite app_nil_r in *.
    rewrite bool_decide_eq_true_2 by done. simpl. set_solver.
  - pose proof Hext as (Hsub & Hnd & Hfree & Hedge & Hlen).
    rewrite backtrack_cons.
    rewrite (prune_spares ids (line :: rest) st ext); [|done|done| |done| |done]; cycle 1.
    { by apply sublist_submseteq. }
    { intros e He. split; auto. }
    apply sublist_cons_r in Hsub as [Hsub|(lns & Heq & Hsub)].
    + apply foldl_candidates_keeps, IH; [done..|]. by repeat split.
    + destruct ext as [|[ln emp] ext]; [done|]. simpl in *.
      injection Heq as -> <-.
      apply NoDup_cons in Hnd as [Hemp Hnd].
      assert (emp ∈ get_list g line) as Hcand by (apply Hedge; set_solver).
      assert (emp ∉ used_emps st) as Hunused by (apply Hfree; set_solver).
      pose proof (backtrack_same_frame rest st) as Hfr. revert Hfr Hcand.
      generalize (backtrack rest st) as st'. generalize (get_list g line) as emps.
      induction emps as [|c emps IHemps]; intros st' Hfr Hcand; [set_solver|].
      simpl.
      destruct (decide (py_sorted pair_lt (cur_pairs st ++ (line, emp) :: ext)
                        ∈ results_set (try_candidate line rest st' c)))
        as [Hin|Hnotin].
      { by apply foldl_candidates_keeps. }
      apply IHemps.
      { eapply same_frame_trans; [exact Hfr|apply try_candidate_same_frame]. }
      apply elem_of_cons in Hcand as [<-|?]; [|done].
      exfalso. apply Hnotin. unfold try_candidate. destruct Hfr as (Hu & Hc & _).
      rewrite decide_False by by rewrite Hu.
      simpl. rewrite cons_middle, app_assoc, <-Hc.
      apply (IH (bt_push line emp st') ext); simpl.
      * rewrite Hu. apply union_subseteq. split; [|done].
        apply singleton_subseteq_l, Hids. set_solver.
      * intros e He. apply Hids. set_solver.
      * repeat split; simpl; [done|done| | |].
        -- intros e He. rewrite Hu. intros [->%elem_of_singleton|Hin]%elem_of_union; [done|].
           eapply Hfree; [|exact Hin]. set_solver.
        -- intros ln' e He. apply Hedge. set_solver.
        -- rewrite Hc, <-app_assoc. done.
Qed.

(** Pairs with distinct lines can be put in the order in which the
    enumerator visits the lines. *)
Lemma arrange_pairs (rest : list string) (pairs : list (string * string)) :
  NoDup pairs.*1 → (∀ ln, ln ∈ pairs.*1 → ln ∈ rest) →
  ∃ ext, ext ≡ₚ pairs ∧ ext.*1 `sublist_of` rest.
Proof.
  revert pairs. induction rest as [|ln rest IH]; intros pairs Hnd Hsub.
  - exists []. destruct pairs as [|p pairs]; [done|]. exfalso.
    eapply not_elem_of_nil, (Hsub p.1). simpl. apply elem_of_cons. by left.
  - destruct (decide (ln ∈ pairs.*1)) as [Hin|Hnotin].
    + apply list_elem_of_fmap in Hin as ([ln' e] & -> & Hin).
      apply elem_of_Permutation in Hin as [pairs' Hperm].
      assert (pairs.*1 ≡ₚ ln' :: pairs'.*1) as Hp1 by by rewrite Hperm.
      rewrite Hp1 in Hnd. apply NoDup_cons in Hnd as [Hfresh Hnd].
      destruct (IH pairs' Hnd) as (ext & Hext & Hsl).
      { intros x Hx. assert (x ∈ ln' :: rest) as [->|?]%elem_of_cons; [|done..].
        apply Hsub. rewrite Hp1. set_solver. }
      exists ((ln', e) :: ext). split; [by rewrite Hext, Hperm|].
      simpl. by apply sublist_skip.
    + destruct (IH pairs Hnd) as (ext & Hext & Hsl).
      { intros x Hx. pose proof (Hsub x Hx) as [->|?]%elem_of_cons; done. }
      exists ext. split; [done|]. by apply sublist_cons.
Qed.
End backtrack_facts.

(** ** [employee_assignment] as a whole *)

Section assignment_facts.
Variable lines_available : list string.
Variable employees_available : list employee.

Abbreviation graph := (line_to_emps lines_available employees_available).
Abbreviation matched := (match_emp_to_line lines_available employees_available).
Abbreviation enumeration := (enumeration lines_available employees_available).

Lemma ordered_lines_perm : ordered_lines graph lines_available ≡ₚ lines_available.
Proof. apply py_sorted_perm. Qed.

Lemma employee_assignment_run_cases :
  employee_assignment_run lines_available employees_available =
  if decide (size matched = 0) then NoAssignment else Enumerated enumeration.
Proof. done. Qed.

Lemma employee_assignment_perm :
  size matched ≠ 0 →
  employee_assignment lines_available employees_available
  ≡ₚ elements (results_set enumeration).
Proof.
  intros Hm. unfold employee_assignment. rewrite employee_assignment_run_cases.
  rewrite decide_False by done. apply py_sorted_perm.
Qed.

Lemma elem_of_employee_assignment r :
  r ∈ employee_assignment lines_available employees_available ↔
  size matched ≠ 0 ∧ r ∈ results_set enumeration.
Proof.
  destruct (decide (size matched = 0)) as [Hm|Hm].
  - unfold employee_assignment. rewrite employee_assignment_run_cases.
    rewrite decide_True by done. split; [by intros ?%elem_of_nil|by intros []].
  - rewrite employee_assignment_perm by done. rewrite elem_of_elements. tauto.
Qed.

(** Every combination returned is a sorted tuple of [size matched] pairs along
    edges of the graph, with distinct employees, and with distinct lines
    when the lines of the request are distinct. *)
Lemma employee_assignment_sound r :
  r ∈ employee_assignment lines_available employees_available →
  StronglySorted (not_after pair_lt) r ∧
  length r = size matched ∧
  NoDup r.*2 ∧
  (∀ ln e, (ln, e) ∈ r → qualified lines_available employees_available ln e) ∧
  (NoDup lines_available → NoDup r.*1).
Proof.
  intros [Hm Hr]%elem_of_employee_assignment.
  apply backtrack_sound in Hr as [Hr|(ext & (H1 & H2 & _ & H4 & H5) & ->)];
    [by apply not_elem_of_empty in Hr|].
  simpl in *. split; [apply py_sorted_pairs_sorted|].
  split; [rewrite py_sorted_length; lia|].
  split; [by rewrite py_sorted_perm|].
  split.
  - intros ln e Hin. rewrite py_sorted_perm in Hin.
    by apply elem_of_line_to_emps, H4.
  - intros Hnd. rewrite py_sorted_perm.
    eapply sublist_NoDup; [|exact H1]. by rewrite ordered_lines_perm.
Qed.

(** Every matching with [size matched] pairs is returned, as its sorted tuple. *)
Lemma employee_assignment_complete pairs :
  is_matching lines_available employees_available pairs →
  length pairs = size matched → size matched ≠ 0 →
  py_sorted pair_lt pairs ∈ employee_assignment lines_available employees_available.
Proof.
  intros (Hnd1 & Hnd2 & Hq) Hlen Hm. apply elem_of_employee_assignment. split; [done|].
  destruct (arrange_pairs (ordered_lines graph lines_available) pairs Hnd1)
    as (ext & Hperm & Hsub).
  { intros ln ([ln' e] & -> & Hin)%list_elem_of_fmap.
    rewrite ordered_lines_perm. by destruct (Hq _ _ Hin). }
  rewrite <-(py_sorted_pairs_perm ext pairs Hperm).
  apply (backtrack_complete graph _ _ (list_to_set (emp_id <$> employees_available))
           _ (BtState ∅ ∅ []) ext); simpl.
  - done.
  - set_solver.
  - intros e ([ln e'] & -> & Hin)%list_elem_of_fmap. rewrite Hperm in Hin.
    eapply line_to_emps_ids, elem_of_line_to_emps, Hq, Hin.
  - repeat split; simpl.
    + done.
    + by rewrite Hperm.
    + set_solver.
    + intros ln e Hin. rewrite Hperm in Hin. by apply elem_of_line_to_emps, Hq.
    + rewrite Hperm. lia.
Qed.

Lemma employee_assignment_NoDup :
  NoDup (employee_assignment lines_available employees_available).
Proof.
  destruct (decide (size matched = 0)) as [Hm|Hm].
  - unfold employee_assignment. rewrite employee_assignment_run_cases.
    rewrite decide_True by done. constructor.
  - rewrite employee_assignment_perm by done. apply NoDup_elements.
Qed.
End assignment_facts.

(** Without an edge in the graph, every search fails at once. *)
Lemma no_edge_no_match lines_available employees_available :
  (∀ ln e, ¬ qualified lines_available employees_available ln e) →
  match_emp_to_line lines_available employees_available = ∅.
Proof.
  intros Hno. unfold match_emp_to_line.
  assert (∀ ln, get_list (line_to_emps lines_available employees_available) ln = [])
    as Hempty.
  { intros ln. destruct (get_list _ ln) as [|e l] eqn:E; [done|]. exfalso.
    apply (Hno ln e), elem_of_line_to_emps. rewrite E. set_solver. }
  generalize lines_available at 2 as lines.
  induction lines as [|ln lines IH]; simpl; [done|].
  unfold augment_from at 2, matcher_fuel. simpl. by rewrite Hempty.
Qed.

Lemma max_matching_size_0 lines_available employees_available :
  is_max_matching_size lines_available employees_available 0 →
  ∀ ln e, ¬ qualified lines_available employees_available ln e.
Proof.
  intros [_ Hmax] ln e Hq. specialize (Hmax [(ln, e)]). simpl in Hmax.
  assert (1 ≤ 0); [|lia]. apply Hmax.
  split; [|split]; simpl; [apply NoDup_singleton..|].
  intros ln' e' [= -> ->]%list_elem_of_singleton. done.
Qed.

(** ** The scorer *)

Lemma allowed_lines_unknown materials po :
  po_material_number po ∉ material_number <$> materials →
  allowed_lines materials po = ∅.
Proof.
  intros Hno. unfold allowed_lines, mat_to_lines.
  rewrite (proj2 (py_dict_lookup_None _ _)); [done|].
  by rewrite <-list_fmap_compose.
Qed.

Lemma score_foldl lines materials pos (acc : Z) :
  foldl (λ total_qty po,
           if decide ((list_to_set lines : gset string) ∩ allowed_lines materials po ≠ ∅)
           then (total_qty + quantity po)%Z else total_qty) acc pos
  = (acc + foldr (λ po s, counted lines materials po + s) 0 pos)%Z.
Proof.
  revert acc. induction pos as [|po pos IH]; intros acc; simpl; [lia|].
  rewrite IH. unfold counted. case_decide; lia.
Qed.

Lemma score_assignment_quantity_sum lines pos materials :
  score_assignment_quantity lines pos materials
  = foldr (λ po s, counted lines materials po + s)%Z 0%Z pos.
Proof. unfold score_assignment_quantity. by rewrite score_foldl. Qed.

Lemma counted_mono lines lines' materials po :
  (list_to_set lines : gset string) ⊆ list_to_set lines' →
  (0 ≤ quantity po)%Z →
  (counted lines materials po ≤ counted lines' materials po)%Z.
Proof.
  intros Hsub Hq. unfold counted. repeat case_decide; try lia.
  exfalso. set_solver.
Qed.

Lemma score_mono lines lines' pos materials :
  (list_to_set lines : gset string) ⊆ list_to_set lines' →
  Forall (λ po, 0 ≤ quantity po)%Z pos →
  (score_assignment_quantity lines pos materials
   ≤ score_assignment_quantity lines' pos materials)%Z.
Proof.
  intros Hsub Hq. rewrite !score_assignment_quantity_sum.
  induction Hq as [|po pos Hpo Hq IH]; simpl; [done|].
  pose proof (counted_mono lines lines' materials po Hsub Hpo). lia.
Qed.

Lemma score_skips_unknown lines pre po post materials :
  po_material_number po ∉ material_number <$> materials →
  score_assignment_quantity lines (pre ++ po :: post) materials
  = score_assignment_quantity lines (pre ++ post) materials.
Proof.
  intros Hno. rewrite !score_assignment_quantity_sum, !foldr_app. simpl.
  unfold counted at 2. rewrite allowed_lines_unknown by done.
  rewrite decide_False; [done|]. set_solver.
Qed.

(** ** Comparison of floats *)

Ltac compare_cases :=
  repeat match goal with
    | |- context [Pos.compare_cont Eq ?a ?b] =>
      change (Pos.compare_cont Eq a b) with (Pos.compare a b)
    | |- context [Z.compare ?a ?b] => destruct (Z.compare_spec a b)
    | |- context [Pos.compare ?a ?b] => destruct (Pos.compare_spec a b)
    end;
  simpl; try done; try lia.

Lemma SFcompare_is_Some a b :
  is_nan a = false → is_nan b = false → is_Some (SFcompare a b).
Proof. destruct a as [[]|[]| |[]], b as [[]|[]| |[]]; simpl; by eauto. Qed.

Lemma SFcompare_antisym a b : SFcompare b a = CompOpp <$> SFcompare a b.
Proof.
  destruct a as [[]|[]| |[] m1 e1], b as [[]|[]| |[] m2 e2]; simpl; try done;
    f_equal; compare_cases.
Qed.

Lemma SFcompare_opp a b : SFcompare (SFopp a) (SFopp b) = SFcompare b a.
Proof.
  destruct a as [[]|[]| |[] m1 e1], b as [[]|[]| |[] m2 e2]; simpl; try done;
    f_equal; compare_cases.
Qed.

Lemma SFcompare_Eq_trans a b c x :
  SFcompare a b = Some Eq → SFcompare b c = Some x → SFcompare a c = Some x.
Proof.
  destruct a as [[]|[]| |[] m1 e1], b as [[]|[]| |[] m2 e2], c as [[]|[]| |[] m3 e3];
    simpl; try done; compare_cases; intros; simplify_eq; try done; try lia.
Qed.

Lemma SFcompare_Lt_trans a b c :
  SFcompare a b = Some Lt → SFcompare b c = Some Lt → SFcompare a c = Some Lt.
Proof.
  destruct a as [[]|[]| |[] m1 e1], b as [[]|[]| |[] m2 e2], c as [[]|[]| |[] m3 e3];
    simpl; try done; compare_cases.
Qed.

(** Rounding a non-negative mantissa never yields a NaN. *)
Lemma iter_pos_preserves {A : Type} (P : A → Prop) (f : A → A) n x :
  (∀ y, P y → P (f y)) → P x → P (iter_pos f n x).
Proof.
  intros Hf. revert x. induction n as [n IH|n IH|]; intros x Hx; simpl; auto.
Qed.

Lemma shr_1_nonneg mrs : (0 ≤ shr_m mrs)%Z → (0 ≤ shr_m (shr_1 mrs))%Z.
Proof. destruct mrs as [[|[]|[]] r s]; simpl; lia. Qed.

Lemma shr_nonneg mrs e n : (0 ≤ shr_m mrs)%Z → (0 ≤ shr_m (shr mrs e n).1)%Z.
Proof.
  intros H. destruct n as [|p|p]; simpl; [done| |done].
  apply (iter_pos_preserves (λ mrs, 0 ≤ shr_m mrs)%Z); [apply shr_1_nonneg|done].
Qed.

Lemma shr_fexp_nonneg prec emax m e l :
  (0 ≤ m)%Z → (0 ≤ shr_m (shr_fexp prec emax m e l).1)%Z.
Proof.
  intros H. unfold shr_fexp. apply shr_nonneg. by destruct l as [|[]].
Qed.

Lemma round_nearest_even_nonneg m l : (0 ≤ m)%Z → (0 ≤ round_nearest_even m l)%Z.
Proof. intros H. destruct l as [|[]]; simpl; try done; [case_match|]; lia. Qed.

Lemma binary_round_aux_not_nan prec emax sx mx ex lx :
  (0 ≤ mx)%Z → is_nan (binary_round_aux prec emax sx mx ex lx) = false.
Proof.
  intros H. unfold binary_round_aux.
  pose proof (shr_fexp_nonneg prec emax mx ex lx H) as H1.
  destruct (shr_fexp prec emax mx ex lx) as [mrs' e']. simpl in H1.
  pose proof (shr_fexp_nonneg prec emax _ e' loc_Exact
                (round_nearest_even_nonneg _ (loc_of_shr_record mrs') H1)) as H2.
  destruct (shr_fexp prec emax _ e' loc_Exact) as [mrs'' e'']. simpl in H2.
  destruct (shr_m mrs'') as [|m|m]; [done| |lia]. by case_match.
Qed.

Lemma SFdiv_one_not_nan x :
  SFltb (S754_zero false) x = true → is_nan (SFdiv 53 1024 float_one x) = false.
Proof.
  destruct x as [[]|[]| |[] m e]; try done. intros _. unfold float_one, SFdiv.
  destruct (SFdiv_core_binary _ _ _ _ _ _) as [[mz ez] lz] eqn:E.
  apply binary_round_aux_not_nan.
  unfold SFdiv_core_binary in E. cbv zeta in E.
  match type of E with
  | (let '(q, r) := Z.div_eucl ?a ?b in _) = _ =>
    pose proof (Z_div_mod a b eq_refl) as Hdiv;
    assert (0 ≤ a)%Z as Ha; [|destruct (Z.div_eucl a b) as [q r]]
  end.
  - match goal with |- (0 ≤ match ?s with _ => _ end)%Z => destruct s end;
      [lia|apply Z.shiftl_nonneg; lia|lia].
  - injection E as <- _ _. nia.
Qed.

Lemma SFcompare_Gt a b : SFcompare a b = Some Gt ↔ SFcompare b a = Some Lt.
Proof.
  rewrite (SFcompare_antisym a b). destruct (SFcompare a b) as [[]|]; simpl; naive_solver.
Qed.

Lemma SFcompare_Eq_sym a b : SFcompare a b = Some Eq → SFcompare b a = Some Eq.
Proof. intros H. by rewrite (SFcompare_antisym a b), H. Qed.

(** ** Order of the jobs *)

Lemma job_key_lt_asym d1 t1 o1 d2 t2 o2 :
  is_nan d1 = false → is_nan d2 = false →
  job_key_lt (d1, t1, o1) (d2, t2, o2) = true →
  job_key_lt (d2, t2, o2) (d1, t1, o1) = false.
Proof.
  intros H1 H2. unfold job_key_lt, SFeqb, SFltb. rewrite (SFcompare_antisym d1 d2).
  destruct (SFcompare_is_Some d1 d2 H1 H2) as [[] ->]; simpl; try done.
  all: destruct (Z.eqb_spec t1 t2), (Z.eqb_spec t2 t1); simpl; try lia;
    try apply ltb_asym.
  all: intros ?%Z.ltb_lt; apply Z.ltb_ge; lia.
Qed.

Lemma job_key_lt_negtrans d1 t1 o1 d2 t2 o2 d3 t3 o3 :
  is_nan d1 = false → is_nan d2 = false → is_nan d3 = false →
  job_key_lt (d1, t1, o1) (d2, t2, o2) = false →
  job_key_lt (d2, t2, o2) (d3, t3, o3) = false →
  job_key_lt (d1, t1, o1) (d3, t3, o3) = false.
Proof.
  intros H1 H2 H3. unfold job_key_lt, SFeqb, SFltb.
  destruct (SFcompare_is_Some d1 d2 H1 H2) as [c12 E12].
  destruct (SFcompare_is_Some d2 d3 H2 H3) as [c23 E23].
  rewrite E12, E23. destruct c12, c23; simpl; try done.
  - rewrite (SFcompare_Eq_trans _ _ _ _ E12 E23). simpl.
    destruct (Z.eqb_spec t1 t2), (Z.eqb_spec t2 t3), (Z.eqb_spec t1 t3); simpl;
      rewrite ?Z.ltb_ge; try lia; subst; try done; try apply ltb_negtrans.
    all: intros; exfalso; lia.
  - by rewrite (SFcompare_Eq_trans _ _ _ _ E12 E23).
  - apply SFcompare_Gt in E12. apply SFcompare_Eq_sym in E23.
    pose proof (SFcompare_Eq_trans _ _ _ _ E23 E12) as E. apply SFcompare_Gt in E.
    by rewrite E.
  - apply SFcompare_Gt in E12, E23.
    pose proof (SFcompare_Lt_trans _ _ _ E23 E12) as E. apply SFcompare_Gt in E.
    by rewrite E.
Qed.

Lemma job_lt_before a b : job_lt a b = true ↔ job_before a b.
Proof.
  unfold job_lt, job_before, job_key, job_key_lt, SFeqb, SFltb.
  rewrite SFcompare_opp, (SFcompare_antisym (density b) (density a)).
  destruct (SFcompare (density b) (density a)) as [[]|]; simpl;
    destruct (Z.eqb_spec (duration_s a) (duration_s b)); simpl;
    rewrite ?Z.ltb_lt; naive_solver lia.
Qed.

Lemma sorted_jobs_sorted jobs :
  Forall (λ j, is_nan (density j) = false) jobs →
  StronglySorted (not_after job_lt) (py_sorted job_lt jobs).
Proof.
  apply py_sorted_sorted.
  - intros a b Ha Hb. unfold job_lt, job_key.
    apply job_key_lt_asym; [by destruct (density a)|by destruct (density b)].
  - intros a b c Ha Hb Hc. unfold job_lt, job_key.
    apply job_key_lt_negtrans;
      [by destruct (density a)|by destruct (density b)|by destruct (density c)].
Qed.

(** ** Choice of the line *)

Section line_choice.
Variable shift_len : Z.
Variable used : gmap string Z.

Abbreviation key := (line_key shift_len used).
Abbreviation choose_line := (choose_line shift_len used).

Lemma line_key_gt_irrefl a : line_key_gt a a = false.
Proof.
  destruct a as [[r u] l]. simpl. rewrite !Z.eqb_refl. simpl. apply ltb_irrefl.
Qed.

Lemma line_key_gt_trans a b c :
  line_key_gt a b = true → line_key_gt b c = true → line_key_gt a c = true.
Proof.
  destruct a as [[r1 u1] l1], b as [[r2 u2] l2], c as [[r3 u3] l3]. simpl.
  destruct (Z.eqb_spec r1 r2), (Z.eqb_spec r2 r3), (Z.eqb_spec r1 r3); simpl;
    rewrite ?Z.ltb_lt; try lia;
    destruct (Z.eqb_spec u1 u2), (Z.eqb_spec u2 u3), (Z.eqb_spec u1 u3); simpl;
    rewrite ?Z.ltb_lt; try lia.
  intros H1 H2. eapply ltb_trans; eauto.
Qed.

Lemma line_key_gt_negtrans a b c :
  line_key_gt a b = false → line_key_gt b c = false → line_key_gt a c = false.
Proof.
  destruct a as [[r1 u1] l1], b as [[r2 u2] l2], c as [[r3 u3] l3]. simpl.
  destruct (Z.eqb_spec r1 r2), (Z.eqb_spec r2 r3), (Z.eqb_spec r1 r3); simpl;
    rewrite ?Z.ltb_ge; try lia;
    destruct (Z.eqb_spec u1 u2), (Z.eqb_spec u2 u3), (Z.eqb_spec u1 u3); simpl;
    rewrite ?Z.ltb_ge; try lia.
  intros H1 H2. eapply ltb_negtrans; eauto.
Qed.

(** [max] returns an item whose key no other item exceeds. *)
Lemma max_line_spec first rest :
  max_line shift_len used first rest ∈ first :: rest ∧
  ∀ c, c ∈ first :: rest →
       line_key_gt (key c) (key (max_line shift_len used first rest)) = false.
Proof.
  unfold max_line. revert first.
  induction rest as [|ln rest IH]; intros first; cbn [foldl].
  { split; [set_solver|]. intros c ->%list_elem_of_singleton. apply line_key_gt_irrefl. }
  destruct (line_key_gt (key ln) (key first)) eqn:E.
  - destruct (IH ln) as [Hin Hmax]. split; [set_solver|].
    intros c [->|Hc]%elem_of_cons; [|by apply Hmax].
    destruct (line_key_gt (key first) _) eqn:E'; [|done].
    pose proof (line_key_gt_trans _ _ _ E E') as Ht.
    rewrite Hmax in Ht; [done|set_solver].
  - destruct (IH first) as [Hin Hmax]. split; [set_solver|].
    intros c [->|[->|Hc]%elem_of_cons]%elem_of_cons.
    + apply Hmax. set_solver.
    + apply (line_key_gt_negtrans _ (key first)); [done|]. apply Hmax. set_solver.
    + apply Hmax. set_solver.
Qed.

Lemma choose_line_None j : choose_line j = None ↔ candidates shift_len used j = [].
Proof. unfold choose_line. by destruct (candidates _ _ _). Qed.

Lemma elem_of_candidates j ln :
  ln ∈ candidates shift_len used j ↔
  ln ∈ eligible_lines j ∧ (used !!! ln + duration_s j ≤ shift_len)%Z.
Proof. unfold candidates. rewrite list_elem_of_filter. tauto. Qed.

(** The chosen line has the greatest remaining capacity among the lines
    the job fits on; among those with the same remaining capacity, which
    have the same used time, it has the greatest identifier. *)
Lemma choose_line_Some j best :
  choose_line j = Some best →
  best ∈ candidates shift_len used j ∧
  ∀ c, c ∈ candidates shift_len used j → c ≠ best →
    (shift_len - used !!! c < shift_len - used !!! best)%Z ∨
    ((shift_len - used !!! c = shift_len - used !!! best)%Z ∧
     used !!! c = used !!! best ∧
     String.ltb c best = true).
Proof.
  unfold choose_line. destruct (candidates _ _ _) as [|first rest]; [done|].
  intros [= <-]. destruct (max_line_spec first rest) as [Hin Hmax].
  split; [done|]. intros c Hc Hne. specialize (Hmax c Hc).
  unfold line_key in Hmax. simpl in Hmax.
  destruct (Z.eqb_spec (shift_len - used !!! c)
              (shift_len - used !!! max_line shift_len used first rest)) as [Heq|Hneq];
    simpl in Hmax.
  - right. split; [done|]. split; [lia|].
    destruct (Z.eqb_spec (- used !!! c)
                (- used !!! max_line shift_len used first rest)); simpl in Hmax; [|lia].
    destruct (String.ltb c _) eqn:E; [done|]. exfalso. apply Hne.
    by apply ltb_antisym.
  - left. apply Z.ltb_ge in Hmax. lia.
Qed.
End line_choice.

(** ** The run of the scheduler *)

Section scheduler_facts.
Variable available_lines : list string.
Variable materials : list material.
Variables shift_start shift_len : Z.

Abbreviation eligible := (eligible_lines_for_order available_lines materials).
Abbreviation enrich_order' := (enrich_order available_lines materials).
Abbreviation enrich' := (enrich available_lines materials).
Abbreviation place := (place_job shift_start shift_len).
Abbreviation placements := (placements shift_len).

Lemma elem_of_eligible po ln :
  ln ∈ eligible po ↔ ln ∈ available_lines ∧ ln ∈ allowed_lines materials po.
Proof.
  unfold eligible_lines_for_order.
  rewrite py_sorted_elem_of, elem_of_elements, elem_of_intersection, elem_of_list_to_set.
  done.
Qed.

Lemma enrich_order_Some po j :
  enrich_order' po = Some (Some j) →
  job_po j = po ∧ eligible_lines j = eligible po ∧ eligible po ≠ [] ∧
  is_nan (density j) = false.
Proof.
  unfold enrich_order. intros H.
  destruct (order_duration po) as [[tpu dur]|]; [|done]. simpl in H.
  destruct (eligible po) as [|ln lns] eqn:E; [done|].
  injection H as <-. simpl. repeat split; [done|].
  destruct (SFltb (S754_zero false) tpu) eqn:Hpos; [|done].
  by apply SFdiv_one_not_nan.
Qed.

Lemma enrich_order_is_Some po : is_Some (enrich_order' po) ↔ is_Some (order_duration po).
Proof.
  unfold enrich_order. destruct (order_duration po) as [[tpu dur]|]; simpl.
  - destruct (eligible po); split; eauto.
  - split; by intros [? ?].
Qed.

Lemma enrich_order_ineligible po :
  eligible po = [] → is_Some (order_duration po) → enrich_order' po = Some None.
Proof.
  unfold enrich_order. intros E [[tpu dur] H]. by rewrite E, H.
Qed.

Lemma enrich_app pos1 pos2 :
  enrich' (pos1 ++ pos2) =
  js1 ← enrich' pos1; js2 ← enrich' pos2; Some (js1 ++ js2).
Proof.
  induction pos1 as [|po pos1 IH]; simpl.
  - by destruct (enrich' pos2).
  - destruct (enrich_order' po) as [j|]; [|done]. simpl. rewrite IH.
    destruct (enrich' pos1) as [js1|]; [|done]. simpl.
    destruct (enrich' pos2) as [js2|]; [|done]. simpl. by rewrite app_assoc.
Qed.

Lemma enrich_skip pre po post :
  enrich_order' po = Some None → enrich' (pre ++ po :: post) = enrich' (pre ++ post).
Proof.
  intros H. rewrite !enrich_app. simpl. rewrite H. simpl.
  destruct (enrich' pre) as [js1|]; [|done]. simpl.
  by destruct (enrich' post).
Qed.

Lemma enrich_spec pos js :
  enrich' pos = Some js →
  (job_po <$> js) `sublist_of` pos ∧
  Forall (λ j, enrich_order' (job_po j) = Some (Some j)) js.
Proof.
  revert js. induction pos as [|po pos IH]; intros js; simpl.
  { intros [= <-]. split; constructor. }
  destruct (enrich_order' po) as [oj|] eqn:E; [|done]. simpl.
  destruct (enrich' pos) as [js'|]; [|done]. simpl. intros [= <-].
  destruct (IH js' eq_refl) as [Hsub Hall]. destruct oj as [j|]; simpl.
  - destruct (enrich_order_Some _ _ E) as (Hpo & _). split.
    + rewrite Hpo. by apply sublist_skip.
    + constructor; [by rewrite Hpo|done].
  - split; [by apply sublist_cons|done].
Qed.

(** One iteration of the placing loop, by the chosen line. *)
Lemma place_job_choose line_time_used per_line_sequence j :
  place (line_time_used, per_line_sequence) j =
  match choose_line shift_len line_time_used j with
  | None => (line_time_used, per_line_sequence)
  | Some best_line =>
    (<[best_line := (line_time_used !!! best_line + duration_s j)%Z]> line_time_used,
     <[best_line := per_line_sequence !!! best_line
                    ++ [Slot (order_number (job_po j))
                             (shift_start + line_time_used !!! best_line)]]>
       per_line_sequence)
  end.
Proof. unfold place_job, choose_line. by destruct (candidates _ _ _). Qed.

Lemma placements_sublist used jobs : (placements used jobs).*1 `sublist_of` jobs.
Proof.
  revert used. induction jobs as [|j jobs IH]; intros used; simpl; [constructor|].
  destruct (choose_line shift_len used j); simpl.
  - apply sublist_skip, IH.
  - apply sublist_cons, IH.
Qed.

Lemma placements_eligible used jobs j ln :
  (j, ln) ∈ placements used jobs → ln ∈ eligible_lines j.
Proof.
  revert used. induction jobs as [|j' jobs IH]; intros used; simpl; [by intros ?%elem_of_nil|].
  destruct (choose_line shift_len used j') as [best|] eqn:E; [|by apply IH].
  intros [[= -> ->]|?]%elem_of_cons; [|by eapply IH].
  apply choose_line_Some in E as [Hin _]. by apply elem_of_candidates in Hin as [].
Qed.

Lemma jobs_on_cons ln j best pl :
  jobs_on ln ((j, best) :: pl) = if decide (best = ln) then j :: jobs_on ln pl else jobs_on ln pl.
Proof. unfold jobs_on. rewrite filter_cons. simpl. by case_decide. Qed.

(** The state after the loop, by the placements made. *)
Lemma foldl_place_job jobs used seqs :
  let st' := foldl place (used, seqs) jobs in
  let pl := placements used jobs in
  (∀ ln, st'.1 !!! ln = (used !!! ln + total_duration (jobs_on ln pl))%Z) ∧
  (∀ ln, st'.2 !!! ln
         = seqs !!! ln ++ contiguous (shift_start + used !!! ln) (jobs_on ln pl)) ∧
  dom st'.2 = dom seqs ∪ list_to_set pl.*2.
Proof.
  revert used seqs.
  induction jobs as [|j jobs IH]; intros used seqs; cbn zeta; cbn [foldl placements].
  { repeat split; intros; unfold jobs_on; simpl.
    - lia.
    - by rewrite app_nil_r.
    - set_solver. }
  rewrite place_job_choose.
  destruct (choose_line shift_len used j) as [best|] eqn:E; [|apply IH].
  destruct (IH (<[best := (used !!! best + duration_s j)%Z]> used)
               (<[best := seqs !!! best
                          ++ [Slot (order_number (job_po j)) (shift_start + used !!! best)]]>
                  seqs)) as (H1 & H2 & H3).
  repeat split.
  - intros ln. rewrite H1, jobs_on_cons. case_decide as Hln.
    + subst. rewrite lookup_total_insert_eq. simpl. lia.
    + by rewrite lookup_total_insert_ne.
  - intros ln. rewrite H2, jobs_on_cons. case_decide as Hln.
    + subst. rewrite !lookup_total_insert_eq, <-app_assoc. simpl.
      by rewrite Z.add_assoc.
    + by rewrite !lookup_total_insert_ne.
  - rewrite H3, dom_insert_L. simpl. set_solver.
Qed.

(** No line is ever filled beyond the shift length. *)
Lemma placements_fit used jobs :
  (∀ ln, used !!! ln ≤ shift_len)%Z →
  ∀ ln, (used !!! ln + total_duration (jobs_on ln (placements used jobs)) ≤ shift_len)%Z.
Proof.
  revert used. induction jobs as [|j jobs IH]; intros used Hused ln; simpl.
  { unfold jobs_on. simpl. specialize (Hused ln). lia. }
  destruct (choose_line shift_len used j) as [best|] eqn:E; [|by apply IH].
  apply choose_line_Some in E as [[_ Hfit]%elem_of_candidates _].
  assert (∀ ln, (<[best := (used !!! best + duration_s j)%Z]> used !!! ln ≤ shift_len)%Z)
    as Hused'.
  { intros ln'. destruct (decide (best = ln')) as [->|].
    - by rewrite lookup_total_insert_eq.
    - by rewrite lookup_total_insert_ne. }
  specialize (IH _ Hused' ln). rewrite jobs_on_cons. case_decide as Hln.
  - subst. rewrite lookup_total_insert_eq in IH. simpl. lia.
  - by rewrite lookup_total_insert_ne in IH.
Qed.

Lemma initial_used_lookup ln :
  (initial_line_state available_lines).1 !! ln
  = if decide (ln ∈ available_lines) then Some 0%Z else None.
Proof. apply (py_dict_tabulate (λ _, 0%Z)). Qed.

Lemma initial_sequence_lookup ln :
  (initial_line_state available_lines).2 !! ln
  = if decide (ln ∈ available_lines) then Some [] else None.
Proof. apply (py_dict_tabulate (λ _, [])). Qed.

(** The keys the loop reads in [line_time_used] and in [per_line_sequence]
    are keys of these dicts: no lookup fails. *)
Lemma eligible_lines_are_keys po j ln :
  enrich_order' po = Some (Some j) → ln ∈ eligible_lines j →
  ln ∈ dom (initial_line_state available_lines).1 ∧
  ln ∈ dom (initial_line_state available_lines).2.
Proof.
  intros (<- & -> & _)%enrich_order_Some [Hln _]%elem_of_eligible.
  rewrite !elem_of_dom, initial_used_lookup, initial_sequence_lookup.
  rewrite !decide_True by done. eauto.
Qed.

(** The whole run, by the placements it makes. Shared by the theorems on
    the scheduler. *)
Lemma schedule_run pos sched :
  schedule_orders_greedy_nosplit available_lines materials shift_start shift_len pos
  = Some sched →
  ∃ pl : list (job * string),
    (job_po <$> pl.*1) ⊆+ pos ∧
    (∀ j ln, (j, ln) ∈ pl →
             enrich_order' (job_po j) = Some (Some j) ∧ ln ∈ eligible (job_po j)) ∧
    (∀ ln, sched !! ln
           = if decide (ln ∈ available_lines)
             then Some (contiguous shift_start (jobs_on ln pl)) else None) ∧
    ((0 ≤ shift_len)%Z → ∀ ln, (total_duration (jobs_on ln pl) ≤ shift_len)%Z) ∧
    ((shift_len ≤ 0)%Z → pl = []).
Proof.
  unfold schedule_orders_greedy_nosplit. case_decide as Hearly.
  { intros [= <-]. exists []. split; [apply submseteq_nil_l|].
    split; [by intros ?? ?%elem_of_nil|]. split; [|split; [|done]].
    - intros ln. apply (py_dict_tabulate (λ _, [])).
    - intros ? ln. done. }
  destruct (enrich' pos) as [enriched|] eqn:Henrich; [|done]. simpl.
  intros [= <-]. apply enrich_spec in Henrich as [Hsub Hall].
  set (sorted := py_sorted job_lt enriched).
  set (used0 := (initial_line_state available_lines).1).
  set (seqs0 := (initial_line_state available_lines).2).
  exists (placements used0 sorted).
  pose proof (foldl_place_job sorted used0 seqs0) as (_ & Hseq & Hdom).
  assert (∀ j ln, (j, ln) ∈ placements used0 sorted →
                  enrich_order' (job_po j) = Some (Some j) ∧ ln ∈ eligible (job_po j))
    as Hpl.
  { intros j ln Hin.
    assert (j ∈ enriched) as Hj.
    { rewrite <-(py_sorted_elem_of job_lt). eapply elem_of_sublist; [|apply placements_sublist].
      apply list_elem_of_fmap. by exists (j, ln). }
    rewrite Forall_forall in Hall. specialize (Hall j Hj). split; [done|].
    apply enrich_order_Some in Hall as (_ & <- & _). by eapply placements_eligible. }
  assert (∀ ln, ln ∉ available_lines → jobs_on ln (placements used0 sorted) = [])
    as Hoff.
  { intros ln Hln. unfold jobs_on.
    destruct (filter _ _) as [|[j ln'] l] eqn:E; [done|]. exfalso.
    assert ((j, ln') ∈ filter (λ p : job * string, p.2 = ln) (placements used0 sorted))
      as [Heq Hin]%list_elem_of_filter by (rewrite E; apply list_elem_of_here).
    simpl in Heq. subst. by apply Hpl in Hin as [_ [? _]%elem_of_eligible]. }
  split; [|split; [done|split; [|split; [|intros; exfalso; lia]]]].
  - trans (job_po <$> sorted).
    + apply fmap_submseteq, sublist_submseteq, placements_sublist.
    + unfold sorted. rewrite py_sorted_perm. by apply sublist_submseteq.
  - intros ln. replace (initial_line_state available_lines)
      with (used0, seqs0) by by destruct (initial_line_state _).
    case_decide as Hln.
    + assert (seqs0 !! ln = Some []) as Hs0.
      { unfold seqs0. by rewrite initial_sequence_lookup, decide_True. }
      assert (used0 !! ln = Some 0%Z) as Hu0.
      { unfold used0. by rewrite initial_used_lookup, decide_True. }
      rewrite lookup_lookup_total_dom.
      2:{ rewrite Hdom. apply elem_of_union_l, elem_of_dom. eauto. }
      rewrite Hseq, (lookup_total_correct _ _ _ Hs0), (lookup_total_correct _ _ _ Hu0).
      by rewrite Z.add_0_r.
    + apply not_elem_of_dom. rewrite Hdom. intros [Hin|Hin]%elem_of_union.
      * apply elem_of_dom in Hin as [? Hin]. unfold seqs0 in Hin.
        by rewrite initial_sequence_lookup, decide_False in Hin.
      * apply elem_of_list_to_set, list_elem_of_fmap in Hin as ([j ln'] & -> & Hin).
        by apply Hpl in Hin as [_ [? _]%elem_of_eligible].
  - intros _ ln. destruct (decide (ln ∈ available_lines)) as [Hln|Hln].
    + assert (used0 !! ln = Some 0%Z) as Hu0.
      { unfold used0. by rewrite initial_used_lookup, decide_True. }
      pose proof (placements_fit used0 sorted) as Hfit.
      rewrite <-(Z.add_0_l (total_duration _)), <-(lookup_total_correct _ _ _ Hu0).
      apply Hfit. intros ln'. rewrite lookup_total_alt, initial_used_lookup.
      case_decide; simpl; lia.
    + rewrite Hoff by done. simpl. lia.
Qed.
End scheduler_facts.

(** * The claims *)

(** Decides a closed, decidable statement by evaluation. *)
Ltac by_evaluation := refine (bool_decide_unpack _ _); vm_compute; exact I.

(** ** Matcher *)

(** C3. For lines without repetition and any employee list, every search of
    the matcher returns, and the number of employees matched in the end is
    the maximum matching size of the qualification graph: some matching has
    that many pairs and no matching has more. *)
Theorem matcher_computes_maximum lines_available employees_available :
  NoDup lines_available →
  (∀ ln m, is_Some (try_augment (line_to_emps lines_available employees_available)
                                (matcher_fuel employees_available) ln ∅ m)) ∧
  is_max_matching_size lines_available employees_available
    (size (match_emp_to_line lines_available employees_available)).
Proof.
  intros Hnd. split.
  - intros ln m. apply matcher_returns.
  - by apply matcher_size_is_maximum.
Qed.

Lemma matcher_computes_maximum_witness :
  NoDup ["L1"; "L2"] ∧
  is_max_matching_size ["L1"; "L2"] [emp_of "e1" ["L1"]; emp_of "e2" ["L1"; "L2"]] 2.
Proof.
  assert (NoDup ["L1"; "L2"]) as Hnd by by_evaluation.
  split; [exact Hnd|].
  exact (proj2 (matcher_computes_maximum
                  ["L1"; "L2"] [emp_of "e1" ["L1"]; emp_of "e2" ["L1"; "L2"]] Hnd)).
Defined.

(** A repeated line is matched twice: the hypothesis of distinct lines is
    needed. *)
Example repeated_line_is_matched_twice :
  size (match_emp_to_line ["L1"; "L1"] [emp_of "e1" ["L1"]; emp_of "e2" ["L1"]]) = 2.
Proof. vm_compute. reflexivity. Qed.

(** ** Enumerator *)

(** C4. For lines without repetition, every assignment the enumerator
    returns is a matching (no line and no employee twice, every pair an
    edge of the graph), and its number of pairs is the maximum matching
    size of the graph. Distinct employee identifiers are not needed. *)
Theorem enumerated_assignments_are_maximum_matchings
    lines_available employees_available (combo : list (string * string)) :
  NoDup lines_available →
  combo ∈ employee_assignment lines_available employees_available →
  is_matching lines_available employees_available combo ∧
  is_max_matching_size lines_available employees_available (length combo).
Proof.
  intros Hnd Hin.
  apply employee_assignment_sound in Hin as (_ & Hlen & Hnd2 & Hq & Hnd1).
  split; [by split; [apply Hnd1|split]|].
  rewrite Hlen. by apply matcher_size_is_maximum.
Qed.

Lemma enumerated_assignments_are_maximum_matchings_witness :
  NoDup ["L1"; "L2"] ∧
  [("L1", "e1"); ("L2", "e2")]
    ∈ employee_assignment ["L1"; "L2"] [emp_of "e1" ["L1"]; emp_of "e2" ["L1"; "L2"]] ∧
  is_matching ["L1"; "L2"] [emp_of "e1" ["L1"]; emp_of "e2" ["L1"; "L2"]]
    [("L1", "e1"); ("L2", "e2")].
Proof.
  assert (NoDup ["L1"; "L2"]) as Hnd by by_evaluation.
  assert ([("L1", "e1"); ("L2", "e2")]
            ∈ employee_assignment ["L1"; "L2"] [emp_of "e1" ["L1"]; emp_of "e2" ["L1"; "L2"]])
    as Hin by by_evaluation.
  split; [exact Hnd|]. split; [exact Hin|].
  exact (proj1 (enumerated_assignments_are_maximum_matchings _ _ _ Hnd Hin)).
Defined.

(** C1. For lines without repetition and a graph whose maximum matching size
    is [M > 0], the list the enumerator returns is the set of all matchings
    of [M] pairs: it has no element twice, each element is a matching of [M]
    pairs, no two elements are the same set of pairs, and every matching of
    [M] pairs is in it (as its sorted tuple). And the test of [prune] fails
    in every state that can still reach [M] pairs by giving distinct
    remaining lines distinct unused employees. *)
Theorem enumerator_returns_exactly_the_maximum_matchings
    lines_available employees_available (M : nat) :
  NoDup lines_available →
  is_max_matching_size lines_available employees_available M →
  0 < M →
  let results := employee_assignment lines_available employees_available in
  NoDup results ∧
  (∀ r, r ∈ results →
        is_matching lines_available employees_available r ∧ length r = M) ∧
  (∀ r1 r2, r1 ∈ results → r2 ∈ results → r1 ≡ₚ r2 → r1 = r2) ∧
  (∀ pairs, is_matching lines_available employees_available pairs → length pairs = M →
            ∃ r, r ∈ results ∧ r ≡ₚ pairs) ∧
  (∀ (remaining : list string) (st : bt_state) (ext : list (string * string)),
      used_emps st ⊆ list_to_set (emp_id <$> employees_available) →
      NoDup ext.*1 → (∀ ln, ln ∈ ext.*1 → ln ∈ remaining) →
      NoDup ext.*2 →
      (∀ e, e ∈ ext.*2 → (e ∉ used_emps st) ∧ e ∈ emp_id <$> employees_available) →
      length (cur_pairs st) + length ext = M →
      prune (total_emps employees_available) (Z.of_nat M)
            (Z.of_nat (length remaining)) st = false).
Proof.
  intros Hnd HM Hpos results.
  assert (size (match_emp_to_line lines_available employees_available) = M) as Hsize.
  { eapply max_matching_size_unique; [|exact HM]. by apply matcher_size_is_maximum. }
  split; [apply employee_assignment_NoDup|]. split; [|split; [|split]].
  - intros r Hr. apply employee_assignment_sound in Hr as (_ & Hlen & Hnd2 & Hq & Hnd1).
    split; [by split; [apply Hnd1|split]|]. by rewrite Hlen.
  - intros r1 r2 [Hs1 _]%employee_assignment_sound [Hs2 _]%employee_assignment_sound.
    by apply sorted_pairs_unique.
  - intros pairs Hm Hlen. exists (py_sorted pair_lt pairs). split; [|apply py_sorted_perm].
    apply employee_assignment_complete; [done|lia|lia].
  - intros remaining st ext Hused Hnd1 Hsub Hnd2 Hemps Hlen.
    apply (prune_spares _ _ (list_to_set (emp_id <$> employees_available)) remaining st ext);
      [done|done|by apply NoDup_submseteq|done| |].
    + intros e He. destruct (Hemps e He) as [? ?]. split; [done|].
      by apply elem_of_list_to_set.
    + rewrite length_app. lia.
Qed.

Lemma enumerator_returns_exactly_the_maximum_matchings_witness :
  NoDup ["L2"; "L1"] ∧
  is_max_matching_size ["L2"; "L1"]
    [emp_of "e2" ["L1"; "L2"]; emp_of "e1" ["L1"; "L2"]] 2 ∧
  0 < 2 ∧
  ∀ r, r ∈ employee_assignment ["L2"; "L1"]
             [emp_of "e2" ["L1"; "L2"]; emp_of "e1" ["L1"; "L2"]] →
       length r = 2.
Proof.
  assert (NoDup ["L2"; "L1"]) as Hnd by by_evaluation.
  pose proof (matcher_size_is_maximum
                ["L2"; "L1"] [emp_of "e2" ["L1"; "L2"]; emp_of "e1" ["L1"; "L2"]] Hnd) as HM.
  change (size _) with 2 in HM.
  split; [exact Hnd|]. split; [exact HM|]. split; [lia|].
  intros r Hr.
  exact (proj2 (proj1 (proj2 (enumerator_returns_exactly_the_maximum_matchings
                                _ _ 2 Hnd HM (Nat.lt_0_succ 1))) r Hr)).
Defined.

(** C9. The graph is built from the ["qualifiedLines"] entry of the employee
    records alone: records that agree on the id and on that entry give the
    same graph, a record without that entry can be removed without changing
    the graph, and every pair of every returned assignment comes from a
    record that lists the line under that very key. A record that keeps its
    lines under ["qualified_lines"] is never assigned. *)
Theorem graph_reads_only_qualifiedLines lines_available employees_available :
  (∀ employees',
      Forall2 (λ a b, emp_id a = emp_id b ∧
                      emp_lists a !! "qualifiedLines" = emp_lists b !! "qualifiedLines")
              employees_available employees' →
      line_to_emps lines_available employees_available
      = line_to_emps lines_available employees') ∧
  (∀ pre emp post,
      employees_available = pre ++ emp :: post →
      emp_lists emp !! "qualifiedLines" = None →
      line_to_emps lines_available employees_available
      = line_to_emps lines_available (pre ++ post)) ∧
  (∀ combo ln e,
      combo ∈ employee_assignment lines_available employees_available →
      (ln, e) ∈ combo →
      ∃ emp ql, emp ∈ employees_available ∧ emp_id emp = e ∧
                emp_lists emp !! "qualifiedLines" = Some ql ∧ ln ∈ ql) ∧
  employee_assignment ["L1"] [Employee "e1" {["qualified_lines" := ["L1"]]}] = [].
Proof.
  split; [|split; [|split]].
  - intros employees' Hall. unfold line_to_emps. f_equal.
    apply list_fmap_ext. intros _ ln _. f_equal.
    induction Hall as [|a b l l' [Hid Hq] Hall IH]; [done|].
    rewrite !filter_cons.
    assert (qualifiedLines a = qualifiedLines b) as Hql
      by (unfold qualifiedLines, get_list; by rewrite Hq).
    rewrite Hql. case_decide; rewrite ?fmap_cons, ?Hid, IH; done.
  - intros pre emp post -> Hno. unfold line_to_emps. f_equal.
    apply list_fmap_ext. intros _ ln _. f_equal.
    rewrite !filter_app, filter_cons, decide_False; [done|].
    unfold qualifiedLines, get_list. rewrite Hno. simpl. by intros ?%elem_of_nil.
  - intros combo ln e Hin Hpair.
    apply employee_assignment_sound in Hin as (_ & _ & _ & Hq & _).
    destruct (Hq _ _ Hpair) as (_ & emp & Hemp & Hid & Hln).
    unfold qualifiedLines, get_list in Hln.
    destruct (emp_lists emp !! "qualifiedLines") as [ql|] eqn:E; [|by apply elem_of_nil in Hln].
    by exists emp, ql.
  - vm_compute. reflexivity.
Qed.

Lemma graph_reads_only_qualifiedLines_witness :
  line_to_emps ["L1"] [emp_of "e1" ["L1"]; Employee "e2" {["qualified_lines" := ["L1"]]}]
  = line_to_emps ["L1"] [emp_of "e1" ["L1"]].
Proof.
  exact (proj1 (proj2 (graph_reads_only_qualifiedLines
                         ["L1"] [emp_of "e1" ["L1"];
                                 Employee "e2" {["qualified_lines" := ["L1"]]}]))
           [emp_of "e1" ["L1"]] (Employee "e2" {["qualified_lines" := ["L1"]]}) []
           eq_refl eq_refl).
Defined.

(** ** No assignment *)

Lemma is_matching_nil lines_available employees_available :
  is_matching lines_available employees_available [].
Proof.
  split; [apply NoDup_nil_2|]. split; [apply NoDup_nil_2|]. by intros ?? ?%elem_of_nil.
Qed.

Lemma no_lines_or_no_employees lines_available employees_available :
  lines_available = [] ∨ employees_available = [] →
  is_max_matching_size lines_available employees_available 0.
Proof.
  intros Hempty. split.
  - exists []. split; [apply is_matching_nil|done].
  - intros [|[ln e] pairs] (_ & _ & Hq); [done|]. exfalso.
    destruct (Hq ln e) as (Hln & emp & Hemp & _); [apply list_elem_of_here|].
    destruct Hempty as [-> | ->]; by eapply elem_of_nil.
Qed.

(** C6. When the maximum matching size is 0, and so whenever there is no
    line or no employee, [employee_assignment] returns after the matcher,
    without running [backtrack], and the response is the empty one; no
    exception is raised. *)
Theorem no_assignment_gives_empty_response (req : request) :
  (is_max_matching_size (lines_available req) (employees_available req) 0 →
   employee_assignment_run (lines_available req) (employees_available req) = NoAssignment ∧
   main req = Some (empty_response req)) ∧
  (lines_available req = [] ∨ employees_available req = [] →
   employee_assignment_run (lines_available req) (employees_available req) = NoAssignment ∧
   main req = Some (empty_response req)).
Proof.
  assert (is_max_matching_size (lines_available req) (employees_available req) 0 →
          employee_assignment_run (lines_available req) (employees_available req)
          = NoAssignment ∧ main req = Some (empty_response req)) as Hmain.
  { intros HM.
    assert (employee_assignment_run (lines_available req) (employees_available req)
            = NoAssignment) as Hrun.
    { rewrite employee_assignment_run_cases.
      rewrite (no_edge_no_match _ _ (max_matching_size_0 _ _ HM)).
      by rewrite map_size_empty. }
    split; [done|]. unfold main, employee_assignment. by rewrite Hrun. }
  split; [done|]. intros Hempty. by apply Hmain, no_lines_or_no_employees.
Qed.

Lemma no_assignment_gives_empty_response_witness :
  main (Request ["L1"; "L2"] [emp_of "e1" ["L3"]; emp_of "e2" []] [] [] 21600 28800)
  = Some {| resp_shift_start := 21600; resp_lines := [];
            resp_assignment := ∅; resp_sequence := ∅ |}.
Proof.
  refine (proj2 (proj1 (no_assignment_gives_empty_response
           (Request ["L1"; "L2"] [emp_of "e1" ["L3"]; emp_of "e2" []] [] [] 21600 28800)) _)).
  split.
  - exists []. split; [apply is_matching_nil|reflexivity].
  - intros pairs (_ & _ & Hq). destruct pairs as [|[ln e] pairs]; [done|]. exfalso.
    destruct (Hq ln e) as (Hln & emp & Hemp & _ & Hqual); [apply list_elem_of_here|].
    simpl in *.
    apply elem_of_cons in Hemp as [->|Hemp].
    + vm_compute in Hqual. apply list_elem_of_singleton in Hqual. subst.
      revert Hln. by_evaluation.
    + apply list_elem_of_singleton in Hemp. subst. vm_compute in Hqual.
      by apply elem_of_nil in Hqual.
Defined.

(** ** Scorer *)

(** C8. With quantities that are not negative, as the data model has them,
    the score of a line set with one more line is at least the score of the
    line set, whichever way the line is added to the list. *)
Theorem score_is_monotone_in_the_lines (lines_for_combo : list string) (ln : string)
    (production_orders : list production_order) (materials : list material) :
  Forall (λ po, 0 ≤ quantity po)%Z production_orders →
  (score_assignment_quantity lines_for_combo production_orders materials
   ≤ score_assignment_quantity (ln :: lines_for_combo) production_orders materials)%Z ∧
  (score_assignment_quantity lines_for_combo production_orders materials
   ≤ score_assignment_quantity (lines_for_combo ++ [ln]) production_orders materials)%Z.
Proof.
  intros Hq. split; apply score_mono; try done.
  - rewrite list_to_set_cons. set_solver.
  - rewrite list_to_set_app_L. set_solver.
Qed.

Lemma score_is_monotone_in_the_lines_witness :
  Forall (λ po, 0 ≤ quantity po)%Z
         [ProductionOrder "PO-1" "M1" 5 (NInt 60); ProductionOrder "PO-2" "M2" 7 (NInt 30)] ∧
  (score_assignment_quantity ["L1"]
     [ProductionOrder "PO-1" "M1" 5 (NInt 60); ProductionOrder "PO-2" "M2" 7 (NInt 30)]
     [Material "M1" (Some ["L1"]); Material "M2" (Some ["L2"])]
   ≤ score_assignment_quantity ["L2"; "L1"]
       [ProductionOrder "PO-1" "M1" 5 (NInt 60); ProductionOrder "PO-2" "M2" 7 (NInt 30)]
       [Material "M1" (Some ["L1"]); Material "M2" (Some ["L2"])])%Z.
Proof.
  assert (Forall (λ po, 0 ≤ quantity po)%Z
            [ProductionOrder "PO-1" "M1" 5 (NInt 60); ProductionOrder "PO-2" "M2" 7 (NInt 30)])
    as Hq by (repeat constructor; simpl; lia).
  split; [exact Hq|].
  exact (proj1 (score_is_monotone_in_the_lines ["L1"] "L2" _
                  [Material "M1" (Some ["L1"]); Material "M2" (Some ["L2"])] Hq)).
Defined.

(** A negative quantity, which the data model excludes, would lower the
    score of the larger line set. *)
Example negative_quantity_lowers_the_score :
  score_assignment_quantity [] [ProductionOrder "PO-1" "M1" (-5) (NInt 1)]
    [Material "M1" (Some ["L1"])] = 0%Z ∧
  score_assignment_quantity ["L1"] [ProductionOrder "PO-1" "M1" (-5) (NInt 1)]
    [Material "M1" (Some ["L1"])] = (-5)%Z.
Proof. split; vm_compute; reflexivity. Qed.

(** ** Scheduler *)

(** C2, as the code has it. When some eligible line has room for the job,
    the job is put on a line that has room for it, whose remaining capacity
    no other such line exceeds; the lines that tie with it on the remaining
    capacity have the same used time, and among them it is the one with the
    greatest identifier. *)
Theorem chosen_line_has_most_room_then_greatest_name
    (shift_start shift_len : Z) (line_time_used : gmap string Z)
    (per_line_sequence : gmap string (list slot)) (j : job) :
  candidates shift_len line_time_used j ≠ [] →
  ∃ best_line,
    best_line ∈ eligible_lines j ∧
    (line_time_used !!! best_line + duration_s j ≤ shift_len)%Z ∧
    (∀ c, c ∈ eligible_lines j → (line_time_used !!! c + duration_s j ≤ shift_len)%Z →
          c ≠ best_line →
          (shift_len - line_time_used !!! c < shift_len - line_time_used !!! best_line)%Z ∨
          ((shift_len - line_time_used !!! c = shift_len - line_time_used !!! best_line)%Z ∧
           line_time_used !!! c = line_time_used !!! best_line ∧
           String.ltb c best_line = true)) ∧
    place_job shift_start shift_len (line_time_used, per_line_sequence) j
    = (<[best_line := (line_time_used !!! best_line + duration_s j)%Z]> line_time_used,
       <[best_line := per_line_sequence !!! best_line
                      ++ [Slot (order_number (job_po j))
                               (shift_start + line_time_used !!! best_line)]]>
         per_line_sequence).
Proof.
  intros Hcand. rewrite place_job_choose.
  destruct (choose_line shift_len line_time_used j) as [best|] eqn:E.
  - exists best. apply choose_line_Some in E as [[Hel Hfit]%elem_of_candidates Hmax].
    split; [done|]. split; [done|]. split; [|done].
    intros c Hc Hcfit Hne. apply Hmax; [|done]. by apply elem_of_candidates.
  - by apply choose_line_None in E.
Qed.

Lemma chosen_line_has_most_room_then_greatest_name_witness :
  candidates 3600 (initial_line_state ["L1"; "L2"]).1 job_for_two_lines ≠ [] ∧
  ∃ best_line,
    place_job 0 3600 (initial_line_state ["L1"; "L2"]) job_for_two_lines
    = (<[best_line := ((initial_line_state ["L1"; "L2"]).1 !!! best_line + 100)%Z]>
         (initial_line_state ["L1"; "L2"]).1,
       <[best_line := (initial_line_state ["L1"; "L2"]).2 !!! best_line
                      ++ [Slot "PO-1" (0 + (initial_line_state ["L1"; "L2"]).1 !!! best_line)]]>
         (initial_line_state ["L1"; "L2"]).2).
Proof.
  assert (candidates 3600 (initial_line_state ["L1"; "L2"]).1 job_for_two_lines ≠ [])
    as Hcand by (vm_compute; discriminate).
  split; [exact Hcand|].
  destruct (chosen_line_has_most_room_then_greatest_name
              0 3600 (initial_line_state ["L1"; "L2"]).1
              (initial_line_state ["L1"; "L2"]).2 job_for_two_lines Hcand)
    as (best & _ & _ & _ & Hplace).
  exists best. exact Hplace.
Defined.

(** C2, as stated, fails: with two lines that both have the whole shift
    free, the order is put on ["L2"], although ["L1"] has room for it, the
    same remaining capacity, the same used time and the smaller
    identifier. *)
Lemma ascending_tie_break_counterexample :
  enrich_order ["L1"; "L2"] one_material_two_lines (ProductionOrder "PO-1" "M1" 100 (NInt 1))
  = Some (Some job_for_two_lines) ∧
  "L1" ∈ candidates 3600 (initial_line_state ["L1"; "L2"]).1 job_for_two_lines ∧
  (3600 - (initial_line_state ["L1"; "L2"]).1 !!! "L1"
   = 3600 - (initial_line_state ["L1"; "L2"]).1 !!! "L2")%Z ∧
  (initial_line_state ["L1"; "L2"]).1 !!! "L1"
  = (initial_line_state ["L1"; "L2"]).1 !!! "L2" ∧
  String.ltb "L1" "L2" = true ∧
  schedule_orders_greedy_nosplit ["L1"; "L2"] one_material_two_lines 0 3600
    one_order_two_lines
  = Some (py_dict [("L1", []); ("L2", [Slot "PO-1" 0])]).
Proof.
  split; [vm_compute; reflexivity|]. split; [by_evaluation|].
  repeat split; vm_compute; reflexivity.
Qed.

(** C5. In every schedule that is returned, the sequence of each given line
    is the jobs of a list [pl] of placements, one line for each placed job,
    put one after the other from the shift start; every placed job is the
    enrichment of its order and stands on one of the given lines that its
    material can run on; the placed orders are a sub-multiset of the orders
    given, so none is placed twice or on two lines; the durations on a line
    that has an order sum to at most the shift length, and so do those on
    any line when the shift length is not negative, as the data model has
    it. *)
Theorem schedule_is_eligible_unsplit_and_within_capacity
    (available_lines : list string) (production_orders : list production_order)
    (materials : list material) (shift_start shift_length_seconds : Z)
    (sched : gmap string (list slot)) :
  schedule_orders_greedy_nosplit available_lines materials shift_start
    shift_length_seconds production_orders = Some sched →
  ∃ pl : list (job * string),
    (∀ ln, sched !! ln
           = if decide (ln ∈ available_lines)
             then Some (contiguous shift_start (jobs_on ln pl)) else None) ∧
    (∀ j ln, (j, ln) ∈ pl →
             enrich_order available_lines materials (job_po j) = Some (Some j) ∧
             ln ∈ available_lines ∧ ln ∈ allowed_lines materials (job_po j)) ∧
    (job_po <$> pl.*1) ⊆+ production_orders ∧
    (∀ ln, jobs_on ln pl ≠ [] →
           (total_duration (jobs_on ln pl) ≤ shift_length_seconds)%Z) ∧
    ((0 ≤ shift_length_seconds)%Z →
     ∀ ln, (total_duration (jobs_on ln pl) ≤ shift_length_seconds)%Z).
Proof.
  intros (pl & Hsub & Hpl & Hseq & Hcap & Hneg)%schedule_run.
  exists pl. split; [done|]. split; [|split; [done|split; [|done]]].
  - intros j ln Hin. destruct (Hpl j ln Hin) as [He [? ?]%elem_of_eligible]. done.
  - intros ln Hne. destruct (decide (0 ≤ shift_length_seconds)%Z) as [Hpos|Hlt].
    + by apply Hcap.
    + rewrite Hneg in Hne by lia. done.
Qed.

Lemma schedule_is_eligible_unsplit_and_within_capacity_witness :
  schedule_orders_greedy_nosplit ["L1"; "L2"] one_material_two_lines 0 3600
    one_order_two_lines
  = Some (py_dict [("L1", []); ("L2", [Slot "PO-1" 0])]) ∧
  ∃ pl : list (job * string),
    (job_po <$> pl.*1) ⊆+ one_order_two_lines ∧
    ∀ ln, (total_duration (jobs_on ln pl) ≤ 3600)%Z.
Proof.
  assert (schedule_orders_greedy_nosplit ["L1"; "L2"] one_material_two_lines 0 3600
            one_order_two_lines
          = Some (py_dict [("L1", []); ("L2", [Slot "PO-1" 0])])) as Hrun
    by (vm_compute; reflexivity).
  split; [exact Hrun|].
  destruct (schedule_is_eligible_unsplit_and_within_capacity _ _ _ _ _ _ Hrun)
    as (pl & _ & _ & Hsub & _ & Hcap).
  exists pl. split; [exact Hsub|]. apply Hcap. lia.
Defined.

Lemma StronglySorted_weaken {A : Type} (R1 R2 : A → A → Prop) l :
  (∀ a b, R1 a b → R2 a b) → StronglySorted R1 l → StronglySorted R2 l.
Proof.
  intros HR. induction 1 as [|x l Hl IH Hx]; constructor; [done|].
  eapply Forall_impl; [exact Hx|]. auto.
Qed.

Lemma job_trichotomy a b :
  is_nan (density a) = false → is_nan (density b) = false →
  job_before a b ∨ job_before b a ∨
  (SFeqb (density a) (density b) = true ∧ duration_s a = duration_s b ∧
   order_number (job_po a) = order_number (job_po b)).
Proof.
  intros Ha Hb. unfold job_before, SFeqb, SFltb.
  rewrite (SFcompare_antisym (density a) (density b)).
  destruct (SFcompare_is_Some _ _ Ha Hb) as [[] ->]; simpl; [|naive_solver..].
  destruct (Z.lt_trichotomy (duration_s a) (duration_s b)) as [?|[Heq|?]];
    [naive_solver| |naive_solver].
  destruct (String.ltb (order_number (job_po a)) (order_number (job_po b))) eqn:E1;
    [naive_solver|].
  destruct (String.ltb (order_number (job_po b)) (order_number (job_po a))) eqn:E2;
    [naive_solver|].
  right. right. repeat split; [done|]. by apply ltb_antisym.
Qed.

(** C7. The scheduler places the enriched jobs in the order of a stable sort
    by density descending, then duration ascending, then order number
    ascending, which orders any two jobs that differ in one of the three; a
    placed job starts at the shift start plus the used time its line has
    before the placement, so the sequence of a line is its jobs one after
    the other from the shift start; and in scenario D the order of 1000 s
    starts at the shift start and the order of 2000 s starts 1000 s
    later. *)
Theorem jobs_are_placed_in_sorted_order_back_to_back
    (available_lines : list string) (production_orders : list production_order)
    (materials : list material) (shift_start shift_length_seconds : Z) :
  (∀ enriched,
      enrich available_lines materials production_orders = Some enriched →
      ¬ ((shift_length_seconds ≤ 0)%Z ∨ available_lines = []) →
      ∃ sorted,
        sorted ≡ₚ enriched ∧
        StronglySorted (λ a b, ¬ job_before b a) sorted ∧
        (∀ a b, a ∈ sorted → b ∈ sorted →
                job_before a b ∨ job_before b a ∨
                (SFeqb (density a) (density b) = true ∧ duration_s a = duration_s b ∧
                 order_number (job_po a) = order_number (job_po b))) ∧
        schedule_orders_greedy_nosplit available_lines materials shift_start
          shift_length_seconds production_orders
        = Some (foldl (place_job shift_start shift_length_seconds)
                      (initial_line_state available_lines) sorted).2) ∧
  (∀ line_time_used per_line_sequence j,
      place_job shift_start shift_length_seconds (line_time_used, per_line_sequence) j
      = (line_time_used, per_line_sequence) ∨
      ∃ best_line,
        place_job shift_start shift_length_seconds (line_time_used, per_line_sequence) j
        = (<[best_line := (line_time_used !!! best_line + duration_s j)%Z]> line_time_used,
           <[best_line := per_line_sequence !!! best_line
                          ++ [Slot (order_number (job_po j))
                                   (shift_start + line_time_used !!! best_line)]]>
             per_line_sequence)) ∧
  (∀ sched,
      schedule_orders_greedy_nosplit available_lines materials shift_start
        shift_length_seconds production_orders = Some sched →
      ∃ pl : list (job * string),
        (job_po <$> pl.*1) ⊆+ production_orders ∧
        ∀ ln, sched !! ln
              = if decide (ln ∈ available_lines)
                then Some (contiguous shift_start (jobs_on ln pl)) else None) ∧
  (∀ start : Z,
      schedule_orders_greedy_nosplit ["L1"] [Material "M1" (Some ["L1"])] start 3600
        [ProductionOrder "PO-B" "M1" 2000 (NInt 1); ProductionOrder "PO-A" "M1" 1000 (NInt 1)]
      = Some {["L1" := [Slot "PO-A" start; Slot "PO-B" (start + 1000)]]} ∧
      schedule_orders_greedy_nosplit ["L1"] [Material "M1" (Some ["L1"])] start 3600
        [ProductionOrder "PO-A" "M1" 1000 (NInt 1); ProductionOrder "PO-B" "M1" 2000 (NInt 1)]
      = Some {["L1" := [Slot "PO-A" start; Slot "PO-B" (start + 1000)]]}).
Proof.
  split; [|split; [|split]].
  - intros enriched Henrich Hrun. exists (py_sorted job_lt enriched).
    pose proof (enrich_spec _ _ _ _ Henrich) as [_ Hall].
    assert (Forall (λ j, is_nan (density j) = false) enriched) as Hnan.
    { eapply Forall_impl; [exact Hall|]. by intros j (_ & _ & _ & ?)%enrich_order_Some. }
    split; [apply py_sorted_perm|]. split; [|split].
    + eapply StronglySorted_weaken; [|by apply sorted_jobs_sorted].
      intros a b Hab Hba%job_lt_before. unfold not_after in Hab. congruence.
    + rewrite Forall_forall in Hnan. intros a b Ha%py_sorted_elem_of Hb%py_sorted_elem_of.
      apply job_trichotomy; auto.
    + unfold schedule_orders_greedy_nosplit. rewrite decide_False by done.
      by rewrite Henrich.
  - intros used seqs j. rewrite place_job_choose.
    destruct (choose_line _ _ _) as [best|]; [right; by exists best|by left].
  - intros sched (pl & Hsub & _ & Hseq & _)%schedule_run. by exists pl.
  - intros start. split; destruct start; vm_compute; reflexivity.
Qed.

Lemma jobs_are_placed_in_sorted_order_back_to_back_witness :
  enrich ["L1"; "L2"] one_material_two_lines one_order_two_lines = Some [job_for_two_lines] ∧
  ¬ ((3600 ≤ 0)%Z ∨ ["L1"; "L2"] = []) ∧
  ∃ sorted,
    sorted ≡ₚ [job_for_two_lines] ∧
    schedule_orders_greedy_nosplit ["L1"; "L2"] one_material_two_lines 0 3600
      one_order_two_lines
    = Some (foldl (place_job 0 3600) (initial_line_state ["L1"; "L2"]) sorted).2.
Proof.
  assert (enrich ["L1"; "L2"] one_material_two_lines one_order_two_lines
          = Some [job_for_two_lines]) as Henrich by (vm_compute; reflexivity).
  assert (¬ ((3600 ≤ 0)%Z ∨ ["L1"; "L2"] = [])) as Hrun by (intros [?|?]; [lia|done]).
  split; [exact Henrich|]. split; [exact Hrun|].
  destruct (proj1 (jobs_are_placed_in_sorted_order_back_to_back
                     ["L1"; "L2"] one_order_two_lines one_material_two_lines 0 3600)
              _ Henrich Hrun) as (sorted & Hperm & _ & _ & Hsched).
  exists sorted. split; [exact Hperm|exact Hsched].
Defined.

(** C10, as the code has it. An order whose material number is not in the
    materials has the empty set of allowed lines and no eligible line; the
    score is the score without the order; the schedule is the schedule
    without the order whenever the duration of the order can be computed,
    and every schedule returned with the order is the one returned without
    it. When the duration cannot be computed, the scheduler raises, unless
    it returns before it looks at the orders: the duration is computed
    before the eligibility is looked at. *)
Theorem unknown_material_is_skipped
    (available_lines : list string) (materials : list material)
    (shift_start shift_length_seconds : Z)
    (pre post : list production_order) (po : production_order) :
  po_material_number po ∉ material_number <$> materials →
  allowed_lines materials po = ∅ ∧
  eligible_lines_for_order available_lines materials po = [] ∧
  score_assignment_quantity available_lines (pre ++ po :: post) materials
  = score_assignment_quantity available_lines (pre ++ post) materials ∧
  (is_Some (order_duration po) →
   schedule_orders_greedy_nosplit available_lines materials shift_start
     shift_length_seconds (pre ++ po :: post)
   = schedule_orders_greedy_nosplit available_lines materials shift_start
       shift_length_seconds (pre ++ post)) ∧
  (∀ sched,
      schedule_orders_greedy_nosplit available_lines materials shift_start
        shift_length_seconds (pre ++ po :: post) = Some sched →
      schedule_orders_greedy_nosplit available_lines materials shift_start
        shift_length_seconds (pre ++ post) = Some sched) ∧
  (order_duration po = None →
   ¬ ((shift_length_seconds ≤ 0)%Z ∨ available_lines = []) →
   schedule_orders_greedy_nosplit available_lines materials shift_start
     shift_length_seconds (pre ++ po :: post) = None).
Proof.
  intros Hno. pose proof (allowed_lines_unknown _ _ Hno) as Hallowed.
  assert (eligible_lines_for_order available_lines materials po = []) as Helig.
  { unfold eligible_lines_for_order. rewrite Hallowed.
    replace (list_to_set available_lines ∩ ∅ : gset string) with (∅ : gset string)
      by (apply set_eq; set_solver).
    by rewrite elements_empty. }
  assert (is_Some (order_duration po) →
          schedule_orders_greedy_nosplit available_lines materials shift_start
            shift_length_seconds (pre ++ po :: post)
          = schedule_orders_greedy_nosplit available_lines materials shift_start
              shift_length_seconds (pre ++ post)) as Hsched.
  { intros Hsome. unfold schedule_orders_greedy_nosplit. case_decide; [done|].
    by rewrite (enrich_skip _ _ pre po post (enrich_order_ineligible _ _ _ Helig Hsome)). }
  split; [done|]. split; [done|]. split; [by apply score_skips_unknown|].
  split; [done|]. split.
  - intros sched Hrun.
    destruct (decide ((shift_length_seconds ≤ 0)%Z ∨ available_lines = []))
      as [Hearly|Hlate].
    + unfold schedule_orders_greedy_nosplit in *. by rewrite decide_True in * by done.
    + rewrite <-Hsched; [done|].
      unfold schedule_orders_greedy_nosplit in Hrun. rewrite decide_False in Hrun by done.
      rewrite enrich_app in Hrun. simpl in Hrun.
      destruct (enrich available_lines materials pre); [|done]. simpl in Hrun.
      apply (enrich_order_is_Some available_lines materials).
      destruct (enrich_order available_lines materials po); [by eauto|done].
  - intros Hnone Hlate. unfold schedule_orders_greedy_nosplit.
    rewrite decide_False by done. rewrite enrich_app. simpl.
    destruct (enrich available_lines materials pre); [|done]. simpl.
    unfold enrich_order. by rewrite Hnone.
Qed.

Lemma unknown_material_is_skipped_witness :
  ("MX" ∉ material_number <$> one_material_two_lines) ∧
  schedule_orders_greedy_nosplit ["L1"; "L2"] one_material_two_lines 0 3600
    (one_order_two_lines ++ [ProductionOrder "PO-9" "MX" 3 (NInt 10)])
  = Some (py_dict [("L1", []); ("L2", [Slot "PO-1" 0])]).
Proof.
  assert ("MX" ∉ material_number <$> one_material_two_lines) as Hno by by_evaluation.
  split; [exact Hno|].
  destruct (unknown_material_is_skipped ["L1"; "L2"] one_material_two_lines 0 3600
              one_order_two_lines [] (ProductionOrder "PO-9" "MX" 3 (NInt 10)) Hno)
    as (_ & _ & _ & Hsched & _).
  rewrite Hsched.
  - rewrite app_nil_r. vm_compute. reflexivity.
  - vm_compute. eauto.
Defined.

(** C10, as stated, fails: an order of an unknown material whose duration
    is not a finite number is not discarded by the scheduler. With the
    order the scheduler raises, where without it a schedule is returned:
    the duration is computed before the eligibility is looked at, and
    [10 * 1e308] overflows. The scorer does leave the order out. *)
Lemma unknown_material_order_raises_counterexample :
  ("MX" ∉ material_number <$> [Material "M1" (Some ["L1"])]) ∧
  order_duration (ProductionOrder "PO-9" "MX" 10 (NInt (10 ^ 308))) = None ∧
  score_assignment_quantity ["L1"]
    [ProductionOrder "PO-1" "M1" 100 (NInt 1); ProductionOrder "PO-9" "MX" 10 (NInt (10 ^ 308))]
    [Material "M1" (Some ["L1"])] = 100%Z ∧
  schedule_orders_greedy_nosplit ["L1"] [Material "M1" (Some ["L1"])] 0 3600
    [ProductionOrder "PO-1" "M1" 100 (NInt 1)]
  = Some {["L1" := [Slot "PO-1" 0]]} ∧
  schedule_orders_greedy_nosplit ["L1"] [Material "M1" (Some ["L1"])] 0 3600
    [ProductionOrder "PO-1" "M1" 100 (NInt 1); ProductionOrder "PO-9" "MX" 10 (NInt (10 ^ 308))]
  = None.
Proof.
  split; [by_evaluation|]. repeat split; vm_compute; reflexivity.
Qed.

(** ** Scenarios of the specification *)

Example scenario_B :
  main (Request ["L1"; "L2"] [emp_of "e1" []; emp_of "e2" ["L3"]]
                [ProductionOrder "PO-1" "M1" 1 (NInt 100)]
                [Material "M1" (Some ["L1"])] 0 28800)
  = Some {| resp_shift_start := 0; resp_lines := [];
            resp_assignment := ∅; resp_sequence := ∅ |}.
Proof. vm_compute. reflexivity. Qed.

Example scenario_C :
  schedule_orders_greedy_nosplit ["L1"] [Material "M1" (Some ["L1"])] 0 50
    [ProductionOrder "PO-1" "M1" 1 (NInt 100)]
  = Some {["L1" := []]}.
Proof. vm_compute. reflexivity. Qed.

(** * Further properties of the code *)

(** ** Order of the returned assignments *)

Section seq_lt_facts.
Context {A : Type} `{EqDecision A} (lt : A → A → bool).
Hypothesis lt_asym : ∀ a b, lt a b = true → lt b a = false.
Hypothesis lt_negtrans : ∀ a b c, lt a b = false → lt b c = false → lt a c = false.
Hypothesis lt_antisym : ∀ a b, lt a b = false → lt b a = false → a = b.

Lemma seq_lt_asym a b : seq_lt lt a b = true → seq_lt lt b a = false.
Proof.
  revert b. induction a as [|x a IH]; intros [|y b]; simpl; try done.
  repeat case_decide; subst; try done; auto.
Qed.

Lemma seq_lt_negtrans a b c :
  seq_lt lt a b = false → seq_lt lt b c = false → seq_lt lt a c = false.
Proof.
  revert b c. induction a as [|x a IH]; intros [|y b] [|z c]; simpl; try done.
  repeat case_decide; subst; try done; eauto.
  intros Hxy Hyx. exfalso. eauto.
Qed.

Lemma seq_lt_antisym a b : seq_lt lt a b = false → seq_lt lt b a = false → a = b.
Proof.
  revert b. induction a as [|x a IH]; intros [|y b]; simpl; try done.
  repeat case_decide; subst; try done.
  - intros ??. f_equal. auto.
  - intros ??. exfalso. eauto.
Qed.
End seq_lt_facts.

Lemma combos_lt_asym a b : seq_lt pair_lt a b = true → seq_lt pair_lt b a = false.
Proof. apply seq_lt_asym, pair_lt_asym. Qed.

Lemma combos_lt_negtrans a b c :
  seq_lt pair_lt a b = false → seq_lt pair_lt b c = false → seq_lt pair_lt a c = false.
Proof. apply seq_lt_negtrans; [apply pair_lt_negtrans|apply pair_lt_antisym]. Qed.

Lemma combos_lt_antisym a b :
  seq_lt pair_lt a b = false → seq_lt pair_lt b a = false → a = b.
Proof. apply seq_lt_antisym, pair_lt_antisym. Qed.

Lemma employee_assignment_sorted lines_available employees_available :
  StronglySorted (not_after (seq_lt pair_lt))
    (employee_assignment lines_available employees_available).
Proof.
  unfold employee_assignment.
  destruct (employee_assignment_run _ _) as [|st]; [constructor|].
  apply (py_sorted_sorted _ (λ _, True)).
  - intros a b _ _. apply combos_lt_asym.
  - intros a b c _ _ _. apply combos_lt_negtrans.
  - by apply Forall_forall.
Qed.

(** A sorted list without repetition is strictly increasing. *)
Lemma StronglySorted_strict {A : Type} (lt : A → A → bool) (l : list A) :
  (∀ a b, lt a b = false → lt b a = false → a = b) →
  NoDup l → StronglySorted (not_after lt) l →
  StronglySorted (λ a b, lt a b = true) l.
Proof.
  intros Hanti Hnd Hs. induction Hs as [|x l Hs IH Hx]; [constructor|].
  apply NoDup_cons in Hnd as [Hfresh Hnd]. constructor; [by apply IH|].
  rewrite Forall_forall in Hx |- *. intros y Hy.
  destruct (lt x y) eqn:E; [done|]. exfalso. apply Hfresh.
  rewrite (Hanti x y E (Hx y Hy)). done.
Qed.

(** X1. The returned list of assignments is strictly increasing in the
    lexicographic order of the [(line, employee)] sequences: the order of
    the result is the same whatever order the set of results is iterated
    in. *)
Theorem assignments_are_returned_in_increasing_order lines_available employees_available :
  StronglySorted (λ combo1 combo2, seq_lt pair_lt combo1 combo2 = true)
    (employee_assignment lines_available employees_available).
Proof.
  apply StronglySorted_strict.
  - apply combos_lt_antisym.
  - apply employee_assignment_NoDup.
  - apply employee_assignment_sorted.
Qed.

(** X2. For lines without repetition, the pairs of every returned assignment
    stand in strictly ascending order of their lines. *)
Theorem assignment_lists_its_lines_in_ascending_order
    lines_available employees_available (combo : list (string * string)) :
  NoDup lines_available →
  combo ∈ employee_assignment lines_available employees_available →
  StronglySorted (λ p q, String.ltb p.1 q.1 = true) combo.
Proof.
  intros Hnd (Hs & _ & _ & _ & Hlines)%employee_assignment_sound.
  specialize (Hlines Hnd). clear Hnd.
  induction Hs as [|p l Hs IH Hp]; [constructor|].
  simpl in Hlines. apply NoDup_cons in Hlines as [Hfresh Hlines].
  constructor; [by apply IH|].
  rewrite Forall_forall in Hp |- *. intros q Hq. specialize (Hp q Hq).
  unfold not_after, pair_lt in Hp. case_decide as Heq.
  - exfalso. apply Hfresh. rewrite <-Heq. apply list_elem_of_fmap. by exists q.
  - destruct (String.ltb p.1 q.1) eqn:E; [done|]. exfalso. apply Heq.
    by apply ltb_antisym.
Qed.

Lemma assignment_lists_its_lines_in_ascending_order_witness :
  NoDup ["L2"; "L1"] ∧
  StronglySorted (λ p q : string * string, String.ltb p.1 q.1 = true)
    [("L1", "e2"); ("L2", "e1")].
Proof.
  assert (NoDup ["L2"; "L1"]) as Hnd by by_evaluation.
  split; [exact Hnd|].
  apply (assignment_lists_its_lines_in_ascending_order
           ["L2"; "L1"] [emp_of "e2" ["L1"; "L2"]; emp_of "e1" ["L1"; "L2"]] _ Hnd).
  by_evaluation.
Defined.

(** ** The result as a function of the qualification graph *)

(** For lines without repetition: the returned assignments are the sorted
    matchings of the size the matcher found. *)
Lemma employee_assignment_spec lines_available employees_available combo :
  NoDup lines_available →
  combo ∈ employee_assignment lines_available employees_available ↔
  is_matching lines_available employees_available combo ∧
  StronglySorted (not_after pair_lt) combo ∧
  length combo = size (match_emp_to_line lines_available employees_available) ∧
  size (match_emp_to_line lines_available employees_available) ≠ 0.
Proof.
  intros Hnd. split.
  - intros Hin. pose proof Hin as [Hm _]%elem_of_employee_assignment.
    apply employee_assignment_sound in Hin as (Hs & Hlen & H2 & Hq & H1).
    split; [split; [by apply H1|by split]|by split].
  - intros (Hmatch & Hs & Hlen & Hm).
    pose proof (employee_assignment_complete _ _ _ Hmatch Hlen Hm) as Hin.
    replace (py_sorted pair_lt combo) with combo in Hin; [done|].
    apply sorted_pairs_unique; [done|apply py_sorted_pairs_sorted|].
    by rewrite py_sorted_perm.
Qed.

Lemma is_matching_same_graph lines1 emps1 lines2 emps2 pairs :
  (∀ ln e, qualified lines1 emps1 ln e ↔ qualified lines2 emps2 ln e) →
  is_matching lines1 emps1 pairs → is_matching lines2 emps2 pairs.
Proof.
  intros Hg (H1 & H2 & Hq). split; [done|]. split; [done|].
  intros ln e Hin. by apply Hg, Hq.
Qed.

Lemma matcher_size_same_graph lines1 emps1 lines2 emps2 :
  NoDup lines1 → NoDup lines2 →
  (∀ ln e, qualified lines1 emps1 ln e ↔ qualified lines2 emps2 ln e) →
  size (match_emp_to_line lines1 emps1) = size (match_emp_to_line lines2 emps2).
Proof.
  intros Hnd1 Hnd2 Hg.
  apply (max_matching_size_unique lines1 emps1); [by apply matcher_size_is_maximum|].
  destruct (matcher_size_is_maximum lines2 emps2 Hnd2) as [(pairs & Hp & Hlen) Hmax].
  split.
  - exists pairs. split; [|done]. eapply is_matching_same_graph; [|exact Hp].
    intros ln e. by rewrite Hg.
  - intros pairs' Hp'. apply Hmax. by eapply is_matching_same_graph.
Qed.

Lemma employee_assignment_same_graph lines1 emps1 lines2 emps2 :
  NoDup lines1 → NoDup lines2 →
  (∀ ln e, qualified lines1 emps1 ln e ↔ qualified lines2 emps2 ln e) →
  employee_assignment lines1 emps1 = employee_assignment lines2 emps2.
Proof.
  intros Hnd1 Hnd2 Hg.
  assert (AntiSymm eq (not_after (seq_lt pair_lt))) as Hanti.
  { intros a b Hab Hba. by apply combos_lt_antisym. }
  apply (StronglySorted_unique (not_after (seq_lt pair_lt))).
  - apply employee_assignment_sorted.
  - apply employee_assignment_sorted.
  - apply NoDup_Permutation; [apply employee_assignment_NoDup..|].
    intros combo. rewrite !employee_assignment_spec by done.
    rewrite (matcher_size_same_graph lines1 emps1 lines2 emps2) by done.
    split; intros (Hm & ? & ? & ?); (split; [|done]);
      (eapply is_matching_same_graph; [|exact Hm]); intros ln e; by rewrite Hg.
Qed.

(** X3. For lines without repetition, the returned list of assignments
    depends only on the qualification graph: two requests with the same
    edges [(line, employee id)] get the same list, whatever the order of
    their lines and of their employee records, and whatever else the
    records hold. *)
Theorem assignments_depend_only_on_the_graph lines1 emps1 lines2 emps2 :
  NoDup lines1 → NoDup lines2 →
  (∀ ln e, qualified lines1 emps1 ln e ↔ qualified lines2 emps2 ln e) →
  employee_assignment lines1 emps1 = employee_assignment lines2 emps2.
Proof. apply employee_assignment_same_graph. Qed.

Lemma qualified_perm lines1 emps1 lines2 emps2 ln e :
  lines1 ≡ₚ lines2 → emps1 ≡ₚ emps2 →
  qualified lines1 emps1 ln e ↔ qualified lines2 emps2 ln e.
Proof.
  intros Hl He. unfold qualified. rewrite Hl.
  split; intros [? (emp & Hin & ?)]; (split; [done|]); exists emp;
    (split; [|done]); [by rewrite <-He|by rewrite He].
Qed.

Lemma assignments_depend_only_on_the_graph_witness :
  employee_assignment ["L1"; "L2"] [emp_of "e1" ["L1"]; emp_of "e2" ["L1"; "L2"]]
  = employee_assignment ["L2"; "L1"]
      [emp_of "e2" ["L1"; "L2"]; emp_of "e1" ["L1"]; emp_of "e2" ["L2"]].
Proof.
  apply assignments_depend_only_on_the_graph; [by_evaluation..|].
  intros ln e. unfold qualified. split.
  - intros [Hln (emp & Hemp & <- & Hq)]. split; [set_solver|].
    exists emp. split; [set_solver|done].
  - intros [Hln (emp & Hemp & <- & Hq)]. split; [set_solver|].
    apply elem_of_cons in Hemp as [->|Hemp];
      [exists (emp_of "e2" ["L1"; "L2"]); split; [set_solver|done]|].
    apply elem_of_cons in Hemp as [->|Hemp];
      [exists (emp_of "e1" ["L1"]); split; [set_solver|done]|].
    apply list_elem_of_singleton in Hemp as ->.
    exists (emp_of "e2" ["L1"; "L2"]). split; [set_solver|].
    split; [done|]. revert Hq. vm_compute. set_solver.
Defined.

(** X4. For lines without repetition, neither the order of the lines nor
    the order of the employee records in the request has an influence on
    the response. *)
Theorem response_is_independent_of_the_input_order req lines' emps' :
  NoDup (lines_available req) →
  lines_available req ≡ₚ lines' →
  employees_available req ≡ₚ emps' →
  main {| lines_available := lines'; employees_available := emps';
          production_orders := production_orders req; materials := materials req;
          shift_start := shift_start req;
          shift_length_seconds := shift_length_seconds req |}
  = main req.
Proof.
  intros Hnd Hl He. unfold main, best_index. simpl.
  rewrite (employee_assignment_same_graph lines' emps'
             (lines_available req) (employees_available req)); [done| |done|].
  - by rewrite <-Hl.
  - intros ln e. by apply qualified_perm.
Qed.

Lemma response_is_independent_of_the_input_order_witness :
  main {| lines_available := ["L2"; "L1"];
          employees_available := [emp_of "e2" ["L1"; "L2"]; emp_of "e1" ["L1"; "L2"]];
          production_orders := production_orders two_lines_request;
          materials := materials two_lines_request;
          shift_start := shift_start two_lines_request;
          shift_length_seconds := shift_length_seconds two_lines_request |}
  = main two_lines_request.
Proof.
  apply (response_is_independent_of_the_input_order two_lines_request).
  - by_evaluation.
  - apply perm_swap.
  - apply perm_swap.
Defined.

(** ** When there is no assignment *)

Lemma employee_assignment_nil_iff lines_available employees_available :
  NoDup lines_available →
  employee_assignment lines_available employees_available = [] ↔
  ∀ ln e, ¬ qualified lines_available employees_available ln e.
Proof.
  intros Hnd.
  pose proof (matcher_size_is_maximum _ employees_available Hnd) as Hmax.
  split.
  - intros Hnil. apply max_matching_size_0.
    destruct (decide (size (match_emp_to_line lines_available employees_available) = 0))
      as [<-|Hm]; [done|]. exfalso.
    destruct Hmax as [(pairs & Hp & Hlen) _].
    pose proof (employee_assignment_complete _ _ _ Hp Hlen Hm) as Hin.
    rewrite Hnil in Hin. by apply elem_of_nil in Hin.
  - intros Hno. unfold employee_assignment. rewrite employee_assignment_run_cases.
    by rewrite (no_edge_no_match _ _ Hno), map_size_empty, decide_True.
Qed.

(** X5. For lines without repetition, the response is the empty one (no
    lines, no assignment, no sequence) exactly when no available line is
    among the qualified lines of any employee; as soon as there is one such
    pair, at least one line is staffed. *)
Theorem response_is_empty_iff_nobody_is_qualified req :
  NoDup (lines_available req) →
  (main req = Some (empty_response req) ↔
   ∀ ln e, ¬ qualified (lines_available req) (employees_available req) ln e) ∧
  (∀ resp, main req = Some resp → resp_lines resp = [] → resp = empty_response req).
Proof.
  intros Hnd.
  assert (∀ resp, main req = Some resp → resp_lines resp = [] →
            employee_assignment (lines_available req) (employees_available req) = [])
    as Hlines.
  { intros resp Hmain Hnil. unfold main in Hmain.
    destruct (employee_assignment _ _) as [|c l] eqn:E; [done|]. exfalso.
    destruct ((c :: l) !! best_index req (c :: l)) as [chosen|] eqn:Hch; [|done].
    simpl in Hmain. destruct (schedule_orders_greedy_nosplit _ _ _ _ _); [|done].
    simplify_eq/=.
    assert (length (lines_from_combo chosen) = 0) as Hlen.
    { by rewrite <-(py_sorted_length String.ltb), Hnil. }
    apply list_elem_of_lookup_2 in Hch. rewrite <-E in Hch.
    pose proof Hch as [Hm _]%elem_of_employee_assignment.
    apply employee_assignment_sound in Hch as (_ & Hsz & _).
    unfold lines_from_combo in Hlen. rewrite length_fmap in Hlen. lia. }
  assert (employee_assignment (lines_available req) (employees_available req) = [] →
          main req = Some (empty_response req)) as Hempty.
  { intros E. unfold main. by rewrite E. }
  split; [split|].
  - intros Hmain. apply employee_assignment_nil_iff; [done|].
    by apply (Hlines _ Hmain).
  - intros Hno. by apply Hempty, employee_assignment_nil_iff.
  - intros resp Hmain Hnil. specialize (Hempty (Hlines _ Hmain Hnil)). congruence.
Qed.

Lemma response_is_empty_iff_nobody_is_qualified_witness :
  NoDup (lines_available two_lines_request) ∧
  (main two_lines_request = Some (empty_response two_lines_request) ↔
   ∀ ln e, ¬ qualified (lines_available two_lines_request)
               (employees_available two_lines_request) ln e).
Proof.
  assert (NoDup (lines_available two_lines_request)) as Hnd by by_evaluation.
  split; [exact Hnd|].
  apply (response_is_empty_iff_nobody_is_qualified two_lines_request Hnd).
Defined.

(** ** The matcher on any list of lines *)

Lemma matcher_weak_inv (g : gmap string (list string)) fuel lines processed m :
  along_edges g m → matched_lines m ⊆+ processed →
  along_edges g (foldl (augment_from g fuel) m lines) ∧
  matched_lines (foldl (augment_from g fuel) m lines) ⊆+ processed ++ lines.
Proof.
  revert processed m. induction lines as [|v lines IH]; intros processed m He Hsub; simpl.
  { by rewrite app_nil_r. }
  rewrite cons_middle, app_assoc. apply IH.
  - unfold augment_from. destruct (try_augment g fuel v ∅ m) as [[[b s'] m']|] eqn:Hrun;
      [|done].
    apply try_augment_post in Hrun as (_ & _ & _ & _ & Hedges). auto.
  - unfold augment_from. destruct (try_augment g fuel v ∅ m) as [[[b s'] m']|] eqn:Hrun.
    + apply try_augment_post in Hrun as (_ & _ & Hsame & Hperm & _). destruct b.
      * rewrite (Hperm eq_refl), (comm (++) processed). by apply submseteq_skip.
      * rewrite (Hsame eq_refl). by apply submseteq_inserts_r.
    + by apply submseteq_inserts_r.
Qed.

(** X6. Whatever the lines (repeated or not): every entry of the dict the
    matcher ends with pairs an employee with an available line the
    employee is qualified for, the matched lines are taken from
    [lines_available] without using a position twice, and so the size of
    the dict exceeds neither the number of lines nor the number of distinct
    employee ids. *)
Theorem matcher_pairs_employees_with_their_lines lines_available employees_available :
  let m := match_emp_to_line lines_available employees_available in
  (∀ e ln, m !! e = Some ln → qualified lines_available employees_available ln e) ∧
  matched_lines m ⊆+ lines_available ∧
  size m ≤ length lines_available ∧
  (Z.of_nat (size m) ≤ total_emps employees_available)%Z.
Proof.
  intros m.
  destruct (matcher_weak_inv (line_to_emps lines_available employees_available)
              (matcher_fuel employees_available) lines_available [] ∅)
    as [Hedges Hsub].
  { by intros ?? ?%lookup_empty_Some. }
  { unfold matched_lines. by rewrite map_to_list_empty. }
  fold (match_emp_to_line lines_available employees_available) in Hedges, Hsub.
  fold m in Hedges, Hsub. simpl in Hsub.
  split; [|split; [done|split]].
  - intros e ln Hm. by apply elem_of_line_to_emps, Hedges.
  - rewrite <-matched_lines_length. by apply submseteq_length.
  - unfold total_emps. apply inj_le.
    rewrite <-size_dom. apply subseteq_size. intros e [ln Hm]%elem_of_dom.
    eapply line_to_emps_ids, Hedges, Hm.
Qed.

(** ** The search of the enumerator from any state *)

(** X7. A call of [backtrack], from whatever state and for whatever lines,
    returns with [used_emps] and [cur_pairs] as they were on entry, and with
    every result that was in [results_set] still in it. *)
Theorem backtrack_restores_its_state (g : gmap string (list string)) (tot M : Z)
    (rest : list string) (st : bt_state) :
  used_emps (backtrack g tot M rest st) = used_emps st ∧
  cur_pairs (backtrack g tot M rest st) = cur_pairs st ∧
  results_set st ⊆ results_set (backtrack g tot M rest st).
Proof. apply backtrack_same_frame. Qed.

(** X8. The pruning test cuts no result off. When [tot] is the number of
    employee ids and the employees in use are among them, a call of
    [backtrack] adds to [results_set] exactly the sorted tuples of the
    current pairs together with pairs for some of the remaining lines, in
    their order, along edges of the graph, with distinct employees not in
    use, [M] pairs in all. *)
Theorem backtrack_adds_exactly_the_completions (g : gmap string (list string))
    (ids : gset string) (M : Z) (rest : list string) (st : bt_state)
    (r : list (string * string)) :
  (∀ ln e, e ∈ get_list g ln → e ∈ ids) →
  used_emps st ⊆ ids →
  r ∈ results_set (backtrack g (Z.of_nat (size ids)) M rest st) ↔
  r ∈ results_set st ∨
  ∃ ext, completes g M rest st ext ∧ r = py_sorted pair_lt (cur_pairs st ++ ext).
Proof.
  intros Hids Hused. split; [apply backtrack_sound|].
  intros [Hr|(ext & Hc & ->)].
  - by apply backtrack_same_frame.
  - apply (backtrack_complete g _ M ids); [done..| |done].
    intros e ([ln e'] & -> & Hin)%list_elem_of_fmap.
    destruct Hc as (_ & _ & _ & Hedge & _). eapply Hids, Hedge, Hin.
Qed.

Lemma backtrack_adds_exactly_the_completions_witness :
  [("L1", "e1")] ∈
    results_set (backtrack {["L1" := ["e1"]]} (Z.of_nat (size ({["e1"]} : gset string))) 1
                   ["L1"] (BtState ∅ ∅ [])).
Proof.
  apply (backtrack_adds_exactly_the_completions {["L1" := ["e1"]]} {["e1"]}).
  - intros ln e. unfold get_list. destruct (decide (ln = "L1")) as [->|Hne].
    + rewrite lookup_singleton_eq. simpl. set_solver.
    + rewrite lookup_singleton_ne by done. simpl. set_solver.
  - simpl. set_solver.
  - right. exists [("L1", "e1")]. split; [|by_evaluation].
    split; [done|]. split; [apply NoDup_singleton|]. split; [set_solver|].
    split; [|done]. intros ln e [= -> ->]%list_elem_of_singleton. by_evaluation.
Defined.

(** ** More on the dict comprehensions *)

Lemma py_dict_app {V : Type} (kvs1 kvs2 : list (string * V)) :
  py_dict (kvs1 ++ kvs2) = foldl (λ m kv, <[kv.1 := kv.2]> m) (py_dict kvs1) kvs2.
Proof. unfold py_dict. by rewrite foldl_app. Qed.

(** The last binding of a key is the one that counts. *)
Lemma py_dict_lookup_last {V : Type} (pre post : list (string * V)) k v :
  k ∉ post.*1 → py_dict (pre ++ (k, v) :: post) !! k = Some v.
Proof.
  induction post as [|[k' v'] post IH] using rev_ind; intros Hk.
  - by rewrite py_dict_snoc, lookup_insert_eq.
  - rewrite fmap_app in Hk. simpl in Hk.
    rewrite app_comm_cons, app_assoc, py_dict_snoc.
    rewrite lookup_insert_ne by set_solver. apply IH. set_solver.
Qed.

Lemma py_dict_dom {V : Type} (kvs : list (string * V)) :
  dom (py_dict kvs) = list_to_set kvs.*1.
Proof.
  induction kvs as [|[k v] kvs IH] using rev_ind; [by cbn; rewrite dom_empty_L|].
  rewrite py_dict_snoc, dom_insert_L, IH, fmap_app, list_to_set_app_L. simpl.
  set_solver.
Qed.

(** With distinct keys, the dict has the bindings of the comprehension and
    no others. *)
Lemma py_dict_to_list {V : Type} (kvs : list (string * V)) :
  NoDup kvs.*1 → map_to_list (py_dict kvs) ≡ₚ kvs.
Proof.
  induction kvs as [|[k v] kvs IH] using rev_ind; intros Hnd.
  { cbn. by rewrite map_to_list_empty. }
  rewrite fmap_app in Hnd. apply NoDup_app in Hnd as (Hnd & Hfresh & _).
  rewrite py_dict_snoc, map_to_list_insert.
  - rewrite IH by done. by rewrite (comm (++) kvs).
  - apply py_dict_lookup_None. intros Hin. apply (Hfresh _ Hin). simpl. set_solver.
Qed.

(** ** Materials *)

(** X9. Of several material records with the same number, the last one
    decides which lines are capable, and a record without a ["line"] entry
    makes no line capable: it hides earlier records of its material. *)
Theorem last_material_record_decides (pre post : list material) (m : material)
    (po : production_order) :
  po_material_number po = material_number m →
  material_number m ∉ material_number <$> post →
  allowed_lines (pre ++ m :: post) po = list_to_set (default [] (line m)) ∧
  (line m = None → allowed_lines (pre ++ m :: post) po = ∅).
Proof.
  intros Hpo Hlast.
  assert (allowed_lines (pre ++ m :: post) po = list_to_set (default [] (line m))) as E.
  { unfold allowed_lines, mat_to_lines. rewrite fmap_app, fmap_cons, Hpo.
    rewrite py_dict_lookup_last; [done|]. by rewrite <-list_fmap_compose. }
  split; [done|]. intros Hnone. by rewrite E, Hnone.
Qed.

Lemma last_material_record_decides_witness :
  allowed_lines ([Material "M1" (Some ["L1"; "L2"])] ++ Material "M1" None :: [])
    (ProductionOrder "PO-1" "M1" 100 (NInt 1)) = ∅.
Proof.
  apply (last_material_record_decides [Material "M1" (Some ["L1"; "L2"])] []
           (Material "M1" None)); [done|by_evaluation|done].
Defined.

(** ** More on the scorer *)

Lemma counted_same_lines lines lines' materials po :
  (∀ ln, ln ∈ lines ↔ ln ∈ lines') →
  counted lines materials po = counted lines' materials po.
Proof.
  intros Hl. unfold counted.
  replace (list_to_set lines' : gset string) with (list_to_set lines : gset string);
    [done|]. apply set_eq. intros ln. by rewrite !elem_of_list_to_set.
Qed.

Lemma score_app lines pos1 pos2 materials :
  score_assignment_quantity lines (pos1 ++ pos2) materials
  = (score_assignment_quantity lines pos1 materials
     + score_assignment_quantity lines pos2 materials)%Z.
Proof.
  rewrite !score_assignment_quantity_sum, foldr_app.
  induction pos1 as [|po pos1 IH]; simpl; [done|]. rewrite IH. lia.
Qed.

Lemma score_perm lines pos pos' materials :
  pos ≡ₚ pos' →
  score_assignment_quantity lines pos materials
  = score_assignment_quantity lines pos' materials.
Proof.
  intros Hp. rewrite !score_assignment_quantity_sum.
  induction Hp; simpl; lia.
Qed.

(** X10. The score is a sum over the orders that looks at the lines as a
    set: it does not change when the lines are reordered or repeated, nor
    when the orders are reordered, and the score of two lists of orders
    put together is the sum of their scores. *)
Theorem score_is_a_sum_over_the_orders lines lines' pos pos' pos1 pos2 materials :
  (∀ ln, ln ∈ lines ↔ ln ∈ lines') → pos ≡ₚ pos' →
  score_assignment_quantity lines pos materials
  = score_assignment_quantity lines' pos' materials ∧
  score_assignment_quantity lines (pos1 ++ pos2) materials
  = (score_assignment_quantity lines pos1 materials
     + score_assignment_quantity lines pos2 materials)%Z.
Proof.
  intros Hl Hp. split; [|apply score_app].
  rewrite (score_perm lines pos pos') by done.
  rewrite !score_assignment_quantity_sum. clear Hp.
  induction pos' as [|po pos' IH]; simpl; [done|].
  by rewrite IH, (counted_same_lines lines lines').
Qed.

Lemma score_is_a_sum_over_the_orders_witness :
  score_assignment_quantity ["L1"; "L2"] (production_orders two_lines_request)
    (materials two_lines_request)
  = score_assignment_quantity ["L2"; "L1"; "L2"]
      (reverse (production_orders two_lines_request)) (materials two_lines_request).
Proof.
  refine (proj1 (score_is_a_sum_over_the_orders ["L1"; "L2"] ["L2"; "L1"; "L2"]
                   _ _ [] [] _ _ _)).
  - intros ln. set_solver.
  - apply perm_swap.
Defined.

(** X11. With quantities that are not negative, the score of any lines lies
    between 0 and the sum of all quantities; it is 0 when there is no
    line. *)
Theorem score_is_between_zero_and_the_total lines pos materials :
  Forall (λ po, 0 ≤ quantity po)%Z pos →
  (0 ≤ score_assignment_quantity lines pos materials
   ≤ foldr (λ po s, quantity po + s) 0 pos)%Z ∧
  score_assignment_quantity [] pos materials = 0%Z.
Proof.
  intros Hq. rewrite !score_assignment_quantity_sum. split.
  - induction Hq as [|po pos Hpo Hq IH]; simpl; [lia|].
    unfold counted at 1 3. case_decide; lia.
  - clear Hq. induction pos as [|po pos IH]; simpl; [done|].
    rewrite IH. unfold counted. rewrite decide_False; [done|]. set_solver.
Qed.

Lemma score_is_between_zero_and_the_total_witness :
  (0 ≤ score_assignment_quantity ["L2"] (production_orders two_lines_request)
         (materials two_lines_request) ≤ 150)%Z.
Proof.
  refine (proj1 (score_is_between_zero_and_the_total ["L2"]
                   (production_orders two_lines_request)
                   (materials two_lines_request) _)).
  by_evaluation.
Defined.

(** ** The selection loop *)

(** The loop, started at index [k] with [(best_idx, best_qty)]: the final
    quantity bounds the initial one and every score, and either nothing
    was replaced, or the final index is the first position whose score is
    the final quantity. *)
Lemma selection_loop req k (l : list (list (string * string))) best_idx best_qty :
  let r := foldl (λ '(best_idx, best_qty) '(i, combo),
                    let qty := score_assignment_quantity (lines_from_combo combo)
                                 (production_orders req) (materials req) in
                    if bool_decide (best_qty < qty)%Z then (i, qty)
                    else (best_idx, best_qty))
                 (best_idx, best_qty) (imap (λ i combo, (k + i, combo)) l) in
  (best_qty ≤ r.2)%Z ∧
  (∀ c, c ∈ l → (combo_score req c ≤ r.2)%Z) ∧
  (r = (best_idx, best_qty) ∨
   ∃ j c, l !! j = Some c ∧ r.1 = k + j ∧ combo_score req c = r.2 ∧ (best_qty < r.2)%Z ∧
          ∀ j' c', j' < j → l !! j' = Some c' → (combo_score req c' < r.2)%Z).
Proof.
  revert k best_idx best_qty. induction l as [|x l IH]; intros k best_idx best_qty.
  { simpl. split; [lia|]. split; [by intros ? ?%elem_of_nil|by left]. }
  rewrite imap_cons. cbn [foldl]. cbn zeta.
  rewrite (imap_ext _ (λ i combo, (S k + i, combo))); [|intros; simpl; f_equal; lia].
  fold (combo_score req x). case_bool_decide as Hlt.
  - specialize (IH (S k) (k + 0) (combo_score req x)). cbn zeta in IH.
    destruct IH as (Hle & Hall & Hcase).
    split; [lia|]. split.
    { intros c [->|Hc]%elem_of_cons; [done|by apply Hall]. }
    right. destruct Hcase as [Hr|(j & c & Hj & Hi & Hs & Hq & Hfirst)].
    + exists 0, x. rewrite Hr. simpl. repeat split; [lia|]. intros; lia.
    + exists (S j), c. repeat split; [done|lia|done|lia|].
      intros [|j'] c' Hlt' Hc'; simpl in Hc'; [|apply (Hfirst j'); [lia|done]].
      injection Hc' as <-. lia.
  - specialize (IH (S k) best_idx best_qty). cbn zeta in IH.
    destruct IH as (Hle & Hall & Hcase).
    split; [lia|]. split.
    { intros c [->|Hc]%elem_of_cons; [lia|by apply Hall]. }
    destruct Hcase as [Hr|(j & c & Hj & Hi & Hs & Hq & Hfirst)]; [by left|right].
    exists (S j), c. repeat split; [done|lia|done|lia|].
    intros [|j'] c' Hlt' Hc'; simpl in Hc'; [|apply (Hfirst j'); [lia|done]].
    injection Hc' as <-. lia.
Qed.

Lemma best_index_cases req (assignments : list (list (string * string))) :
  (best_index req assignments = 0 ∧ ∀ c, c ∈ assignments → (combo_score req c ≤ -1)%Z) ∨
  ∃ c, assignments !! best_index req assignments = Some c ∧
       (∀ c', c' ∈ assignments → (combo_score req c' ≤ combo_score req c)%Z) ∧
       ∀ j c', j < best_index req assignments → assignments !! j = Some c' →
               (combo_score req c' < combo_score req c)%Z.
Proof.
  pose proof (selection_loop req 0 assignments 0 (-1)%Z) as H. cbn zeta in H.
  unfold best_index. simpl in H.
  destruct H as (_ & Hall & [Hr|(j & c & Hj & Hi & Hs & _ & Hfirst)]).
  - left. rewrite Hr in Hall |- *. done.
  - right. exists c. rewrite Hi, Hs. done.
Qed.

Lemma best_index_lt req (assignments : list (list (string * string))) :
  assignments ≠ [] → best_index req assignments < length assignments.
Proof.
  intros Hne.
  destruct (best_index_cases req assignments) as [[-> _]|(c & Hc & _)].
  - destruct assignments; [done|simpl; lia].
  - by apply lookup_lt_Some in Hc.
Qed.

Lemma score_nonneg lines pos materials :
  Forall (λ po, 0 ≤ quantity po)%Z pos →
  (0 ≤ score_assignment_quantity lines pos materials)%Z.
Proof.
  intros Hq. rewrite score_assignment_quantity_sum.
  induction Hq as [|po pos Hpo Hq IH]; simpl; [lia|].
  unfold counted at 1. case_decide; lia.
Qed.

(** X12. With quantities that are not negative, the selection loop over a
    list of assignments that is not empty stops on the first assignment of
    the greatest score: no assignment scores more, and every assignment
    before it scores less. *)
Theorem first_assignment_of_the_greatest_score_is_chosen req
    (assignments : list (list (string * string))) :
  Forall (λ po, 0 ≤ quantity po)%Z (production_orders req) →
  assignments ≠ [] →
  ∃ chosen, assignments !! best_index req assignments = Some chosen ∧
    (∀ combo, combo ∈ assignments →
       (score_assignment_quantity (lines_from_combo combo)
          (production_orders req) (materials req)
        ≤ score_assignment_quantity (lines_from_combo chosen)
            (production_orders req) (materials req))%Z) ∧
    (∀ j combo, j < best_index req assignments → assignments !! j = Some combo →
       (score_assignment_quantity (lines_from_combo combo)
          (production_orders req) (materials req)
        < score_assignment_quantity (lines_from_combo chosen)
            (production_orders req) (materials req))%Z).
Proof.
  intros Hq Hne.
  destruct (best_index_cases req assignments) as [[_ Hall]|H]; [|exact H].
  exfalso. destruct assignments as [|c l]; [done|].
  specialize (Hall c (list_elem_of_here _ _)).
  pose proof (score_nonneg (lines_from_combo c) _ (materials req) Hq).
  unfold combo_score in Hall. lia.
Qed.

Lemma first_assignment_of_the_greatest_score_is_chosen_witness :
  ∃ chosen,
    employee_assignment (lines_available two_lines_request)
      (employees_available two_lines_request)
    !! best_index two_lines_request
         (employee_assignment (lines_available two_lines_request)
            (employees_available two_lines_request)) = Some chosen ∧
    ∀ combo,
      combo ∈ employee_assignment (lines_available two_lines_request)
                (employees_available two_lines_request) →
      (score_assignment_quantity (lines_from_combo combo)
         (production_orders two_lines_request) (materials two_lines_request)
       ≤ score_assignment_quantity (lines_from_combo chosen)
           (production_orders two_lines_request) (materials two_lines_request))%Z.
Proof.
  destruct (first_assignment_of_the_greatest_score_is_chosen two_lines_request
              (employee_assignment (lines_available two_lines_request)
                 (employees_available two_lines_request)))
    as (chosen & Hch & Hmax & _).
  - by_evaluation.
  - by_evaluation.
  - exists chosen. split; [exact Hch|exact Hmax].
Defined.

(** ** When the scheduler and [main] return *)

Lemma enrich_is_Some available_lines materials pos :
  is_Some (enrich available_lines materials pos) ↔
  Forall (λ po, is_Some (order_duration po)) pos.
Proof.
  induction pos as [|po pos IH]; simpl.
  { split; [constructor|eauto]. }
  rewrite Forall_cons, <-IH, <-(enrich_order_is_Some available_lines materials).
  destruct (enrich_order _ _ po) as [oj|]; simpl.
  - destruct (enrich _ _ pos) as [js|]; simpl.
    + split; eauto.
    + split; [by intros [? ?]|by intros [_ [? ?]]].
  - split; [by intros [? ?]|by intros [[? ?] _]].
Qed.

Lemma enrich_kept available_lines materials pos js :
  enrich available_lines materials pos = Some js →
  js = omap (kept_job available_lines materials) pos.
Proof.
  revert js. induction pos as [|po pos IH]; intros js; simpl; [by intros [= <-]|].
  unfold kept_job at 1.
  destruct (enrich_order _ _ po) as [oj|]; [|done]. simpl.
  destruct (enrich _ _ pos) as [js'|]; [|done]. simpl. intros [= <-].
  rewrite (IH js' eq_refl). by destruct oj.
Qed.

Lemma schedule_is_Some available_lines materials shift_start shift_len pos :
  is_Some (schedule_orders_greedy_nosplit available_lines materials shift_start
             shift_len pos) ↔
  (shift_len ≤ 0)%Z ∨ available_lines = [] ∨
  Forall (λ po, is_Some (order_duration po)) pos.
Proof.
  unfold schedule_orders_greedy_nosplit. case_decide as Hearly.
  { split; [tauto|eauto]. }
  rewrite <-(enrich_is_Some available_lines materials).
  destruct (enrich _ _ pos) as [js|]; simpl.
  - split; eauto.
  - split; [by intros [? ?]|]. intros [?|[?|[? ?]]]; [tauto..|done].
Qed.

Lemma chosen_is_returned req c l :
  employee_assignment (lines_available req) (employees_available req) = c :: l →
  ∃ chosen, (c :: l) !! best_index req (c :: l) = Some chosen ∧
    chosen ∈ employee_assignment (lines_available req) (employees_available req) ∧
    lines_from_combo chosen ≠ [].
Proof.
  intros E.
  destruct (lookup_lt_is_Some_2 (c :: l) (best_index req (c :: l))) as [chosen Hch].
  { by apply best_index_lt. }
  exists chosen. split; [done|].
  assert (chosen ∈ employee_assignment (lines_available req) (employees_available req))
    as Hin by (rewrite E; by eapply list_elem_of_lookup_2).
  split; [done|].
  pose proof Hin as [Hm _]%elem_of_employee_assignment.
  apply employee_assignment_sound in Hin as (_ & Hlen & _).
  unfold lines_from_combo. intros Hnil%fmap_nil_inv. rewrite Hnil in Hlen.
  simpl in Hlen. lia.
Qed.

(** X13. The index of the chosen assignment is always in range, whatever
    the list of assignments, as long as it is not empty. And [main] raises
    an exception whenever some assignment exists, the shift length is
    positive, and the duration of some order cannot be computed (a
    conversion to [float] or to [int] raises): the durations of all orders
    are computed before any order is placed. *)
Theorem main_raises_when_a_duration_cannot_be_computed req :
  (∀ assignments : list (list (string * string)),
      assignments ≠ [] → best_index req assignments < length assignments) ∧
  (employee_assignment (lines_available req) (employees_available req) ≠ [] →
   (0 < shift_length_seconds req)%Z →
   (∃ po, po ∈ production_orders req ∧ order_duration po = None) →
   main req = None).
Proof.
  split; [intros assignments Hne; by apply best_index_lt|].
  intros Hne Hpos (po & Hpo & Hnone). unfold main.
  destruct (employee_assignment _ _) as [|c l] eqn:E; [done|].
  destruct (chosen_is_returned req c l E) as (chosen & -> & _ & Hlines). simpl.
  pose proof (schedule_is_Some (lines_from_combo chosen) (materials req)
                (shift_start req) (shift_length_seconds req) (production_orders req))
    as Hsome.
  destruct (schedule_orders_greedy_nosplit _ _ _ _ _) as [sched|]; [|done]. exfalso.
  destruct (proj1 Hsome) as [?|[?|Hall]]; [eauto|lia|done|].
  rewrite Forall_forall in Hall. specialize (Hall po Hpo). rewrite Hnone in Hall.
  by destruct Hall.
Qed.

Lemma main_raises_when_a_duration_cannot_be_computed_witness :
  main {| lines_available := ["L1"]; employees_available := [emp_of "e1" ["L1"]];
          production_orders := [ProductionOrder "PO-1" "M1" 1 (NFloat S754_nan)];
          materials := []; shift_start := 0; shift_length_seconds := 60 |} = None.
Proof.
  apply main_raises_when_a_duration_cannot_be_computed; simpl.
  - by_evaluation.
  - lia.
  - eexists. split; [apply list_elem_of_here|]. reflexivity.
Defined.

(** ** The response *)

Lemma schedule_dom available_lines materials shift_start shift_len pos sched :
  schedule_orders_greedy_nosplit available_lines materials shift_start shift_len pos
  = Some sched →
  dom sched = list_to_set available_lines.
Proof.
  intros (pl & _ & _ & Hsched & _)%schedule_run. apply set_eq. intros ln.
  rewrite elem_of_dom, elem_of_list_to_set, Hsched. case_decide; split; eauto.
  - by intros [? ?].
  - done.
Qed.

(** X14. The parts of a response fit together: the lines are listed in
    ascending order, and the assignment and the sequence have exactly these
    lines as their keys; the shift start is the one of the request. *)
Theorem response_parts_have_the_same_lines req resp :
  main req = Some resp →
  resp_shift_start resp = shift_start req ∧
  StronglySorted String.le (resp_lines resp) ∧
  dom (resp_assignment resp) = list_to_set (resp_lines resp) ∧
  dom (resp_sequence resp) = list_to_set (resp_lines resp).
Proof.
  unfold main. destruct (employee_assignment _ _) as [|c l] eqn:E.
  { intros [= <-]. simpl. split; [done|]. split; [constructor|].
    by rewrite !dom_empty_L. }
  destruct (chosen_is_returned req c l E) as (chosen & -> & _ & _). simpl.
  destruct (schedule_orders_greedy_nosplit _ _ _ _ _) as [sched|] eqn:Hs; [|done].
  simpl. intros [= <-]. simpl. split; [done|].
  assert ((list_to_set (py_sorted String.ltb (lines_from_combo chosen)) : gset string)
          = list_to_set (lines_from_combo chosen)) as Hset.
  { apply set_eq. intros ln. by rewrite !elem_of_list_to_set, py_sorted_elem_of. }
  split; [|split].
  - eapply StronglySorted_weaken; [|apply (py_sorted_sorted String.ltb (λ _, True))].
    + intros a b. apply str_not_after.
    + intros a b _ _. apply ltb_asym.
    + intros a b c' _ _ _. apply ltb_negtrans.
    + by apply Forall_forall.
  - by rewrite Hset, py_dict_dom.
  - rewrite Hset. by eapply schedule_dom.
Qed.

Lemma response_parts_have_the_same_lines_witness :
  ∃ resp, main two_lines_request = Some resp ∧
          dom (resp_sequence resp) = list_to_set (resp_lines resp).
Proof.
  assert (is_Some (main two_lines_request)) as [resp Hresp] by by_evaluation.
  exists resp. split; [exact Hresp|].
  apply (response_parts_have_the_same_lines two_lines_request resp Hresp).
Defined.

(** X15. For lines without repetition, the assignment of a response is a
    matching of the qualification graph of maximum size: every line of the
    response is an available line with its own employee, who is qualified
    for it, and no matching of the graph has more pairs. *)
Theorem response_assignment_is_a_maximum_matching req resp :
  NoDup (lines_available req) →
  main req = Some resp →
  is_matching (lines_available req) (employees_available req)
    (map_to_list (resp_assignment resp)) ∧
  is_max_matching_size (lines_available req) (employees_available req)
    (size (resp_assignment resp)) ∧
  length (resp_lines resp) = size (resp_assignment resp).
Proof.
  intros Hnd. pose proof (matcher_size_is_maximum _ (employees_available req) Hnd) as Hmax.
  unfold main. destruct (employee_assignment _ _) as [|c l] eqn:E.
  { intros [= <-]. simpl. rewrite map_to_list_empty, map_size_empty.
    split; [|split; [|done]].
    - split; [constructor|]. split; [constructor|]. by intros ?? ?%elem_of_nil.
    - destruct (decide (size (match_emp_to_line (lines_available req)
                                (employees_available req)) = 0)) as [<-|Hm]; [done|].
      exfalso. destruct Hmax as [(pairs & Hp & Hlen) _].
      pose proof (employee_assignment_complete _ _ _ Hp Hlen Hm) as Hin.
      rewrite E in Hin. by apply elem_of_nil in Hin. }
  destruct (chosen_is_returned req c l E) as (chosen & -> & Hin & _). simpl.
  destruct (schedule_orders_greedy_nosplit _ _ _ _ _) as [sched|]; [|done].
  simpl. intros [= <-]. simpl.
  apply employee_assignment_sound in Hin as (_ & Hlen & H2 & Hq & H1).
  specialize (H1 Hnd). pose proof (py_dict_to_list chosen H1) as Hperm.
  assert (size (py_dict chosen) = length chosen) as Hsize.
  { by rewrite <-length_map_to_list, Hperm. }
  split; [|split].
  - split; [by rewrite Hperm|]. split; [by rewrite Hperm|].
    intros ln e. rewrite Hperm. apply Hq.
  - by rewrite Hsize, Hlen.
  - rewrite py_sorted_length, Hsize. unfold lines_from_combo. by rewrite length_fmap.
Qed.

Lemma response_assignment_is_a_maximum_matching_witness :
  ∃ resp, main two_lines_request = Some resp ∧
          is_max_matching_size (lines_available two_lines_request)
            (employees_available two_lines_request) (size (resp_assignment resp)).
Proof.
  assert (is_Some (main two_lines_request)) as [resp Hresp] by by_evaluation.
  assert (NoDup (lines_available two_lines_request)) as Hnd by by_evaluation.
  exists resp. split; [exact Hresp|].
  apply (response_assignment_is_a_maximum_matching two_lines_request resp Hnd Hresp).
Defined.

(** ** Sign of the duration *)

Lemma binary_round_aux_sign prec emax sx mx ex lx :
  match binary_round_aux prec emax sx mx ex lx with
  | S754_zero s | S754_infinity s | S754_finite s _ _ => s = sx
  | S754_nan => True
  end.
Proof.
  unfold binary_round_aux.
  destruct (shr_fexp prec emax mx ex lx) as [mrs' e'].
  destruct (shr_fexp prec emax _ e' loc_Exact) as [mrs'' e''].
  destruct (shr_m mrs'') as [|m|m]; [done| |done]. by destruct (_ <=? _)%Z.
Qed.

Lemma float_of_int_not_negative z f :
  (0 ≤ z)%Z → float_of_int z = Some f → not_negative f ∧ is_nan f = false.
Proof.
  intros Hz. unfold float_of_int, binary_normalize.
  destruct z as [|p|p]; [by intros [= <-]| |lia].
  unfold binary_round. destruct (shl_align _ _ _) as [mz ez].
  pose proof (binary_round_aux_sign 53 1024 false (Z.pos mz) ez loc_Exact) as Hsign.
  pose proof (binary_round_aux_not_nan 53 1024 false (Z.pos mz) ez loc_Exact) as Hnan.
  destruct (binary_round_aux _ _ _ _ _ _) as [s|s| |s m e]; intros [= <-]; subst;
    (split; [done|]); by apply Hnan.
Qed.

Lemma SFleb_zero_not_negative f :
  SFleb (S754_zero false) f = true → not_negative f ∧ is_nan f = false.
Proof. by destruct f as [[]|[]| |[] m e]. Qed.

Lemma SFmul_not_negative x y :
  not_negative x → not_negative y → not_negative (SFmul 53 1024 x y).
Proof.
  destruct x as [sx|[]| |[] mx ex], y as [sy|[]| |[] my ey]; try done; simpl; intros _ _.
  pose proof (binary_round_aux_sign 53 1024 false (Z.pos (mx * my)) (ex + ey) loc_Exact).
  by destruct (binary_round_aux _ _ _ _ _ _) as [[]|[]| |[] m e].
Qed.

Lemma int_of_float_not_negative f d :
  not_negative f → int_of_float f = Some d → (0 ≤ d)%Z.
Proof.
  destruct f as [s|s| |[] m e]; simpl; try done; intros _ [= <-]; [done|].
  simpl. apply Z.shiftl_nonneg. lia.
Qed.

(** X16. For an order whose quantity and time per unit are not negative,
    the duration that the scheduler computes, when it can compute one, is
    not negative either, and the time per unit it works with is a float
    that is not below zero. *)
Theorem duration_is_not_negative (po : production_order) (tpu : spec_float) (dur : Z) :
  (0 ≤ quantity po)%Z →
  number_nonneg (time_to_complete po) →
  order_duration po = Some (tpu, dur) →
  (0 ≤ dur)%Z ∧ SFleb (S754_zero false) tpu = true.
Proof.
  intros Hq Ht. unfold order_duration, int_mul_float.
  destruct (py_float (time_to_complete po)) as [tpu'|] eqn:Htpu; [|done]. simpl.
  destruct (float_of_int (quantity po)) as [fq|] eqn:Hfq; [|done]. simpl.
  destruct (int_of_float _) as [d|] eqn:Hd; [|done]. simpl. intros [= <- <-].
  assert (not_negative tpu' ∧ is_nan tpu' = false) as [Hpos Hnan].
  { destruct (time_to_complete po) as [z|f]; simpl in *.
    - by apply (float_of_int_not_negative z).
    - injection Htpu as <-. by apply SFleb_zero_not_negative. }
  apply float_of_int_not_negative in Hfq as [Hfq _]; [|done].
  split.
  - eapply int_of_float_not_negative; [|exact Hd]. by apply SFmul_not_negative.
  - by destruct tpu' as [[]|[]| |[] m e].
Qed.

Lemma duration_is_not_negative_witness :
  (0 ≤ 1500)%Z ∧
  SFleb (S754_zero false) (S754_finite false 6755399441055744 (-52)) = true.
Proof.
  apply (duration_is_not_negative
           (ProductionOrder "PO-1" "M1" 1000
              (NFloat (S754_finite false 6755399441055744 (-52))))).
  - simpl. lia.
  - reflexivity.
  - vm_compute. reflexivity.
Defined.

(** ** The slots of a schedule *)

Lemma total_duration_app js1 js2 :
  total_duration (js1 ++ js2) = (total_duration js1 + total_duration js2)%Z.
Proof. induction js1 as [|j js1 IH]; simpl; [done|]. rewrite IH. lia. Qed.

Lemma total_duration_nonneg js :
  Forall (λ j, 0 ≤ duration_s j)%Z js → (0 ≤ total_duration js)%Z.
Proof. induction 1; simpl; lia. Qed.

(** A slot of jobs put one after the other starts when the jobs before it
    are done. *)
Lemma elem_of_contiguous t js s :
  s ∈ contiguous t js →
  ∃ pre j post, js = pre ++ j :: post ∧
                s = Slot (order_number (job_po j)) (t + total_duration pre).
Proof.
  revert t. induction js as [|j js IH]; intros t; simpl; [by intros ?%elem_of_nil|].
  intros [->|Hin]%elem_of_cons.
  - exists [], j, js. simpl. by rewrite Z.add_0_r.
  - destruct (IH _ Hin) as (pre & j' & post & -> & ->).
    exists (j :: pre), j', post. simpl. by rewrite Z.add_assoc.
Qed.

Lemma contiguous_starts_sorted t js :
  Forall (λ j, 0 ≤ duration_s j)%Z js →
  StronglySorted (λ a b, slot_start a ≤ slot_start b)%Z (contiguous t js) ∧
  Forall (λ s, t ≤ slot_start s)%Z (contiguous t js).
Proof.
  intros Hjs. revert t. induction Hjs as [|j js Hj Hjs IH]; intros t; simpl.
  { split; constructor. }
  destruct (IH (t + duration_s j)%Z) as [Hs Hall].
  assert (Forall (λ s, t ≤ slot_start s)%Z (contiguous (t + duration_s j) js)) as Hall'.
  { eapply Forall_impl; [exact Hall|]. simpl. intros; lia. }
  split; constructor; simpl; [done|done|lia|done].
Qed.

Lemma elem_of_jobs_on ln pl j : j ∈ jobs_on ln pl ↔ (j, ln) ∈ pl.
Proof.
  unfold jobs_on. rewrite list_elem_of_fmap. split.
  - intros ([j' ln'] & -> & [Heq Hin]%list_elem_of_filter). simpl in *. by subst.
  - intros Hin. exists (j, ln). split; [done|]. by apply list_elem_of_filter.
Qed.

Lemma enrich_order_duration available_lines materials po j :
  enrich_order available_lines materials po = Some (Some j) →
  ∃ tpu, order_duration po = Some (tpu, duration_s j).
Proof.
  unfold enrich_order. destruct (order_duration po) as [[tpu dur]|]; [|done]. simpl.
  destruct (eligible_lines_for_order _ _ po); [done|]. intros [= <-]. simpl. eauto.
Qed.

(** X17. When no order has a negative duration, every slot of a returned
    schedule stands on one of the given lines and belongs to an order of
    the request, of the slot's order number, whose material can run on the
    line, and the order runs from the slot's start to its end within the
    shift: it starts no earlier than the shift and is done before the shift
    is over. The starts of a sequence are in ascending order. *)
Theorem every_slot_lies_within_the_shift
    (available_lines : list string) (production_orders : list production_order)
    (materials : list material) (shift_start shift_length_seconds : Z)
    (sched : gmap string (list slot)) :
  (∀ po tpu dur, po ∈ production_orders → order_duration po = Some (tpu, dur) →
                 (0 ≤ dur)%Z) →
  schedule_orders_greedy_nosplit available_lines materials shift_start
    shift_length_seconds production_orders = Some sched →
  ∀ ln seq, sched !! ln = Some seq →
    ln ∈ available_lines ∧
    StronglySorted (λ a b, slot_start a ≤ slot_start b)%Z seq ∧
    ∀ s, s ∈ seq →
      ∃ po tpu dur,
        po ∈ production_orders ∧ order_number po = slot_order_number s ∧
        order_duration po = Some (tpu, dur) ∧
        ln ∈ allowed_lines materials po ∧
        (shift_start ≤ slot_start s)%Z ∧
        (slot_start s + dur ≤ shift_start + shift_length_seconds)%Z.
Proof.
  intros Hdur (pl & Hsub & Hpl & Hsched & Hfit & Hearly)%schedule_run ln seq Hseq.
  rewrite Hsched in Hseq. case_decide as Hln; [|done]. injection Hseq as <-.
  split; [done|].
  assert (Forall (λ j, 0 ≤ duration_s j)%Z (jobs_on ln pl)) as Hnonneg.
  { apply Forall_forall. intros j Hj%elem_of_jobs_on.
    destruct (Hpl _ _ Hj) as [(tpu & Hd)%enrich_order_duration _].
    eapply Hdur; [|exact Hd]. eapply elem_of_submseteq; [|exact Hsub].
    apply list_elem_of_fmap. exists j. split; [done|].
    apply list_elem_of_fmap. by exists (j, ln). }
  split; [by apply contiguous_starts_sorted|].
  intros s (pre & j & post & Hjs & ->)%elem_of_contiguous. simpl.
  assert ((j, ln) ∈ pl) as Hj.
  { apply elem_of_jobs_on. rewrite Hjs. set_solver. }
  destruct (Hpl _ _ Hj) as [Hj' [_ Hallowed]%elem_of_eligible].
  destruct (enrich_order_duration _ _ _ _ Hj') as (tpu & Hd).
  exists (job_po j), tpu, (duration_s j).
  split.
  { eapply elem_of_submseteq; [|exact Hsub].
    apply list_elem_of_fmap. exists j. split; [done|].
    apply list_elem_of_fmap. by exists (j, ln). }
  split; [done|]. split; [done|]. split; [done|].
  rewrite Hjs in Hnonneg. apply Forall_app in Hnonneg as [Hpre Hpost].
  apply Forall_cons in Hpost as [_ Hpost].
  apply total_duration_nonneg in Hpre, Hpost.
  assert (0 ≤ shift_length_seconds)%Z as Hlen.
  { destruct (decide (0 ≤ shift_length_seconds)%Z) as [|Hneg]; [done|].
    rewrite Hearly in Hj by lia. by apply elem_of_nil in Hj. }
  specialize (Hfit Hlen ln). rewrite Hjs, total_duration_app in Hfit. simpl in Hfit.
  lia.
Qed.

Lemma every_slot_lies_within_the_shift_witness :
  ∃ sched,
    schedule_orders_greedy_nosplit ["L1"; "L2"] (materials two_lines_request) 0 28800
      (production_orders two_lines_request) = Some sched ∧
    ∀ ln seq, sched !! ln = Some seq → ln ∈ ["L1"; "L2"].
Proof.
  assert (is_Some (schedule_orders_greedy_nosplit ["L1"; "L2"]
                     (materials two_lines_request) 0 28800
                     (production_orders two_lines_request))) as [sched Hsched]
    by by_evaluation.
  exists sched. split; [exact Hsched|]. intros ln seq Hseq.
  refine (proj1 (every_slot_lies_within_the_shift _ _ _ _ _ sched _ Hsched ln seq Hseq)).
  intros po tpu dur Hpo. revert tpu dur.
  repeat (apply elem_of_cons in Hpo as [->|Hpo]); [| |by apply elem_of_nil in Hpo];
    intros tpu dur; vm_compute; intros [= <- <-]; done.
Defined.

(** ** The placements of a run *)

Section placement_facts.
Variable available_lines : list string.
Variable materials : list material.
Variables shift_start shift_len : Z.

Abbreviation run_placements enriched :=
  (placements shift_len (initial_line_state available_lines).1
              (py_sorted job_lt enriched)).

(** A run that gets to the placing loop, by the jobs it sorts. *)
Lemma schedule_trace pos sched :
  ¬ ((shift_len ≤ 0)%Z ∨ available_lines = []) →
  schedule_orders_greedy_nosplit available_lines materials shift_start shift_len pos
  = Some sched →
  ∃ enriched,
    enrich available_lines materials pos = Some enriched ∧
    ∀ ln, sched !! ln
          = if decide (ln ∈ available_lines)
            then Some (contiguous shift_start (jobs_on ln (run_placements enriched)))
            else None.
Proof.
  intros Hearly. unfold schedule_orders_greedy_nosplit. rewrite decide_False by done.
  destruct (enrich _ _ pos) as [enriched|] eqn:Henrich; [|done]. simpl.
  intros [= <-]. exists enriched. split; [done|].
  apply enrich_spec in Henrich as [_ Hall].
  set (sorted := py_sorted job_lt enriched).
  set (used0 := (initial_line_state available_lines).1).
  set (seqs0 := (initial_line_state available_lines).2).
  pose proof (foldl_place_job shift_start shift_len sorted used0 seqs0) as (_ & Hseq & Hdom).
  intros ln. replace (initial_line_state available_lines)
    with (used0, seqs0) by by destruct (initial_line_state _).
  case_decide as Hln.
  - assert (seqs0 !! ln = Some []) as Hs0.
    { unfold seqs0. by rewrite initial_sequence_lookup, decide_True. }
    assert (used0 !! ln = Some 0%Z) as Hu0.
    { unfold used0. by rewrite initial_used_lookup, decide_True. }
    rewrite lookup_lookup_total_dom.
    2:{ rewrite Hdom. apply elem_of_union_l, elem_of_dom. eauto. }
    rewrite Hseq, (lookup_total_correct _ _ _ Hs0), (lookup_total_correct _ _ _ Hu0).
    by rewrite Z.add_0_r.
  - apply not_elem_of_dom. rewrite Hdom. intros [Hin|Hin]%elem_of_union.
    + apply elem_of_dom in Hin as [? Hin]. unfold seqs0 in Hin.
      by rewrite initial_sequence_lookup, decide_False in Hin.
    + apply elem_of_list_to_set, list_elem_of_fmap in Hin as ([j ln'] & -> & Hin).
      simpl in Hln. apply Hln.
      assert (j ∈ enriched) as Hj.
      { rewrite <-(py_sorted_elem_of job_lt).
        eapply elem_of_sublist; [|apply (placements_sublist shift_len used0)].
        apply list_elem_of_fmap. by exists (j, ln'). }
      rewrite Forall_forall in Hall.
      destruct (enrich_order_Some _ _ _ _ (Hall j Hj)) as (_ & Helig & _).
      apply placements_eligible in Hin. rewrite Helig in Hin.
      by apply elem_of_eligible in Hin as [? _].
Qed.

Lemma jobs_on_sublist ln (pl : list (job * string)) : jobs_on ln pl `sublist_of` pl.*1.
Proof. unfold jobs_on. apply fmap_sublist, sublist_filter. Qed.

Lemma placed_durations_nonneg used jobs ln :
  Forall (λ j, 0 ≤ duration_s j)%Z jobs →
  (0 ≤ total_duration (jobs_on ln (placements shift_len used jobs)))%Z.
Proof.
  intros Hjobs. apply total_duration_nonneg.
  rewrite Forall_forall in Hjobs |- *. intros j Hj. apply Hjobs.
  eapply elem_of_sublist; [exact Hj|].
  etrans; [apply jobs_on_sublist|apply placements_sublist].
Qed.

(** A job that the loop passes over fits on none of its lines, neither at
    its turn nor after the loop. *)
Lemma placements_left_out used jobs j ln :
  Forall (λ j, 0 ≤ duration_s j)%Z jobs →
  j ∈ jobs → j ∉ (placements shift_len used jobs).*1 →
  ln ∈ eligible_lines j →
  (shift_len < used !!! ln + total_duration (jobs_on ln (placements shift_len used jobs))
               + duration_s j)%Z.
Proof.
  intros Hjobs Hj Hout Hln. revert used Hj Hout.
  induction Hjobs as [|j0 jobs Hj0 Hjobs IH]; intros used Hj Hout;
    [by apply elem_of_nil in Hj|].
  simpl in Hout |- *.
  destruct (choose_line shift_len used j0) as [best|] eqn:E.
  - simpl in Hout. apply not_elem_of_cons in Hout as [Hne Hout].
    apply elem_of_cons in Hj as [->|Hj]; [done|].
    specialize (IH _ Hj Hout). rewrite jobs_on_cons. case_decide as Hbest.
    + subst. rewrite lookup_total_insert_eq in IH. simpl. lia.
    + by rewrite lookup_total_insert_ne in IH.
  - apply elem_of_cons in Hj as [->|Hj]; [|by apply IH].
    apply choose_line_None in E.
    pose proof (placed_durations_nonneg used jobs ln Hjobs).
    destruct (decide (used !!! ln + duration_s j0 ≤ shift_len)%Z) as [Hfits|]; [|lia].
    exfalso. assert (ln ∈ candidates shift_len used j0) as Hc.
    { by apply elem_of_candidates. }
    rewrite E in Hc. by apply elem_of_nil in Hc.
Qed.
End placement_facts.

Lemma StronglySorted_sublist {A : Type} (R : A → A → Prop) (l1 l2 : list A) :
  l1 `sublist_of` l2 → StronglySorted R l2 → StronglySorted R l1.
Proof.
  induction 1 as [|x l1 l2 Hsub IH|x l1 l2 Hsub IH]; intros Hs; [constructor|..].
  - apply StronglySorted_inv in Hs as [Hs Hx]. constructor; [by apply IH|].
    rewrite Forall_forall in Hx |- *. intros y Hy. apply Hx.
    by eapply elem_of_sublist.
  - apply StronglySorted_inv in Hs as [Hs _]. by apply IH.
Qed.

Lemma enriched_jobs available_lines materials pos enriched j :
  enrich available_lines materials pos = Some enriched →
  j ∈ enriched ↔
  ∃ po, po ∈ pos ∧ enrich_order available_lines materials po = Some (Some j).
Proof.
  intros ->%enrich_kept. rewrite list_elem_of_omap. unfold kept_job.
  split; intros (po & Hpo & Hj); exists po; (split; [done|]).
  - destruct (enrich_order _ _ po) as [[j'|]|]; simpl in Hj; by simplify_eq.
  - by rewrite Hj.
Qed.

Lemma enriched_not_nan available_lines materials pos enriched :
  enrich available_lines materials pos = Some enriched →
  Forall (λ j, is_nan (density j) = false) enriched.
Proof.
  intros [_ Hall]%enrich_spec. eapply Forall_impl; [exact Hall|]. simpl.
  by intros j (_ & _ & _ & ?)%enrich_order_Some.
Qed.

(** Every run of the scheduler that returns, by its placements: the jobs
    the placing loop puts on a line, in the order of the loop. The
    placements are jobs of the enrichment of orders of the request, on
    given lines their material can run on; the sequence of a line is its
    placed jobs one after the other; the placed jobs stand in the order of
    the sort; and a job of the enrichment that is not placed fits on none
    of its lines. *)
Lemma schedule_placements available_lines materials shift_start shift_len pos sched :
  schedule_orders_greedy_nosplit available_lines materials shift_start shift_len pos
  = Some sched →
  ∃ pl : list (job * string),
    (∀ ln, sched !! ln
           = if decide (ln ∈ available_lines)
             then Some (contiguous shift_start (jobs_on ln pl)) else None) ∧
    (∀ j ln, (j, ln) ∈ pl →
             enrich_order available_lines materials (job_po j) = Some (Some j) ∧
             ln ∈ available_lines ∧ ln ∈ allowed_lines materials (job_po j)) ∧
    (job_po <$> pl.*1) ⊆+ pos ∧
    StronglySorted (λ a b, ¬ job_before b a) pl.*1 ∧
    ((0 < shift_len)%Z →
     (∀ po tpu dur, po ∈ pos → order_duration po = Some (tpu, dur) → (0 ≤ dur)%Z) →
     ∀ po j ln,
       po ∈ pos → enrich_order available_lines materials po = Some (Some j) →
       j ∉ pl.*1 →
       ln ∈ available_lines → ln ∈ allowed_lines materials po →
       (shift_len < total_duration (jobs_on ln pl) + duration_s j)%Z).
Proof.
  intros Hsched.
  destruct (decide ((shift_len ≤ 0)%Z ∨ available_lines = [])) as [Hearly|Hrun].
  { exists []. split; [|split; [|split; [|split]]].
    - unfold schedule_orders_greedy_nosplit in Hsched.
      rewrite decide_True in Hsched by done. injection Hsched as <-.
      intros ln. apply (py_dict_tabulate (λ _, [])).
    - by intros ?? ?%elem_of_nil.
    - apply submseteq_nil_l.
    - constructor.
    - intros Hlen _ po j ln _ _ _ Hln _. destruct Hearly as [?| ->]; [lia|].
      by apply elem_of_nil in Hln. }
  apply schedule_trace in Hsched as (enriched & Henrich & Hs); [|done].
  pose proof (enrich_spec _ _ _ _ Henrich) as [Hsub Hall].
  set (pl := placements shift_len (initial_line_state available_lines).1
               (py_sorted job_lt enriched)) in *.
  assert (∀ j, j ∈ pl.*1 → j ∈ enriched) as Hplaced.
  { intros j Hj. rewrite <-(py_sorted_elem_of job_lt).
    eapply elem_of_sublist; [exact Hj|apply placements_sublist]. }
  exists pl. split; [exact Hs|]. split; [|split; [|split]].
  - intros j ln Hin.
    assert (j ∈ enriched) as Hj.
    { apply Hplaced, list_elem_of_fmap. by exists (j, ln). }
    rewrite Forall_forall in Hall. specialize (Hall j Hj). split; [done|].
    destruct (enrich_order_Some _ _ _ _ Hall) as (_ & Helig & _).
    apply placements_eligible in Hin. rewrite Helig in Hin.
    by apply elem_of_eligible in Hin.
  - trans (job_po <$> py_sorted job_lt enriched).
    + apply fmap_submseteq, sublist_submseteq, placements_sublist.
    + rewrite py_sorted_perm. by apply sublist_submseteq.
  - eapply StronglySorted_sublist; [apply placements_sublist|].
    eapply StronglySorted_weaken; [|eapply sorted_jobs_sorted, enriched_not_nan, Henrich].
    intros a b Hab Hba%job_lt_before. unfold not_after in Hab. congruence.
  - intros Hlen Hdur po j ln Hpo Hj Hout Hln Hallowed.
    pose proof (placements_left_out shift_len (initial_line_state available_lines).1
                  (py_sorted job_lt enriched) j ln) as Hleft.
    rewrite (lookup_total_correct _ ln 0%Z) in Hleft.
    2:{ by rewrite initial_used_lookup, decide_True. }
    rewrite Z.add_0_l in Hleft. apply Hleft; [| |done|].
    + apply Forall_forall. intros j' Hj'. rewrite py_sorted_elem_of in Hj'.
      apply (enriched_jobs _ _ _ _ _ Henrich) in Hj' as (po' & Hpo' & Hj').
      destruct (enrich_order_duration _ _ _ _ Hj') as (tpu & Hd). by eapply Hdur.
    + rewrite py_sorted_elem_of. apply (enriched_jobs _ _ _ _ _ Henrich). eauto.
    + destruct (enrich_order_Some _ _ _ _ Hj) as (_ & -> & _).
      by apply elem_of_eligible.
Qed.

(** X18. With a positive shift length and no negative duration: the
    schedule that is returned is the schedule of placements of enriched
    jobs of the request on given lines their material can run on, and an
    order that can run on some of the given lines and whose job is not
    among these placements fits on none of these lines, that is, the jobs
    placed on such a line leave less time than the order takes. *)
Theorem left_out_order_fits_on_none_of_its_lines
    (available_lines : list string) (production_orders : list production_order)
    (materials : list material) (shift_start shift_length_seconds : Z)
    (sched : gmap string (list slot)) :
  (0 < shift_length_seconds)%Z →
  (∀ po tpu dur, po ∈ production_orders → order_duration po = Some (tpu, dur) →
                 (0 ≤ dur)%Z) →
  schedule_orders_greedy_nosplit available_lines materials shift_start
    shift_length_seconds production_orders = Some sched →
  ∃ pl : list (job * string),
    (∀ ln, sched !! ln
           = if decide (ln ∈ available_lines)
             then Some (contiguous shift_start (jobs_on ln pl)) else None) ∧
    (∀ j ln, (j, ln) ∈ pl →
             enrich_order available_lines materials (job_po j) = Some (Some j) ∧
             ln ∈ available_lines ∧ ln ∈ allowed_lines materials (job_po j)) ∧
    (job_po <$> pl.*1) ⊆+ production_orders ∧
    ∀ po j ln,
      po ∈ production_orders →
      enrich_order available_lines materials po = Some (Some j) →
      j ∉ pl.*1 →
      ln ∈ available_lines → ln ∈ allowed_lines materials po →
      (shift_length_seconds < total_duration (jobs_on ln pl) + duration_s j)%Z.
Proof.
  intros Hlen Hdur (pl & Hs & Hpl & Hsub & _ & Hleft)%schedule_placements.
  exists pl. split; [done|]. split; [done|]. split; [done|]. by apply Hleft.
Qed.

Lemma left_out_order_fits_on_none_of_its_lines_witness :
  ∃ sched pl,
    schedule_orders_greedy_nosplit ["L1"] [Material "M1" (Some ["L1"])] 0 50
      [ProductionOrder "PO-1" "M1" 1 (NInt 100)] = Some sched ∧
    sched !! "L1" = Some (contiguous 0 (jobs_on "L1" pl)) ∧
    (50 < total_duration (jobs_on "L1" pl) + 100)%Z.
Proof.
  assert (schedule_orders_greedy_nosplit ["L1"] [Material "M1" (Some ["L1"])] 0 50
            [ProductionOrder "PO-1" "M1" 1 (NInt 100)] = Some {["L1" := []]}) as Hsched
    by (vm_compute; reflexivity).
  assert (0 < 50)%Z as Hlen by lia.
  assert (∀ po tpu dur, po ∈ [ProductionOrder "PO-1" "M1" 1 (NInt 100)] →
                        order_duration po = Some (tpu, dur) → (0 ≤ dur)%Z) as Hdur.
  { intros po tpu dur ->%list_elem_of_singleton. vm_compute. by intros [= <- <-]. }
  destruct (left_out_order_fits_on_none_of_its_lines _ _ _ _ _ _ Hlen Hdur Hsched)
    as (pl & Hs & Hpl & _ & Hleft).
  assert (sched_L1 : ({["L1" := []]} : gmap string (list slot)) !! "L1"
                     = Some (contiguous 0 (jobs_on "L1" pl))).
  { rewrite Hs. by rewrite decide_True by apply list_elem_of_here. }
  exists {["L1" := []]}, pl. split; [exact Hsched|]. split; [exact sched_L1|].
  rewrite lookup_singleton_eq in sched_L1.
  assert (jobs_on "L1" pl = []) as Hnone.
  { destruct (jobs_on "L1" pl); [done|]. simpl in sched_L1. by simplify_eq. }
  set (po := ProductionOrder "PO-1" "M1" 1 (NInt 100)).
  set (j := {| job_po := po; duration_s := 100; eligible_lines := ["L1"];
               density := SFdiv 53 1024 float_one
                            (S754_finite false 7036874417766400 (-46)) |}).
  change 100%Z with (duration_s j).
  apply (Hleft po j "L1").
  - apply list_elem_of_here.
  - vm_compute. reflexivity.
  - intros ([j' ln] & -> & Hin)%list_elem_of_fmap.
    destruct (Hpl _ _ Hin) as (_ & ->%list_elem_of_singleton & _).
    apply elem_of_jobs_on in Hin. rewrite Hnone in Hin. by apply elem_of_nil in Hin.
  - apply list_elem_of_here.
  - by_evaluation.
Defined.

(** X19. Every schedule that is returned is the schedule of placements of
    enriched jobs of the request on given lines their material can run on,
    and these jobs are placed, and so stand on each line, in the order of
    the sort: density descending, then duration ascending, then order
    number ascending; no job stands after a job that the sort puts behind
    it. *)
Theorem sequences_follow_the_sort_order
    (available_lines : list string) (production_orders : list production_order)
    (materials : list material) (shift_start shift_length_seconds : Z)
    (sched : gmap string (list slot)) :
  schedule_orders_greedy_nosplit available_lines materials shift_start
    shift_length_seconds production_orders = Some sched →
  ∃ pl : list (job * string),
    (∀ ln, sched !! ln
           = if decide (ln ∈ available_lines)
             then Some (contiguous shift_start (jobs_on ln pl)) else None) ∧
    (∀ j ln, (j, ln) ∈ pl →
             enrich_order available_lines materials (job_po j) = Some (Some j) ∧
             ln ∈ available_lines ∧ ln ∈ allowed_lines materials (job_po j)) ∧
    (job_po <$> pl.*1) ⊆+ production_orders ∧
    StronglySorted (λ a b, ¬ job_before b a) pl.*1 ∧
    ∀ ln, StronglySorted (λ a b, ¬ job_before b a) (jobs_on ln pl).
Proof.
  intros (pl & Hs & Hpl & Hsub & Hsorted & _)%schedule_placements.
  exists pl. split; [done|]. split; [done|]. split; [done|]. split; [done|].
  intros ln. eapply StronglySorted_sublist; [apply jobs_on_sublist|done].
Qed.

Lemma sequences_follow_the_sort_order_witness :
  ∃ sched pl,
    schedule_orders_greedy_nosplit ["L1"] [Material "M1" (Some ["L1"])] 0 3600
      [ProductionOrder "PO-B" "M1" 2000 (NInt 1); ProductionOrder "PO-A" "M1" 1000 (NInt 1)]
    = Some sched ∧
    sched !! "L1" = Some [Slot "PO-A" 0; Slot "PO-B" 1000] ∧
    sched !! "L1" = Some (contiguous 0 (jobs_on "L1" pl)) ∧
    StronglySorted (λ a b, ¬ job_before b a) (jobs_on "L1" pl).
Proof.
  assert (schedule_orders_greedy_nosplit ["L1"] [Material "M1" (Some ["L1"])] 0 3600
            [ProductionOrder "PO-B" "M1" 2000 (NInt 1);
             ProductionOrder "PO-A" "M1" 1000 (NInt 1)]
          = Some {["L1" := [Slot "PO-A" 0; Slot "PO-B" 1000]]}) as Hsched
    by (vm_compute; reflexivity).
  destruct (sequences_follow_the_sort_order _ _ _ _ _ _ Hsched)
    as (pl & Hs & _ & _ & _ & Hlines).
  exists {["L1" := [Slot "PO-A" 0; Slot "PO-B" 1000]]}, pl.
  split; [exact Hsched|]. split; [apply lookup_singleton_eq|].
  split; [|apply Hlines].
  rewrite Hs. by rewrite decide_True by apply list_elem_of_here.
Defined.

(** ** The order of the production orders in the request *)

Lemma NoDup_fmap_eq {A B : Type} (f : A → B) (l : list A) x y :
  NoDup (f <$> l) → x ∈ l → y ∈ l → f x = f y → x = y.
Proof.
  induction l as [|a l IH]; simpl; [by intros _ ?%elem_of_nil|].
  intros [Hfresh Hnd]%NoDup_cons [->|Hx]%elem_of_cons [->|Hy]%elem_of_cons Heq; auto.
  - exfalso. apply Hfresh. rewrite Heq. apply list_elem_of_fmap. eauto.
  - exfalso. apply Hfresh. rewrite <-Heq. apply list_elem_of_fmap. eauto.
Qed.

Lemma foldl_same_step {A B : Type} (f g : A → B → A) (l : list B) (a : A) :
  (∀ a b, f a b = g a b) → foldl f a l = foldl g a l.
Proof.
  intros Hfg. revert a. induction l as [|b l IH]; intros a; simpl; [done|].
  by rewrite Hfg, IH.
Qed.

(** With distinct order numbers, the sorted list of the enriched jobs does
    not depend on the order of the orders. *)
Lemma sorted_jobs_perm available_lines materials pos pos' enriched enriched' :
  NoDup (order_number <$> pos) → pos ≡ₚ pos' →
  enrich available_lines materials pos = Some enriched →
  enrich available_lines materials pos' = Some enriched' →
  py_sorted job_lt enriched = py_sorted job_lt enriched'.
Proof.
  intros Hnd Hperm Henrich Henrich'.
  pose proof (enriched_not_nan _ _ _ _ Henrich) as Hnan.
  pose proof (enriched_not_nan _ _ _ _ Henrich') as Hnan'.
  assert (enriched ≡ₚ enriched') as Hp.
  { rewrite (enrich_kept _ _ _ _ Henrich), (enrich_kept _ _ _ _ Henrich').
    by apply omap_Permutation. }
  assert (NoDup (order_number <$> (job_po <$> enriched))) as Hnd'.
  { eapply sublist_NoDup; [exact Hnd|]. apply fmap_sublist.
    by apply (enrich_spec _ _ _ _ Henrich). }
  apply (StronglySorted_unique_strong (not_after job_lt)).
  - intros a b Ha Hb Hab Hba. rewrite py_sorted_elem_of in Ha, Hb.
    rewrite <-Hp in Hb. rewrite Forall_forall in Hnan.
    destruct (job_trichotomy a b (Hnan a Ha) (Hnan b Hb))
      as [Hlt%job_lt_before|[Hlt%job_lt_before|(_ & _ & Heq)]];
      unfold not_after in Hab, Hba; [congruence..|].
    rewrite <-list_fmap_compose in Hnd'.
    by apply (NoDup_fmap_eq (order_number ∘ job_po) enriched).
  - by apply sorted_jobs_sorted.
  - by apply sorted_jobs_sorted.
  - by rewrite !py_sorted_perm.
Qed.

Lemma schedule_perm available_lines materials shift_start shift_len pos pos' :
  NoDup (order_number <$> pos) → pos ≡ₚ pos' →
  schedule_orders_greedy_nosplit available_lines materials shift_start shift_len pos
  = schedule_orders_greedy_nosplit available_lines materials shift_start shift_len pos'.
Proof.
  intros Hnd Hperm. unfold schedule_orders_greedy_nosplit. case_decide; [done|].
  pose proof (enrich_is_Some available_lines materials pos) as Hsome.
  pose proof (enrich_is_Some available_lines materials pos') as Hsome'.
  assert (Forall (λ po, is_Some (order_duration po)) pos ↔
          Forall (λ po, is_Some (order_duration po)) pos') as Hall.
  { rewrite !Forall_forall. split; intros Hall po Hpo; apply Hall.
    - by rewrite Hperm.
    - by rewrite <-Hperm. }
  rewrite <-Hall in Hsome'.
  destruct (enrich _ _ pos) as [enriched|] eqn:E, (enrich _ _ pos') as [enriched'|] eqn:E';
    simpl.
  - by rewrite (sorted_jobs_perm _ _ _ _ _ _ Hnd Hperm E E').
  - exfalso. destruct (proj2 Hsome') as [? ?]; [|done]. apply Hsome. eauto.
  - exfalso. destruct (proj2 Hsome) as [? ?]; [|done]. apply Hsome'. eauto.
  - done.
Qed.

(** X20. When the order numbers are distinct, the schedule does not depend
    on the order in which the request lists the production orders: the
    sort by density, duration and order number decides alone. *)
Theorem schedule_is_independent_of_the_order_of_the_orders
    (available_lines : list string) (materials : list material)
    (shift_start shift_length_seconds : Z)
    (production_orders production_orders' : list production_order) :
  NoDup (order_number <$> production_orders) →
  production_orders ≡ₚ production_orders' →
  schedule_orders_greedy_nosplit available_lines materials shift_start
    shift_length_seconds production_orders
  = schedule_orders_greedy_nosplit available_lines materials shift_start
      shift_length_seconds production_orders'.
Proof. apply schedule_perm. Qed.

Lemma schedule_is_independent_of_the_order_of_the_orders_witness :
  schedule_orders_greedy_nosplit ["L1"; "L2"] (materials two_lines_request) 0 28800
    [ProductionOrder "PO-1" "M1" 100 (NInt 1); ProductionOrder "PO-2" "M2" 50 (NInt 2)]
  = schedule_orders_greedy_nosplit ["L1"; "L2"] (materials two_lines_request) 0 28800
      [ProductionOrder "PO-2" "M2" 50 (NInt 2); ProductionOrder "PO-1" "M1" 100 (NInt 1)].
Proof.
  apply schedule_is_independent_of_the_order_of_the_orders.
  - by_evaluation.
  - apply perm_swap.
Defined.

(** X21. When the order numbers are distinct, the response does not depend
    on the order in which the request lists the production orders: the
    same assignment is chosen and the same schedule is built. *)
Theorem response_is_independent_of_the_order_of_the_orders req
    (production_orders' : list production_order) :
  NoDup (order_number <$> production_orders req) →
  production_orders req ≡ₚ production_orders' →
  main {| lines_available := lines_available req;
          employees_available := employees_available req;
          production_orders := production_orders'; materials := materials req;
          shift_start := shift_start req;
          shift_length_seconds := shift_length_seconds req |}
  = main req.
Proof.
  intros Hnd Hperm. unfold main. simpl.
  destruct (employee_assignment _ _) as [|c l]; [done|].
  assert (best_index
            {| lines_available := lines_available req;
               employees_available := employees_available req;
               production_orders := production_orders'; materials := materials req;
               shift_start := shift_start req;
               shift_length_seconds := shift_length_seconds req |} (c :: l)
          = best_index req (c :: l)) as ->.
  { unfold best_index. f_equal. apply foldl_same_step.
    intros [best_idx best_qty] [i combo]. simpl.
    by rewrite (score_perm _ production_orders' (production_orders req)). }
  destruct ((c :: l) !! best_index req (c :: l)) as [chosen|]; [|done]. simpl.
  by rewrite (schedule_perm _ _ _ _ production_orders' (production_orders req));
    [|by rewrite <-Hperm|].
Qed.

Lemma response_is_independent_of_the_order_of_the_orders_witness :
  main {| lines_available := lines_available two_lines_request;
          employees_available := employees_available two_lines_request;
          production_orders :=
            [ProductionOrder "PO-2" "M2" 50 (NInt 2); ProductionOrder "PO-1" "M1" 100 (NInt 1)];
          materials := materials two_lines_request;
          shift_start := shift_start two_lines_request;
          shift_length_seconds := shift_length_seconds two_lines_request |}
  = main two_lines_request.
Proof.
  apply (response_is_independent_of_the_order_of_the_orders two_lines_request).
  - by_evaluation.
  - apply perm_swap.
Defined.

(** ** One search of the matcher *)

(** X22. A search of the matcher, started on any line with any [seen] set
    and any dict, returns as soon as the fuel exceeds the number of
    employees not yet seen. The [seen] set only grows and the entries of
    the employees seen before stay as they are; a search that fails leaves
    the dict as it was, and a search that succeeds matches exactly one more
    line, the one it was started on, while every line matched before stays
    matched. *)
Theorem search_matches_its_line_or_changes_nothing
    (g : gmap string (list string)) (U : gset string) (fuel : nat)
    (line : string) (seen : gset string) (m : gmap string string) :
  (∀ ln e, e ∈ get_list g ln → e ∈ U) →
  size (U ∖ seen) < fuel →
  ∃ (b : bool) (seen' : gset string) (m' : gmap string string),
    try_augment g fuel line seen m = Some (b, seen', m') ∧
    seen ⊆ seen' ∧
    (∀ e, e ∈ seen → m' !! e = m !! e) ∧
    (b = false → m' = m) ∧
    (b = true → matched_lines m' ≡ₚ line :: matched_lines m ∧ size m' = S (size m)).
Proof.
  intros HU Hfuel.
  destruct (try_augment_total g U fuel line seen m HU Hfuel) as [[[b s'] m'] Hrun].
  exists b, s', m'. split; [done|].
  apply try_augment_post in Hrun as (Hseen & Hkeep & Hsame & Hperm & _).
  split; [done|]. split; [done|]. split; [done|].
  intros Hb. specialize (Hperm Hb). split; [done|].
  rewrite <-!matched_lines_length, Hperm. done.
Qed.

Lemma search_matches_its_line_or_changes_nothing_witness :
  ∃ (b : bool) (seen' : gset string) (m' : gmap string string),
    try_augment {["L1" := ["e1"]; "L2" := ["e1"; "e2"]]} 3 "L1" ∅ {["e1" := "L2"]}
    = Some (b, seen', m').
Proof.
  destruct (search_matches_its_line_or_changes_nothing
              {["L1" := ["e1"]; "L2" := ["e1"; "e2"]]} {["e1"; "e2"]} 3 "L1" ∅
              {["e1" := "L2"]}) as (b & seen' & m' & Hrun & _).
  - intros ln e. unfold get_list.
    destruct (decide (ln = "L1")) as [->|H1]; [vm_compute; set_solver|].
    destruct (decide (ln = "L2")) as [->|H2]; [vm_compute; set_solver|].
    rewrite lookup_insert_ne, lookup_singleton_ne by done. by intros ?%elem_of_nil.
  - by_evaluation.
  - by exists b, seen', m'.
Defined.

(** ** The chosen assignment among all maximum matchings *)

Lemma score_same_lines lines lines' pos materials :
  (∀ ln, ln ∈ lines ↔ ln ∈ lines') →
  score_assignment_quantity lines pos materials
  = score_assignment_quantity lines' pos materials.
Proof.
  intros Hl. rewrite !score_assignment_quantity_sum.
  induction pos as [|po pos IH]; simpl; [done|].
  by rewrite IH, (counted_same_lines lines lines').
Qed.

(** X23. For lines without repetition and quantities that are not negative,
    the lines of the response score at least as much as the lines of any
    matching of maximum size of the qualification graph: among all ways to
    staff as many lines as possible, the response takes one of the greatest
    score. *)
Theorem response_lines_score_highest req resp (pairs : list (string * string)) :
  NoDup (lines_available req) →
  Forall (λ po, 0 ≤ quantity po)%Z (production_orders req) →
  main req = Some resp →
  is_matching (lines_available req) (employees_available req) pairs →
  is_max_matching_size (lines_available req) (employees_available req) (length pairs) →
  (score_assignment_quantity pairs.*1 (production_orders req) (materials req)
   ≤ score_assignment_quantity (resp_lines resp) (production_orders req) (materials req))%Z.
Proof.
  intros Hnd Hq Hmain Hp Hmax.
  pose proof (matcher_size_is_maximum _ (employees_available req) Hnd) as Hm.
  pose proof (max_matching_size_unique _ _ _ _ Hmax Hm) as Hlen.
  unfold main in Hmain.
  destruct (employee_assignment _ _) as [|c l] eqn:E.
  { injection Hmain as <-. simpl.
    destruct (decide (size (match_emp_to_line (lines_available req)
                              (employees_available req)) = 0)) as [Hz|Hnz].
    - rewrite Hz in Hlen. apply nil_length_inv in Hlen as ->. done.
    - exfalso. pose proof (employee_assignment_complete _ _ _ Hp Hlen Hnz) as Hin.
      rewrite E in Hin. by apply elem_of_nil in Hin. }
  assert (size (match_emp_to_line (lines_available req) (employees_available req)) ≠ 0)
    as Hnz.
  { assert (c ∈ employee_assignment (lines_available req) (employees_available req))
      as [? _]%elem_of_employee_assignment by (rewrite E; apply list_elem_of_here).
    done. }
  pose proof (employee_assignment_complete _ _ _ Hp Hlen Hnz) as Hin. rewrite E in Hin.
  destruct (best_index_cases req (c :: l)) as [[_ Hall]|(chosen & Hch & Hbest & _)].
  { exfalso. specialize (Hall c (list_elem_of_here _ _)).
    pose proof (score_nonneg (lines_from_combo c) _ (materials req) Hq).
    unfold combo_score in Hall. lia. }
  rewrite Hch in Hmain. simpl in Hmain.
  destruct (schedule_orders_greedy_nosplit _ _ _ _ _) as [sched|]; [|done].
  injection Hmain as <-. simpl. specialize (Hbest _ Hin). unfold combo_score in Hbest.
  rewrite (score_same_lines pairs.*1 (lines_from_combo (py_sorted pair_lt pairs))).
  2:{ intros ln. unfold lines_from_combo. by rewrite py_sorted_perm. }
  rewrite (score_same_lines (py_sorted String.ltb (lines_from_combo chosen))
             (lines_from_combo chosen)); [done|].
  intros ln. by rewrite py_sorted_elem_of.
Qed.


Lemma two_lines_matching :
  is_matching (lines_available two_lines_request) (employees_available two_lines_request)
    [("L2", "e1"); ("L1", "e2")].
Proof.
  split; [by_evaluation|]. split; [by_evaluation|].
  intros ln e Hin.
  apply elem_of_cons in Hin as [[= -> ->]|Hin].
  { split; [by_evaluation|]. exists (emp_of "e1" ["L1"; "L2"]).
    split; [apply list_elem_of_here|]. split; [done|]. by_evaluation. }
  apply list_elem_of_singleton in Hin as [= -> ->].
  split; [by_evaluation|]. exists (emp_of "e2" ["L1"; "L2"]).
  split; [apply list_elem_of_further, list_elem_of_here|]. split; [done|]. by_evaluation.
Qed.

Lemma response_lines_score_highest_witness :
  ∃ resp,
    main two_lines_request = Some resp ∧
    (score_assignment_quantity [("L2", "e1"); ("L1", "e2")].*1
       (production_orders two_lines_request) (materials two_lines_request)
     ≤ score_assignment_quantity (resp_lines resp)
         (production_orders two_lines_request) (materials two_lines_request))%Z.
Proof.
  assert (is_Some (main two_lines_request)) as [resp Hresp] by by_evaluation.
  assert (NoDup (lines_available two_lines_request)) as Hnd by by_evaluation.
  exists resp. split; [exact Hresp|].
  refine (response_lines_score_highest two_lines_request resp
            [("L2", "e1"); ("L1", "e2")] Hnd _ Hresp two_lines_matching _).
  - by_evaluation.
  - replace (length [("L2", "e1"); ("L1", "e2")])
      with (size (match_emp_to_line (lines_available two_lines_request)
                    (employees_available two_lines_request))) by by_evaluation.
    apply matcher_size_is_maximum. exact Hnd.
Defined.

(** ** Eligible lines and enrichment *)

(** X24. The eligible lines of an order are the given lines that its
    material can run on, each once, in strictly ascending order, whatever
    the order and the repetitions of the given lines. *)
Theorem eligible_lines_are_distinct_and_ascending
    (available_lines : list string) (materials : list material) (po : production_order) :
  StronglySorted (λ a b, String.ltb a b = true)
    (eligible_lines_for_order available_lines materials po) ∧
  NoDup (eligible_lines_for_order available_lines materials po) ∧
  ∀ ln, ln ∈ eligible_lines_for_order available_lines materials po ↔
        ln ∈ available_lines ∧ ln ∈ allowed_lines materials po.
Proof.
  assert (NoDup (eligible_lines_for_order available_lines materials po)) as Hnd.
  { unfold eligible_lines_for_order. rewrite py_sorted_perm. apply NoDup_elements. }
  split; [|split; [done|apply elem_of_eligible]].
  apply StronglySorted_strict; [apply ltb_antisym|done|].
  unfold eligible_lines_for_order. apply (py_sorted_sorted String.ltb (λ _, True)).
  - intros a b _ _. apply ltb_asym.
  - intros a b c _ _ _. apply ltb_negtrans.
  - by apply Forall_forall.
Qed.

(** X25. The enrichment keeps exactly the orders that have an eligible
    line, in the order of the request, and gives each its eligible lines,
    the duration computed from quantity and time per unit, and a density
    that is a number. *)
Theorem enrichment_keeps_the_orders_with_an_eligible_line
    (available_lines : list string) (materials : list material)
    (production_orders : list production_order) (enriched : list job) :
  enrich available_lines materials production_orders = Some enriched →
  job_po <$> enriched
  = filter (λ po, eligible_lines_for_order available_lines materials po ≠ [])
           production_orders ∧
  Forall (λ j, eligible_lines j
               = eligible_lines_for_order available_lines materials (job_po j) ∧
               (∃ tpu, order_duration (job_po j) = Some (tpu, duration_s j)) ∧
               is_nan (density j) = false) enriched.
Proof.
  intros Henrich. split.
  - revert enriched Henrich.
    induction production_orders as [|po pos IH]; intros enriched; simpl;
      [by intros [= <-]|].
    destruct (enrich_order _ _ po) as [oj|] eqn:E; [|done]. simpl.
    destruct (enrich _ _ pos) as [js|]; [|done]. simpl. intros [= <-].
    specialize (IH js eq_refl). rewrite filter_cons.
    destruct oj as [j|].
    + change (option_list (Some j) ++ js) with (j :: js).
      destruct (enrich_order_Some _ _ _ _ E) as (Hpo & _ & Hne & _).
      rewrite decide_True by done. by rewrite fmap_cons, Hpo, IH.
    + change (option_list None ++ js) with js.
      rewrite decide_False; [done|]. intros Hne. unfold enrich_order in E.
      destruct (order_duration po) as [[tpu dur]|]; [|done]. simpl in E.
      by destruct (eligible_lines_for_order _ _ po).
  - apply enrich_spec in Henrich as [_ Hall].
    eapply Forall_impl; [exact Hall|]. simpl. intros j Hj.
    destruct (enrich_order_Some _ _ _ _ Hj) as (_ & Helig & _ & Hnan).
    split; [done|]. split; [|done]. by eapply enrich_order_duration.
Qed.

Lemma enrichment_keeps_the_orders_with_an_eligible_line_witness :
  ∃ enriched,
    enrich ["L2"] (materials two_lines_request) (production_orders two_lines_request)
    = Some enriched ∧
    job_po <$> enriched
    = filter (λ po, eligible_lines_for_order ["L2"] (materials two_lines_request) po ≠ [])
             (production_orders two_lines_request).
Proof.
  assert (is_Some (enrich ["L2"] (materials two_lines_request)
                     (production_orders two_lines_request))) as [enriched Henrich]
    by by_evaluation.
  exists enriched. split; [exact Henrich|].
  exact (proj1 (enrichment_keeps_the_orders_with_an_eligible_line _ _ _ _ Henrich)).
Defined.

(** ** A shift without time *)

(** X26. With a shift length that is not positive, [main] raises no
    exception, whatever the orders hold, and every line of the response has
    the empty sequence. *)
Theorem without_shift_time_every_sequence_is_empty req :
  (shift_length_seconds req ≤ 0)%Z →
  ∃ resp, main req = Some resp ∧
          (∀ ln, ln ∈ resp_lines resp → resp_sequence resp !! ln = Some []) ∧
          ∀ ln seq, resp_sequence resp !! ln = Some seq → seq = [].
Proof.
  intros Hlen. unfold main. destruct (employee_assignment _ _) as [|c l] eqn:E.
  { eexists. split; [done|]. simpl. split; [by intros ? ?%elem_of_nil|].
    by intros ?? ?%lookup_empty_Some. }
  destruct (chosen_is_returned req c l E) as (chosen & -> & _ & _). simpl.
  unfold schedule_orders_greedy_nosplit. rewrite decide_True by by left. simpl.
  eexists. split; [done|]. simpl. split.
  - intros ln Hln%py_sorted_elem_of.
    by rewrite (py_dict_tabulate (λ _, [])), decide_True.
  - intros ln seq Hseq. rewrite (py_dict_tabulate (λ _, [])) in Hseq.
    case_decide; by simplify_eq.
Qed.

Lemma without_shift_time_every_sequence_is_empty_witness :
  ∃ resp,
    main {| lines_available := ["L1"]; employees_available := [emp_of "e1" ["L1"]];
            production_orders := [ProductionOrder "PO-1" "M1" 1 (NFloat S754_nan)];
            materials := []; shift_start := 0; shift_length_seconds := 0 |} = Some resp ∧
    resp_sequence resp !! "L1" = Some [].
Proof.
  destruct (without_shift_time_every_sequence_is_empty
              {| lines_available := ["L1"]; employees_available := [emp_of "e1" ["L1"]];
                 production_orders := [ProductionOrder "PO-1" "M1" 1 (NFloat S754_nan)];
                 materials := []; shift_start := 0; shift_length_seconds := 0 |})
    as (resp & Hresp & Hlines & _).
  - simpl. lia.
  - exists resp. split; [exact Hresp|]. apply Hlines.
    assert (resp_lines resp = ["L1"]) as ->; [|apply list_elem_of_here].
    revert Hresp. vm_compute. by intros [= <-].
Defined.
